(** * Layer / canvas editing core of the image generator and editor

    A shallow embedding of the canvas logic of [src/index.tsx]: the layer
    stack ([canvasImages], [activeImageId]), the pointer interaction
    handlers ([handleInteractionStart], [handleInteractionMove],
    [handleInteractionEnd]), the layer panel actions ([duplicateLayer],
    [deleteLayer], [stopEditing], the lock and visibility buttons), the
    image load handler of [addImagesToCanvas], and the two compositing
    steps ([normalizeImageToBase64] and the flatten step of [editImage]).

    Conventions of the embedding.
    - A TypeScript [number] that carries geometry is an exact rational
      ([Q]); comparisons are the boolean tests the code performs.  Layer
      ids and clock readings ([Date.now()]) are integers ([Z]).
    - A JavaScript string is the list of its UTF-16 code units.
    - The module-level [let] variables of the source are the fields of
      [State]; every handler is a function [State -> State].
    - An object mutated through a reference obtained with
      [canvasImages.find] is the first element of the stack satisfying
      the predicate; the mutation rewrites that element in place.
    - Arithmetic is exact.  A quotient by zero, which JavaScript
      evaluates to an infinity or to NaN, is outside the model: the
      statements that depend on a quotient assume positive operands.
      The statements that hold in exact arithmetic only say so; the
      placement formula of [normalizeImageToBase64] is also given over
      an arbitrary arithmetic ([normalizePlacementIn]) and evaluated in
      IEEE double precision ([doubles]), the arithmetic of a JavaScript
      [number]. *)

From Stdlib Require Import QArith Lqa ZArith Lia List Bool Ascii String.
From Stdlib Require Import Permutation DecimalString DecimalNat.
From Stdlib Require PrimFloat.
Import ListNotations.

Local Open Scope Q_scope.

(** ** Numbers and strings *)

(** [a < b] as the boolean test JavaScript evaluates. *)
Definition Qlt_bool (a b : Q) : bool := negb (Qle_bool b a).

(** A JavaScript string: its UTF-16 code units. *)
Definition jsstring := list N.

(** A string literal of the source (ASCII only). *)
Definition lit (s : string) : jsstring :=
  map N_of_ascii (list_ascii_of_string s).

(** ** Data model *)

Record HTMLImageElement := mkImg {
  src : nat;            (* the decoded pixel source, by identity *)
  naturalWidth : Q;
  naturalHeight : Q
}.

Record CanvasImage := mkCanvasImage {
  id : Z;
  name : jsstring;
  img : HTMLImageElement;
  x : Q;
  y : Q;
  width : Q;
  height : Q;
  isVisible : bool;
  isLocked : bool
}.

Inductive Handle := nw | ne | sw | se.

Record Pos := mkPos { px : Q; py : Q }.

Definition MAX_CANVAS_DISPLAY_WIDTH : Q := 680.
Definition HANDLE_SIZE : Q := 16.

(** The canvas state of the module, together with the logical size of
    [outpaintCanvas]. *)
Record State := mkState {
  canvasImages : list CanvasImage;
  activeImageId : option Z;
  isDragging : bool;
  isResizing : bool;
  dragStart : Pos;
  activeHandle : option Handle;
  canvasWidth : Q;
  canvasHeight : Q
}.

(** Field updates. *)
Definition set_id (v : Z) (i : CanvasImage) :=
  mkCanvasImage v (name i) (img i) (x i) (y i) (width i) (height i)
                (isVisible i) (isLocked i).
Definition set_name (v : jsstring) (i : CanvasImage) :=
  mkCanvasImage (id i) v (img i) (x i) (y i) (width i) (height i)
                (isVisible i) (isLocked i).
Definition set_x (v : Q) (i : CanvasImage) :=
  mkCanvasImage (id i) (name i) (img i) v (y i) (width i) (height i)
                (isVisible i) (isLocked i).
Definition set_y (v : Q) (i : CanvasImage) :=
  mkCanvasImage (id i) (name i) (img i) (x i) v (width i) (height i)
                (isVisible i) (isLocked i).
Definition set_width (v : Q) (i : CanvasImage) :=
  mkCanvasImage (id i) (name i) (img i) (x i) (y i) v (height i)
                (isVisible i) (isLocked i).
Definition set_height (v : Q) (i : CanvasImage) :=
  mkCanvasImage (id i) (name i) (img i) (x i) (y i) (width i) v
                (isVisible i) (isLocked i).
Definition set_isVisible (v : bool) (i : CanvasImage) :=
  mkCanvasImage (id i) (name i) (img i) (x i) (y i) (width i) (height i)
                v (isLocked i).
Definition set_isLocked (v : bool) (i : CanvasImage) :=
  mkCanvasImage (id i) (name i) (img i) (x i) (y i) (width i) (height i)
                (isVisible i) v.

Definition set_canvasImages (v : list CanvasImage) (s : State) :=
  mkState v (activeImageId s) (isDragging s) (isResizing s) (dragStart s)
          (activeHandle s) (canvasWidth s) (canvasHeight s).
Definition set_activeImageId (v : option Z) (s : State) :=
  mkState (canvasImages s) v (isDragging s) (isResizing s) (dragStart s)
          (activeHandle s) (canvasWidth s) (canvasHeight s).
Definition set_isDragging (v : bool) (s : State) :=
  mkState (canvasImages s) (activeImageId s) v (isResizing s) (dragStart s)
          (activeHandle s) (canvasWidth s) (canvasHeight s).
Definition set_isResizing (v : bool) (s : State) :=
  mkState (canvasImages s) (activeImageId s) (isDragging s) v (dragStart s)
          (activeHandle s) (canvasWidth s) (canvasHeight s).
Definition set_dragStart (v : Pos) (s : State) :=
  mkState (canvasImages s) (activeImageId s) (isDragging s) (isResizing s) v
          (activeHandle s) (canvasWidth s) (canvasHeight s).
Definition set_activeHandle (v : option Handle) (s : State) :=
  mkState (canvasImages s) (activeImageId s) (isDragging s) (isResizing s)
          (dragStart s) v (canvasWidth s) (canvasHeight s).
Definition set_canvasSize (w h : Q) (s : State) :=
  mkState (canvasImages s) (activeImageId s) (isDragging s) (isResizing s)
          (dragStart s) (activeHandle s) w h.

(** ** Array primitives used by the source *)

(** [canvasImages.find((img) => img.id === v)]; a [null] id matches no
    layer. *)
Definition hasId (v : Z) (i : CanvasImage) : bool := (id i =? v)%Z.

Definition findById (imgs : list CanvasImage) (v : option Z)
  : option CanvasImage :=
  match v with
  | None => None
  | Some k => find (hasId k) imgs
  end.

(** [findIndex]: [-1] when nothing matches. *)
Fixpoint findIndexFrom (p : CanvasImage -> bool) (imgs : list CanvasImage)
         (k : Z) : Z :=
  match imgs with
  | [] => (-1)%Z
  | i :: rest => if p i then k else findIndexFrom p rest (k + 1)%Z
  end.

Definition findIndex (p : CanvasImage -> bool) (imgs : list CanvasImage) : Z :=
  findIndexFrom p imgs 0%Z.

(** [arr.splice(i, 1)] for an index within the array: the array without
    its [i]-th element. *)
Definition removeAt (i : nat) (imgs : list CanvasImage) : list CanvasImage :=
  firstn i imgs ++ skipn (S i) imgs.

(** [arr.splice(i, 0, v)] for [0 <= i]: insertion before index [i]
    (at the end when [i] is past the end). *)
Definition insertAt (i : nat) (v : CanvasImage) (imgs : list CanvasImage)
  : list CanvasImage :=
  firstn i imgs ++ v :: skipn i imgs.

(** A write through the reference returned by [find]: the first element
    satisfying [p] is replaced by its image under [f]. *)
Fixpoint updateFirst (p : CanvasImage -> bool)
         (f : CanvasImage -> CanvasImage) (imgs : list CanvasImage)
  : list CanvasImage :=
  match imgs with
  | [] => []
  | i :: rest => if p i then f i :: rest else i :: updateFirst p f rest
  end.

(** A write through a reference held by a layer-panel closure: the
    element at a position of the stack. *)
Fixpoint updateAt (k : nat) (f : CanvasImage -> CanvasImage)
         (imgs : list CanvasImage) : list CanvasImage :=
  match imgs, k with
  | [], _ => []
  | i :: rest, O => f i :: rest
  | i :: rest, S k' => i :: updateAt k' f rest
  end.

(** ** Geometry *)

(** [getHandlePositions], in the enumeration order of the object
    literal. *)
Definition getHandlePositions (image : CanvasImage) : list (Handle * Pos) :=
  [ (nw, mkPos (x image) (y image));
    (ne, mkPos (x image + width image) (y image));
    (sw, mkPos (x image) (y image + height image));
    (se, mkPos (x image + width image) (y image + height image)) ].

Definition inHitbox (half : Q) (xx yy : Q) (h : Pos) : bool :=
  Qle_bool (px h - half) xx && Qle_bool xx (px h + half) &&
  Qle_bool (py h - half) yy && Qle_bool yy (py h + half).

Definition getHandleAtPos (image : CanvasImage) (xx yy : Q) : option Handle :=
  let handles := getHandlePositions image in
  let handleHitboxSize := HANDLE_SIZE * (3 # 2) in
  option_map fst
    (find (fun kh => inHitbox (handleHitboxSize / 2) xx yy (snd kh)) handles).

(** The rectangle test of the hit loop. *)
Definition hitRect (image : CanvasImage) (pos : Pos) : bool :=
  isVisible image &&
  Qle_bool (x image) (px pos) &&
  Qle_bool (px pos) (x image + width image) &&
  Qle_bool (y image) (py pos) &&
  Qle_bool (py pos) (y image + height image).

(** The loop [for (let i = length - 1; i >= 0; i--)] with its [break]:
    [hitScan imgs pos n] examines indices [n-1], [n-2], ..., [0]. *)
Fixpoint hitScan (imgs : list CanvasImage) (pos : Pos) (n : nat)
  : option (nat * CanvasImage) :=
  match n with
  | O => None
  | S i =>
      match nth_error imgs i with
      | Some image =>
          if hitRect image pos then Some (i, image) else hitScan imgs pos i
      | None => hitScan imgs pos i
      end
  end.

(** ** Interaction handlers *)

(** The first block of [handleInteractionStart]: the handle test on the
    active layer.  Returns the state and [clickedOnSomething]. *)
Definition startHandlePhase (pos : Pos) (s : State) : State * bool :=
  match findById (canvasImages s) (activeImageId s) with
  | Some activeImage =>
      if isVisible activeImage && negb (isLocked activeImage) then
        let h := getHandleAtPos activeImage (px pos) (py pos) in
        let s1 := set_activeHandle h s in
        match h with
        | Some _ => (set_isResizing true s1, true)
        | None => (s1, false)
        end
      else (s, false)
  | None => (s, false)
  end.

Definition handleInteractionStart (pos : Pos) (s : State) : State :=
  let (s1, clickedOnSomething) := startHandlePhase pos s in
  if clickedOnSomething then s1
  else
    match hitScan (canvasImages s1) pos (List.length (canvasImages s1)) with
    | Some (i, image) =>
        let s2 :=
          if negb (isLocked image) then
            set_canvasImages (removeAt i (canvasImages s1) ++ [image])
              (set_dragStart
                 (mkPos (px pos - x image) (py pos - y image))
                 (set_isDragging true s1))
          else s1 in
        set_activeImageId (Some (id image)) s2
    | None => set_activeImageId None s1
    end.

(** [activeHandle.includes(c)] on the handle's name. *)
Definition handleName (h : Handle) : string :=
  match h with
  | nw => "nw" | ne => "ne" | sw => "sw" | se => "se"
  end%string.

Definition includes (h : Handle) (c : ascii) : bool :=
  existsb (Ascii.eqb c) (list_ascii_of_string (handleName h)).

(** The values computed by the resize branch of [handleInteractionMove]
    before the size guard: the position the layer receives and the
    recomputed width and height. *)
Record Resize := mkResize {
  rX : Q; rY : Q; newWidth : Q; newHeight : Q
}.

Definition resizeStep (activeImage : CanvasImage) (h : Handle) (pos : Pos)
  : Resize :=
  let aspectRatio :=
    naturalWidth (img activeImage) / naturalHeight (img activeImage) in
  let originalRight := x activeImage + width activeImage in
  let originalBottom := y activeImage + height activeImage in
  let '(newWidth0, widthChanged) :=
    if includes h "e"%char then (px pos - x activeImage, true)
    else if includes h "w"%char then (originalRight - px pos, true)
    else (width activeImage, false) in
  let '(newWidth1, newHeight1) :=
    if includes h "s"%char then
      let nh := py pos - y activeImage in
      (if widthChanged then newWidth0 else nh * aspectRatio, nh)
    else if includes h "n"%char then
      let nh := originalBottom - py pos in
      (if widthChanged then newWidth0 else nh * aspectRatio, nh)
    else (newWidth0, height activeImage) in
  let newHeight2 :=
    if widthChanged then newWidth1 / aspectRatio else newHeight1 in
  let y' :=
    if includes h "n"%char then originalBottom - newHeight2 else y activeImage in
  let x' :=
    if includes h "w"%char then originalRight - newWidth1 else x activeImage in
  mkResize x' y' newWidth1 newHeight2.

(** The writes of the resize branch: [x] and [y] are assigned first, the
    size only under the guard [newWidth > 20 && newHeight > 20]. *)
Definition applyResize (r : Resize) (activeImage : CanvasImage)
  : CanvasImage :=
  let moved := set_x (rX r) (set_y (rY r) activeImage) in
  if Qlt_bool 20 (newWidth r) && Qlt_bool 20 (newHeight r) then
    set_height (newHeight r) (set_width (newWidth r) moved)
  else moved.

Definition applyDrag (pos start : Pos) (activeImage : CanvasImage)
  : CanvasImage :=
  set_y (py pos - py start) (set_x (px pos - px start) activeImage).

Definition isActive (s : State) (i : CanvasImage) : bool :=
  match activeImageId s with
  | Some k => hasId k i
  | None => false
  end.

Definition handleInteractionMove (pos : Pos) (s : State) : State :=
  match findById (canvasImages s) (activeImageId s) with
  | None => s
  | Some activeImage =>
      if isLocked activeImage then s
      else
        match isResizing s, activeHandle s with
        | true, Some h =>
            set_canvasImages
              (updateFirst (isActive s)
                 (applyResize (resizeStep activeImage h pos))
                 (canvasImages s)) s
        | _, _ =>
            if isDragging s then
              set_canvasImages
                (updateFirst (isActive s) (applyDrag pos (dragStart s))
                   (canvasImages s)) s
            else s
        end
  end.

(** [handleInteractionEnd], on the editor state.  Its last line resets
    the displayed cursor, which is not a field of [State]; that write is
    part of [mouseStep] below. *)
Definition handleInteractionEnd (s : State) : State :=
  set_activeHandle None (set_isResizing false (set_isDragging false s)).

(** The mouse wrappers ([handleCanvasMouseDown], [handleCanvasMouseMove],
    [handleCanvasMouseUp]) and the single-touch wrappers call the three
    handlers as follows; the position is already in logical space. *)
Inductive PointerEvent :=
| pointerDown (pos : Pos)
| pointerMove (pos : Pos)
| pointerUp.

Definition step (s : State) (e : PointerEvent) : State :=
  match e with
  | pointerDown pos => handleInteractionStart pos s
  | pointerMove pos =>
      if isDragging s || isResizing s then handleInteractionMove pos s else s
  | pointerUp => handleInteractionEnd s
  end.

Definition run (evs : list PointerEvent) (s : State) : State :=
  fold_left step evs s.

(** [pos] lies on a resize handle of the active layer, and that layer
    takes handle input (it exists, is visible and is unlocked). *)
Definition onActiveHandle (pos : Pos) (s : State) : bool :=
  match findById (canvasImages s) (activeImageId s) with
  | Some activeImage =>
      isVisible activeImage && negb (isLocked activeImage) &&
      match getHandleAtPos activeImage (px pos) (py pos) with
      | Some _ => true
      | None => false
      end
  | None => false
  end.

(** The lock button of the layer panel, on the layer at position [k]. *)
Definition toggleLock (k : nat) (s : State) : State :=
  set_canvasImages
    (updateAt k (fun i => set_isLocked (negb (isLocked i)) i) (canvasImages s))
    s.

(** The visibility button of the layer panel. *)
Definition toggleVisible (k : nat) (s : State) : State :=
  set_canvasImages
    (updateAt k (fun i => set_isVisible (negb (isVisible i)) i)
       (canvasImages s))
    s.


(** ** Layer panel actions *)

(** [duplicateLayer(id)]; [now] is the value [Date.now()] returns during
    the call. *)
Definition duplicateLayer (now : Z) (k : Z) (s : State) : State :=
  match find (hasId k) (canvasImages s) with
  | None => s
  | Some imageToDuplicate =>
      let newImage :=
        set_name (name imageToDuplicate ++ lit " copy")
          (set_y (y imageToDuplicate + 20)
             (set_x (x imageToDuplicate + 20)
                (set_id now imageToDuplicate))) in
      let originalIndex := findIndex (hasId k) (canvasImages s) in
      set_activeImageId (Some (id newImage))
        (set_canvasImages
           (insertAt (Z.to_nat (originalIndex + 1)) newImage (canvasImages s))
           s)
  end.

Definition deleteLayer (k : Z) (s : State) : State :=
  let s1 :=
    set_canvasImages (filter (fun i => negb (hasId k i)) (canvasImages s)) s in
  match activeImageId s with
  | Some a => if (a =? k)%Z then set_activeImageId None s1 else s1
  | None => s1
  end.

(** [String.prototype.trim] removes the WhiteSpace and LineTerminator
    code points of ECMAScript from both ends. *)
Definition isWhiteSpace (c : N) : bool :=
  ((9 <=? c) && (c <=? 13) || (c =? 32) || (c =? 160) || (c =? 5760) ||
   (8192 <=? c) && (c <=? 8202) || (c =? 8232) || (c =? 8233) ||
   (c =? 8239) || (c =? 8287) || (c =? 12288) || (c =? 65279))%N.

Fixpoint trimStart (s : jsstring) : jsstring :=
  match s with
  | [] => []
  | c :: rest => if isWhiteSpace c then trimStart rest else s
  end.

Definition trimEnd (s : jsstring) : jsstring := rev (trimStart (rev s)).

Definition trim (s : jsstring) : jsstring := trimEnd (trimStart s).

(** [stopEditing], the commit of the name field of a layer item:
    [inputValue] is [nameInput.value], [image] the layer of the item.  A
    string is truthy exactly when it is not empty. *)
Definition stopEditing (inputValue : jsstring) (image : CanvasImage)
  : CanvasImage :=
  let newName := trim inputValue in
  match newName with
  | [] => image
  | _ :: _ => set_name newName image
  end.

(** The commit applied to the layer at position [k] of the stack. *)
Definition renameLayer (k : nat) (inputValue : jsstring) (s : State) : State :=
  set_canvasImages (updateAt k (stopEditing inputValue) (canvasImages s)) s.

(** ** Adding images *)

Record File := mkFile {
  fileName : jsstring;
  fileType : jsstring;
  decoded : option HTMLImageElement;  (* [None]: the image fails to load *)
  base64 : option jsstring            (* [None]: the file cannot be read *)
}.

(** The size a new layer receives: the natural size, scaled down to fit
    the canvas when it is larger. *)
Definition fitToCanvas (image : HTMLImageElement) (maxWidth maxHeight : Q)
  : Q * Q :=
  let width := naturalWidth image in
  let height := naturalHeight image in
  let imgAspectRatio := width / height in
  if Qlt_bool maxWidth width || Qlt_bool maxHeight height then
    if Qlt_bool imgAspectRatio (maxWidth / maxHeight) then
      (maxHeight * imgAspectRatio, maxHeight)
    else
      (maxWidth, maxWidth / imgAspectRatio)
  else (width, height).

(** The [img.onload] handler inside [addImagesToCanvas] for the file at
    position [index] of the batch; [now] is the value of [Date.now()]
    when the handler runs. *)
Definition imageLoaded (now : Z) (index : nat) (fname : jsstring)
           (image : HTMLImageElement) (s : State) : State :=
  let '(width, height) :=
    fitToCanvas image (canvasWidth s) (canvasHeight s) in
  let offset := inject_Z (Z.of_nat index) * 20 in
  let x := (canvasWidth s - width) / 2 + offset in
  let y := (canvasHeight s - height) / 2 + offset in
  let newImage :=
    mkCanvasImage (now + Z.of_nat index)%Z fname image x y width height
                  true false in
  set_activeImageId (Some (id newImage))
    (set_canvasImages (canvasImages s ++ [newImage]) s).

(** [setupCanvasDimensions], given the resolution of the selected menu
    entry. *)
Definition setupCanvasDimensions (menu : Q * Q) (s : State) : State :=
  set_canvasSize (fst menu) (snd menu) s.

(** [addImagesToCanvas(files)].  The images of a batch load concurrently:
    [completions] lists, in the order in which the load events fire, the
    batch index of the file and the clock reading at that moment.  A file
    that fails to decode pushes nothing. *)
Definition completeLoad (files : list File) (s : State) (c : nat * Z)
  : State :=
  match nth_error files (fst c) with
  | Some f =>
      match decoded f with
      | Some image => imageLoaded (snd c) (fst c) (fileName f) image s
      | None => s
      end
  | None => s
  end.

Definition addImagesToCanvas (menu : Q * Q) (files : list File)
           (completions : list (nat * Z)) (s : State) : State :=
  match files with
  | [] => s
  | _ :: _ =>
      let s1 :=
        if Qeq_bool (canvasWidth s) 0 || Qeq_bool (canvasHeight s) 0
        then setupCanvasDimensions menu s else s in
      fold_left (completeLoad files) completions s1
  end.

(** The stack operations of the layer panel. *)
Inductive LayerOp :=
| opInsert (menu : Q * Q) (files : list File) (completions : list (nat * Z))
| opRemove (k : Z)
| opDuplicate (now : Z) (k : Z).

Definition applyOp (s : State) (o : LayerOp) : State :=
  match o with
  | opInsert menu files completions =>
      addImagesToCanvas menu files completions s
  | opRemove k => deleteLayer k s
  | opDuplicate now k => duplicateLayer now k s
  end.

Definition applyOps (ops : list LayerOp) (s : State) : State :=
  fold_left applyOp ops s.

(** The invariants of the data model. *)
Definition idsUnique (s : State) : Prop := NoDup (map id (canvasImages s)).

Definition activeResolves (s : State) : Prop :=
  match activeImageId s with
  | None => True
  | Some k => exists L, In L (canvasImages s) /\ id L = k
  end.

(** ** Compositing *)

(** A 2D canvas: its size and the [drawImage] calls it received, oldest
    first.  A new canvas is transparent; its pixels are determined by
    its size and this list. *)
Inductive DrawCmd :=
| drawImage (image : HTMLImageElement) (dx dy dw dh : Q).

Record Canvas := mkCanvas {
  cWidth : Q;
  cHeight : Q;
  drawn : list DrawCmd
}.

(** The placement computed by [normalizeImageToBase64]:
    [(x, y, drawWidth, drawHeight)]. *)
Definition normalizePlacement (image : HTMLImageElement)
           (targetWidth targetHeight : Q) : Q * Q * Q * Q :=
  let imgAspectRatio := naturalWidth image / naturalHeight image in
  let canvasAspectRatio := targetWidth / targetHeight in
  let '(drawWidth, drawHeight) :=
    if Qlt_bool canvasAspectRatio imgAspectRatio then
      (targetWidth, targetWidth / imgAspectRatio)
    else
      (targetHeight * imgAspectRatio, targetHeight) in
  let x := (targetWidth - drawWidth) / 2 in
  let y := (targetHeight - drawHeight) / 2 in
  (x, y, drawWidth, drawHeight).

(** The operations the placement formula uses, so that the same lines
    can be read over exact rationals and over IEEE doubles. *)
Record Arithmetic := mkArithmetic {
  num : Type;
  numSub : num -> num -> num;
  numMul : num -> num -> num;
  numDiv : num -> num -> num;
  numLt : num -> num -> bool;
  numTwo : num
}.

Definition rationals : Arithmetic :=
  mkArithmetic Q Qminus Qmult Qdiv Qlt_bool 2.

(** Double-precision constants. *)
Module Double.
Import PrimFloat.
Definition zero : float := 0%float.
Definition two : float := 2%float.
Definition n738 : float := 738%float.
Definition n1344 : float := 1344%float.
End Double.

(** The arithmetic of a JavaScript [number]: binary64 with round to
    nearest even; a comparison with NaN is false. *)
Definition doubles : Arithmetic :=
  mkArithmetic PrimFloat.float PrimFloat.sub PrimFloat.mul PrimFloat.div
               PrimFloat.ltb Double.two.

(** Lines 219-236 of the source over an arithmetic [A]: the two aspect
    ratios, the comparison [imgAspectRatio > canvasAspectRatio], the two
    branches and the two offsets, operation by operation. *)
Definition normalizePlacementIn (A : Arithmetic)
           (naturalWidth naturalHeight targetWidth targetHeight : num A)
  : num A * num A * num A * num A :=
  let imgAspectRatio := numDiv A naturalWidth naturalHeight in
  let canvasAspectRatio := numDiv A targetWidth targetHeight in
  let '(drawWidth, drawHeight) :=
    if numLt A canvasAspectRatio imgAspectRatio then
      (targetWidth, numDiv A targetWidth imgAspectRatio)
    else
      (numMul A targetHeight imgAspectRatio, targetHeight) in
  let x := numDiv A (numSub A targetWidth drawWidth) (numTwo A) in
  let y := numDiv A (numSub A targetHeight drawHeight) (numTwo A) in
  (x, y, drawWidth, drawHeight).

(** One coordinate of a drag over an arithmetic [A]: the offset
    [dragStart.x = pos.x - image.x] recorded at pointer-down and the
    position [activeImage.x = pos.x - dragStart.x] written by a move. *)
Definition dragOffsetIn (A : Arithmetic) (pos origin : num A) : num A :=
  numSub A pos origin.

Definition dragPositionIn (A : Arithmetic) (pos start : num A) : num A :=
  numSub A pos start.

(** [normalizeImageToBase64(file, targetWidth, targetHeight)]: [None] is
    a rejected promise (the image fails to load, or no 2D context);
    otherwise the canvas that is encoded as PNG. *)
Definition normalizeImageToBase64 (hasContext : bool) (file : File)
           (targetWidth targetHeight : Q) : option (Canvas * jsstring) :=
  match decoded file with
  | None => None
  | Some image =>
      if hasContext then
        let '(x, y, drawWidth, drawHeight) :=
          normalizePlacement image targetWidth targetHeight in
        Some (mkCanvas targetWidth targetHeight
                [drawImage image x y drawWidth drawHeight],
              lit "image/png")
      else None
  end.

(** The paint loop shared by [drawCanvas] and [editImage]. *)
Fixpoint paintLayers (imgs : list CanvasImage) (surface : list DrawCmd)
  : list DrawCmd :=
  match imgs with
  | [] => surface
  | image :: rest =>
      paintLayers rest
        (if isVisible image then
           surface ++ [drawImage (img image) (x image) (y image)
                                 (width image) (height image)]
         else surface)
  end.

(** The temporary canvas of [editImage] after its paint loop. *)
Definition flattenCanvas (hasContext : bool) (s : State) : Canvas :=
  mkCanvas (canvasWidth s) (canvasHeight s)
    (if hasContext then paintLayers (canvasImages s) [] else []).

Record Prompts := mkPrompts {
  globalPrompt : jsstring;
  faceDetails : jsstring;
  dressPose : jsstring;
  background : jsstring
}.

Record OutputPanel := mkOutputPanel {
  textOutput : jsstring;
  textOutputHidden : bool;
  imageOutputHidden : bool;
  lastGeneratedImageDataUrl : option jsstring
}.

Inductive Part :=
| canvasPart (composite : Canvas) (mimeType : jsstring)
| filePart (data : jsstring) (mimeType : jsstring)
| textPart (text : jsstring).

(** How a call of [editImage] ends before the response is processed. *)
Inductive EditOutcome :=
| returnedEarly                       (* [return] without a service call *)
| threw                               (* a reference file could not be read *)
| requested (parts : list Part).      (* [ai.models.generateContent] *)

Fixpoint joinWith (sep : jsstring) (l : list jsstring) : jsstring :=
  match l with
  | [] => []
  | [a] => a
  | a :: rest => a ++ sep ++ joinWith sep rest
  end.

Definition truthy (t : jsstring) : bool :=
  match t with [] => false | _ :: _ => true end.

Fixpoint readAll (files : list File) : option (list Part) :=
  match files with
  | [] => Some []
  | f :: rest =>
      match base64 f, readAll rest with
      | Some data, Some parts => Some (filePart data (fileType f) :: parts)
      | _, _ => None
      end
  end.

Definition noVisibleMessage : jsstring :=
  lit "Please add and enable at least one visible image on the canvas for editing.".

Section Composition.

(** The first sentence of the composition prompt, a template over the
    canvas size. *)
Variable compositionInstruction : Q -> Q -> jsstring.

Definition editImage (hasContext : bool) (referenceFiles : list File)
           (prompts : Prompts) (s : State) (out : OutputPanel)
  : State * OutputPanel * EditOutcome :=
  let out1 := mkOutputPanel (textOutput out) true true None in
  let visibleImages := filter isVisible (canvasImages s) in
  if (List.length visibleImages =? 0)%nat then
    (s, mkOutputPanel noVisibleMessage false true None, returnedEarly)
  else
    let tempCanvas := flattenCanvas hasContext s in
    match readAll referenceFiles with
    | None => (s, out1, threw)
    | Some referenceParts =>
        let allImageParts :=
          canvasPart tempCanvas (lit "image/png") :: referenceParts in
        let userPromptParts :=
          [ compositionInstruction (canvasWidth s) (canvasHeight s);
            globalPrompt prompts; faceDetails prompts;
            dressPose prompts; background prompts ] in
        let finalPrompt := joinWith (lit ". ") (filter truthy userPromptParts) in
        (s, out1, requested (allImageParts ++ [textPart finalPrompt]))
    end.

End Composition.

(** ** Sample data *)

Definition photo : HTMLImageElement := mkImg 0 400 400.
Definition thumbnail : HTMLImageElement := mkImg 1 10 10.
Definition banner : HTMLImageElement := mkImg 2 2000 1000.

Definition layerA : CanvasImage :=
  mkCanvasImage 1 (lit "a.png") photo 100 100 200 200 true false.
Definition layerB : CanvasImage :=
  mkCanvasImage 2 (lit "b.png") photo 100 100 200 200 true false.
Definition layerHidden : CanvasImage :=
  mkCanvasImage 4 (lit "d.png") banner 0 0 512 256 false false.

(** A state with no gesture in progress. *)
Definition idle (imgs : list CanvasImage) (active : option Z) : State :=
  mkState imgs active false false (mkPos 0 0) None 1024 1024.

(** ** Vocabulary of the properties *)

(** The corner diagonally opposite a handle, read off
    [getHandlePositions]. *)
Definition opposite (h : Handle) : Handle :=
  match h with
  | nw => se | ne => sw | sw => ne | se => nw
  end.

Definition cornerOf (h : Handle) (image : CanvasImage) : Pos :=
  match h with
  | nw => mkPos (x image) (y image)
  | ne => mkPos (x image + width image) (y image)
  | sw => mkPos (x image) (y image + height image)
  | se => mkPos (x image + width image) (y image + height image)
  end.

Definition pinnedCorner (h : Handle) (image : CanvasImage) : Pos :=
  cornerOf (opposite h) image.

Definition samePos (a b : Pos) : Prop := px a == px b /\ py a == py b.

Definition size (image : CanvasImage) : Q * Q := (width image, height image).

Definition positiveSize (image : CanvasImage) : Prop :=
  0 < width image /\ 0 < height image.

(** The size guard of the resize branch. *)
Definition aboveFloor (r : Resize) : Prop :=
  20 < newWidth r /\ 20 < newHeight r.

(** The [drawImage] call a visible layer contributes to a composite. *)
Definition drawOf (image : CanvasImage) : DrawCmd :=
  drawImage (img image) (x image) (y image) (width image) (height image).

Definition pngFile (fname : string) (image : HTMLImageElement) : File :=
  mkFile (lit fname) (lit "image/png") (Some image) (Some (lit "iVBORw0KGgo=")).

Definition overlapping : State := idle [layerA; layerB] None.

(** The selected layer [layerA] grabbed by its north-west handle. *)
Definition nwResize : State :=
  handleInteractionStart (mkPos 100 100) (idle [layerA] (Some 1%Z)).

(** A batch of two files whose second image finishes loading first, one
    clock tick before the first. *)
Definition batchOutOfOrder : State :=
  applyOps [opInsert (1024, 1024)
              [pngFile "a.png" photo; pngFile "b.png" photo]
              [(1%nat, 1000%Z); (0%nat, 1001%Z)]]
           (idle [] None).

(** Two duplications of the same layer within one clock tick. *)
Definition doubleDuplicate : State :=
  applyOps [opDuplicate 5000 1; opDuplicate 5000 1] (idle [layerA] (Some 1%Z)).

(** ** Further handlers of the editor *)

(** The [drop] listener of the layer list.  [draggedId] is the id parsed
    from the drag data ([None]: the text does not parse, [NaN]);
    [targetId] is the id of the layer item under the pointer ([None]: the
    drop is not on an item). *)
Definition dropOnLayerList (draggedId targetId : option Z) (s : State)
  : State :=
  match targetId with
  | None => s
  | Some t =>
      match draggedId with
      | None => s
      | Some d =>
          if (d =? t)%Z then s
          else
            match find (hasId d) (canvasImages s) with
            | None => s
            | Some draggedImage =>
                let items :=
                  filter (fun i => negb (hasId d i)) (canvasImages s) in
                let targetIndex := findIndex (hasId t) items in
                set_canvasImages
                  (insertAt (Z.to_nat (targetIndex + 1)) draggedImage items) s
          end
      end
  end.

(** The [click] listener of a layer item, for the item of the layer at
    position [k]. *)
Definition selectLayer (k : nat) (s : State) : State :=
  match nth_error (canvasImages s) k with
  | Some image => set_activeImageId (Some (id image)) s
  | None => s
  end.

(** The listener of the clear button. *)
Definition clearCanvas (s : State) : State :=
  set_activeImageId None (set_canvasImages [] s).

(** The listeners of the duplicate and delete buttons: the guard
    [if (activeImageId)] holds for an id that is neither [null] nor [0].
    The [keydown] listener, which has a guard on the focused element
    before this one, is [handleKeydown] below. *)
Definition activeIdTruthy (s : State) : option Z :=
  match activeImageId s with
  | Some a => if (a =? 0)%Z then None else Some a
  | None => None
  end.

Definition duplicateActiveLayer (now : Z) (s : State) : State :=
  match activeIdTruthy s with
  | Some a => duplicateLayer now a s
  | None => s
  end.

Definition deleteActiveLayer (s : State) : State :=
  match activeIdTruthy s with
  | Some a => deleteLayer a s
  | None => s
  end.

(** The [onload] handler of the add-to-canvas button of the output view;
    [srcUsable] is the guard on [outputImage.src] (not empty, not a blob
    URL). *)
Definition addGeneratedImage (srcUsable : bool) (now : Z)
           (image : HTMLImageElement) (s : State) : State :=
  if srcUsable then
    let '(width, height) :=
      fitToCanvas image (canvasWidth s) (canvasHeight s) in
    let newImage :=
      mkCanvasImage now (lit "Generated Image") image
                    ((canvasWidth s - width) / 2)
                    ((canvasHeight s - height) / 2)
                    width height true false in
    set_activeImageId (Some (id newImage))
      (set_canvasImages (canvasImages s ++ [newImage]) s)
  else s.

(** ** The display *)



(** The mouse cursor chosen at the end of [handleCanvasMouseMove]. *)
Inductive Cursor :=
| cursorDefault | cursorGrabbing | cursorNotAllowed
| cursorNwseResize | cursorNeswResize | cursorGrab.

Definition activeIsLocked (s : State) : bool :=
  match findById (canvasImages s) (activeImageId s) with
  | Some activeImage => isLocked activeImage
  | None => false
  end.

Definition handleCursor (pos : Pos) (s : State) : Cursor :=
  match findById (canvasImages s) (activeImageId s) with
  | Some activeImage =>
      if isVisible activeImage then
        match getHandleAtPos activeImage (px pos) (py pos) with
        | Some nw | Some se => cursorNwseResize
        | Some ne | Some sw => cursorNeswResize
        | None => cursorDefault
        end
      else cursorDefault
  | None => cursorDefault
  end.

Definition cursorAt (pos : Pos) (s : State) : Cursor :=
  if isDragging s then cursorGrabbing
  else if activeIsLocked s then cursorNotAllowed
  else
    match handleCursor pos s with
    | cursorDefault =>
        match hitScan (canvasImages s) pos (List.length (canvasImages s)) with
        | Some (_, image) =>
            if isLocked image then cursorNotAllowed else cursorGrab
        | None => cursorDefault
        end
    | c => c
    end.

(** [handleCanvasMouseMove]: the move, then the cursor. *)
Definition handleCanvasMouseMove (pos : Pos) (s : State) : State * Cursor :=
  let s1 := step s (pointerMove pos) in
  (s1, cursorAt pos s1).

(** ** Coordinate mapping *)

(** The rectangle [getBoundingClientRect] returns for the canvas. *)
Record DOMRect := mkRect {
  rectLeft : Q; rectTop : Q; rectWidth : Q; rectHeight : Q
}.

(** [getMousePos] (and [getTouchPos], on the first touch). *)
Definition getMousePos (rect : DOMRect) (clientX clientY : Q) (s : State)
  : Pos :=
  let scaleX := canvasWidth s / rectWidth rect in
  let scaleY := canvasHeight s / rectHeight rect in
  mkPos ((clientX - rectLeft rect) * scaleX)
        ((clientY - rectTop rect) * scaleY).

(** The touch listeners: a gesture with more than one contact is
    ignored by the start and move listeners. *)
Inductive TouchEvent :=
| touchStart (touches : nat) (rect : DOMRect) (clientX clientY : Q)
| touchMove (touches : nat) (rect : DOMRect) (clientX clientY : Q)
| touchEnd.

Definition touchStep (s : State) (e : TouchEvent) : State :=
  match e with
  | touchStart touches rect cx cy =>
      if (1 <? touches)%nat then s
      else handleInteractionStart (getMousePos rect cx cy s) s
  | touchMove touches rect cx cy =>
      if (1 <? touches)%nat then s
      else if isDragging s || isResizing s then
             handleInteractionMove (getMousePos rect cx cy s) s
           else s
  | touchEnd => handleInteractionEnd s
  end.

(** ** User actions *)

(** Every action of the editor that reads or writes the layer stack. *)
Inductive Action :=
| actPointer (e : PointerEvent)
| actTouch (e : TouchEvent)
| actOp (o : LayerOp)
| actDuplicateActive (now : Z)
| actDeleteActive
| actDrop (draggedId targetId : option Z)
| actSelect (k : nat)
| actToggleLock (k : nat)
| actToggleVisible (k : nat)
| actRename (k : nat) (inputValue : jsstring)
| actAddGenerated (srcUsable : bool) (now : Z) (image : HTMLImageElement)
| actClear.

Definition perform (s : State) (a : Action) : State :=
  match a with
  | actPointer e => step s e
  | actTouch e => touchStep s e
  | actOp o => applyOp s o
  | actDuplicateActive now => duplicateActiveLayer now s
  | actDeleteActive => deleteActiveLayer s
  | actDrop d t => dropOnLayerList d t s
  | actSelect k => selectLayer k s
  | actToggleLock k => toggleLock k s
  | actToggleVisible k => toggleVisible k s
  | actRename k v => renameLayer k v s
  | actAddGenerated ok now image => addGeneratedImage ok now image s
  | actClear => clearCanvas s
  end.

Definition performAll (acts : list Action) (s : State) : State :=
  fold_left perform acts s.

(** The fields of a layer that pointer interaction never writes. *)
Definition identity (image : CanvasImage)
  : Z * jsstring * HTMLImageElement * bool * bool :=
  (id image, name image, img image, isVisible image, isLocked image).

(** A point lies in the hit box of a handle centre. *)
Definition nearHandle (c pos : Pos) : Prop :=
  px c - 12 <= px pos /\ px pos <= px c + 12 /\
  py c - 12 <= py pos /\ py pos <= py c + 12.

(** While a drag lasts, the dragged layer is the last of the stack and
    differs from the layer that was grabbed in [x] and [y] only. *)
Definition dragging (k : Z) (rest : list CanvasImage) (d : Pos)
           (L : CanvasImage) (st : State) : Prop :=
  activeImageId st = Some k /\
  isDragging st = true /\ isResizing st = false /\ dragStart st = d /\
  exists C, canvasImages st = rest ++ [C] /\
            hasId k C = true /\ isLocked C = false /\
            forall q, applyDrag q d C = applyDrag q d L.

(** The resize cursor that belongs to a handle. *)
Definition diagonalCursor (h : Handle) : Cursor :=
  match h with
  | nw | se => cursorNwseResize
  | ne | sw => cursorNeswResize
  end.

(** The copy [duplicateLayer] makes of a layer at clock reading [now]. *)
Definition copyOf (now : Z) (source : CanvasImage) : CanvasImage :=
  mkCanvasImage now (name source ++ lit " copy") (img source)
                (x source + 20) (y source + 20)
                (width source) (height source)
                (isVisible source) (isLocked source).

(** The completions of a batch whose file exists and decodes. *)
Definition decodes (files : list File) (c : nat * Z) : bool :=
  match nth_error files (fst c) with
  | Some f => match decoded f with Some _ => true | None => false end
  | None => false
  end.

Definition newLayer (image : CanvasImage) : Prop :=
  isVisible image = true /\ isLocked image = false.

(** ** Generation requests and responses *)

(** A part of the content of a response candidate. *)
Record ResponsePart := mkResponsePart {
  inlineData : option (jsstring * jsstring);  (* data, mimeType *)
  partText : option jsstring
}.

(** A candidate of a response: the parts of its content, [None] when
    the candidate has no [content] or the content has no [parts]. *)
Definition Candidate := option (list ResponsePart).

(** A response: [None] when [candidates] is missing. *)
Definition GenerateContentResponse := option (list Candidate).

(** How a call ends: it returns, or it throws. *)
Inductive Completion := returned | thrown.

Definition dataUrl (mimeType data : jsstring) : jsstring :=
  lit "data:" ++ mimeType ++ lit ";base64," ++ data.

Definition invalidResponseMessage : jsstring :=
  lit "The model didn't return a valid response.".
Definition noImageMessage : jsstring :=
  lit "The model didn't return an image. Please try adjusting your prompt.".
Definition emptyResponseMessage : jsstring :=
  lit "The model returned an empty response. Please try again.".
Definition unexpectedErrorMessage : jsstring :=
  lit "An unexpected error occurred. Please try again.".

(** The state of the loop of [processGeminiResponse] over the parts. *)
Record Scan := mkScan {
  scanPanel : OutputPanel;
  scanImageSrc : jsstring;       (* [outputImage.src] *)
  imageFound : bool;
  textFound : bool
}.

Definition scanPart (st : Scan) (part : ResponsePart) : Scan :=
  match inlineData part with
  | Some (base64ImageBytes, mimeType) =>
      let url := dataUrl mimeType base64ImageBytes in
      mkScan (mkOutputPanel (textOutput (scanPanel st))
                            (textOutputHidden (scanPanel st)) false (Some url))
             url true (textFound st)
  | None =>
      match partText part with
      | Some (c :: t) =>
          mkScan (mkOutputPanel (c :: t) (textOutputHidden (scanPanel st))
                                (imageOutputHidden (scanPanel st))
                                (lastGeneratedImageDataUrl (scanPanel st)))
                 (scanImageSrc st) (imageFound st) true
      | _ => st
      end
  end.

(** [processGeminiResponse]: the output panel and [outputImage.src]
    after the call, and how the call ended.  The outputs are cleared and
    both containers hidden before the response is read; reading
    [response.candidates[0].content.parts] of a candidate without
    content throws, which leaves the panel cleared. *)
Definition processGeminiResponse (response : GenerateContentResponse)
  : OutputPanel * jsstring * Completion :=
  let cleared := mkOutputPanel [] true true None in
  match response with
  | None | Some [] =>
      (mkOutputPanel invalidResponseMessage false true None, [], returned)
  | Some (None :: _) => (cleared, [], thrown)
  | Some (Some parts :: _) =>
      let st := fold_left scanPart parts (mkScan cleared [] false false) in
      let p := scanPanel st in
      if imageFound st then
        (mkOutputPanel (textOutput p) true (imageOutputHidden p)
                       (lastGeneratedImageDataUrl p),
         scanImageSrc st, returned)
      else if textFound st then
        (mkOutputPanel
           (match trim (textOutput p) with
            | [] => noImageMessage
            | _ :: _ => textOutput p
            end)
           false (imageOutputHidden p) (lastGeneratedImageDataUrl p),
         scanImageSrc st, returned)
      else
        (mkOutputPanel emptyResponseMessage false (imageOutputHidden p)
                       (lastGeneratedImageDataUrl p),
         scanImageSrc st, returned)
  end.

(** The ['output'] branch of [setWorkspaceState], on the output panel. *)
Definition showOutput (out : OutputPanel) : OutputPanel :=
  if imageOutputHidden out && textOutputHidden out then
    mkOutputPanel
      (if truthy (textOutput out) then textOutput out
       else unexpectedErrorMessage)
      false (imageOutputHidden out) (lastGeneratedImageDataUrl out)
  else out.

(** The [catch] block of [handleGenerateClick], for an error whose
    [message] is given. *)
Definition showError (message : jsstring) (out : OutputPanel) : OutputPanel :=
  mkOutputPanel (lit "An error occurred: " ++ message) false true
                (lastGeneratedImageDataUrl out).

(** The output panel [handleGenerateClick] leaves once the call that
    processes the response has ended: its [catch] block when the call
    threw an error with the given message, then the ['output'] state
    set by its [finally] block. *)
Definition afterResponse (message : jsstring)
           (result : OutputPanel * jsstring * Completion) : OutputPanel :=
  match result with
  | (panel, _, returned) => showOutput panel
  | (panel, _, thrown) => showOutput (showError message panel)
  end.

Fixpoint jseqb (a b : jsstring) : bool :=
  match a, b with
  | [], [] => true
  | c :: a', d :: b' => (c =? d)%N && jseqb a' b'
  | _, _ => false
  end.

(** The target resolution of [generateWithGemini]: the numbers read from
    the text of the selected menu entry, or the table for its value. *)
Definition targetResolution (resolutionMatch : option (Q * Q))
           (aspectRatio : jsstring) : Q * Q :=
  match resolutionMatch with
  | Some r => r
  | None =>
      if jseqb aspectRatio (lit "16:9") then (1344, 738)
      else if jseqb aspectRatio (lit "9:16") then (738, 1344)
      else if jseqb aspectRatio (lit "4:3") then (1024, 768)
      else if jseqb aspectRatio (lit "3:4") then (768, 1024)
      else (1024, 1024)
  end.

(** [createBlankCanvasAsBase64]: the canvas that is encoded. *)
Definition createBlankCanvas (width height : Q) : Canvas :=
  mkCanvas width height [].

(** [Promise.all] over the normalised reference files. *)
Fixpoint normalizeAll (hasContext : bool) (files : list File)
         (width height : Q) : option (list Part) :=
  match files with
  | [] => Some []
  | f :: rest =>
      match normalizeImageToBase64 hasContext f width height,
            normalizeAll hasContext rest width height with
      | Some (canvas, mimeType), Some parts =>
          Some (canvasPart canvas mimeType :: parts)
      | _, _ => None
      end
  end.

Definition promptFields (prompts : Prompts) : list jsstring :=
  [ globalPrompt prompts; faceDetails prompts;
    dressPose prompts; background prompts ].

Definition noPromptMessage : jsstring :=
  lit "Please enter a prompt or provide a reference image.".
Definition noDetailsMessage : jsstring :=
  lit "Please enter some details for the image.".
Definition defaultPrompt : jsstring :=
  lit "A beautiful image based on the provided visual references.".

Section Generation.

(** The sentence of the prompt that states the resolution, a template
    over the target size. *)
Variable resolutionSentence : Q -> Q -> jsstring.

Definition generateWithGemini (hasContext : bool)
           (referenceFiles : list File) (prompts : Prompts)
           (resolutionMatch : option (Q * Q)) (aspectRatio : jsstring)
           (out : OutputPanel) : OutputPanel * EditOutcome :=
  let out1 := mkOutputPanel (textOutput out) true true None in
  let userPrompt := joinWith (lit ", ") (filter truthy (promptFields prompts)) in
  if negb (truthy (trim userPrompt)) &&
     (List.length referenceFiles =? 0)%nat then
    (mkOutputPanel noPromptMessage false true None, returnedEarly)
  else
    let '(width, height) := targetResolution resolutionMatch aspectRatio in
    let images :=
      if (0 <? List.length referenceFiles)%nat then
        normalizeAll hasContext referenceFiles width height
      else
        Some [canvasPart (createBlankCanvas width height) (lit "image/png")] in
    match images with
    | None => (out1, threw)
    | Some parts =>
        let finalPrompt :=
          trim (joinWith (lit " ")
                  [ (if truthy (trim userPrompt) then trim userPrompt
                     else defaultPrompt);
                    resolutionSentence width height ]) in
        (out1, requested (parts ++ [textPart finalPrompt]))
    end.

End Generation.

(** [generateImage] up to the service call: [Some prompt] is the prompt
    that is sent. *)
Definition generateImage (prompts : Prompts) (out : OutputPanel)
  : OutputPanel * option jsstring :=
  let prompt := joinWith (lit ", ") (filter truthy (promptFields prompts)) in
  if negb (truthy (trim prompt)) then
    (mkOutputPanel noDetailsMessage false true None, None)
  else
    (mkOutputPanel (textOutput out) true true None, Some prompt).

(** A string that is empty or white space only. *)
Definition blank (t : jsstring) : bool := forallb isWhiteSpace t.

Definition hasInline (part : ResponsePart) : bool :=
  match inlineData part with Some _ => true | None => false end.

(** The loop of [processGeminiResponse] keeps the panel and its flags in
    step. *)
Definition scanConsistent (st : Scan) : Prop :=
  textOutputHidden (scanPanel st) = true /\
  imageOutputHidden (scanPanel st) = negb (imageFound st) /\
  (imageFound st = true ->
   lastGeneratedImageDataUrl (scanPanel st) = Some (scanImageSrc st)) /\
  (imageFound st = false ->
   lastGeneratedImageDataUrl (scanPanel st) = None /\ scanImageSrc st = []).

(** An image part of a generation request with the given resolution. *)
Definition imagePartOfSize (w h : Q) (p : Part) : Prop :=
  exists c, p = canvasPart c (lit "image/png") /\
            cWidth c = w /\ cHeight c = h.

(** The actions that come from the pointer or from touch. *)
Definition isGesture (a : Action) : bool :=
  match a with
  | actPointer _ | actTouch _ => true
  | _ => false
  end.

(** Sample input for the gestures. *)
Definition displayRect : DOMRect := mkRect 40 60 512 512.

Definition sampleGesture : list Action :=
  [ actPointer (pointerDown (mkPos 150 150));
    actPointer (pointerMove (mkPos 175 190));
    actTouch (touchMove 2 displayRect 300 300);
    actPointer pointerUp;
    actTouch (touchStart 1 displayRect 100 120);
    actTouch (touchMove 1 displayRect 110 120);
    actTouch touchEnd ].

(** A new layer for [image] that lies within the canvas of [s]: visible,
    unlocked, of positive size, not larger than the canvas nor than the
    image, with the aspect ratio of the image. *)
Definition placedWithin (s : State) (image : HTMLImageElement)
           (L : CanvasImage) : Prop :=
  img L = image /\ newLayer L /\
  0 < width L /\ width L <= canvasWidth s /\
  0 < height L /\ height L <= canvasHeight s /\
  width L <= naturalWidth image /\ height L <= naturalHeight image /\
  width L * naturalHeight image == height L * naturalWidth image.

Definition insideCanvas (s : State) (L : CanvasImage) : Prop :=
  0 <= x L /\ x L + width L <= canvasWidth s /\
  0 <= y L /\ y L + height L <= canvasHeight s.

Definition otherThan (k : Z) (i : CanvasImage) : bool := negb (hasId k i).

Definition twoFiles : list File :=
  [pngFile "a.png" banner;
   mkFile (lit "broken.png") (lit "image/png") None None].

Definition sampleParts : list ResponsePart :=
  [ mkResponsePart None (Some (lit "Here is your picture."));
    mkResponsePart (Some (lit "AAAA", lit "image/png")) None;
    mkResponsePart (Some (lit "BBBB", lit "image/jpeg")) None;
    mkResponsePart None (Some (lit " ")) ].

Definition sampleResponse : GenerateContentResponse :=
  Some [Some sampleParts].

(** A response whose first candidate was stopped before any content. *)
Definition blockedResponse : GenerateContentResponse := Some [None].

(** The displayed cursor.  [outpaintCanvas.style.cursor] is written at
    the end of [handleCanvasMouseMove] and by [handleInteractionEnd];
    the value is kept here next to the editor state. *)
Record Screen := mkScreen {
  editor : State;
  cursor : Cursor
}.

Inductive MouseEvent :=
| mouseDown (pos : Pos)
| mouseMove (pos : Pos)
| mouseUp.

(** [handleCanvasMouseDown], [handleCanvasMouseMove] and
    [handleCanvasMouseUp] with the cursor they leave. *)
Definition mouseStep (v : Screen) (e : MouseEvent) : Screen :=
  match e with
  | mouseDown pos => mkScreen (handleInteractionStart pos (editor v)) (cursor v)
  | mouseMove pos =>
      let '(s1, c) := handleCanvasMouseMove pos (editor v) in mkScreen s1 c
  | mouseUp => mkScreen (handleInteractionEnd (editor v)) cursorDefault
  end.





(** Two overlapping layers on a canvas that shows the default cursor. *)
Definition overlappingScreen : Screen := mkScreen overlapping cursorDefault.

(** A hidden layer above a visible one. *)
Definition hiddenOnTop : State := idle [layerA; layerHidden] None.



(** The Escape key in the name field: the field is reset to the name of
    the layer and then committed. *)
Definition cancelEditing (image : CanvasImage) : CanvasImage :=
  stopEditing (name image) image.

(** A stream of pointer events in which a pointer-down only occurs when
    the pointer is up; [down] tells whether it is down at the start. *)
Fixpoint alternating (down : bool) (evs : list PointerEvent) : bool :=
  match evs with
  | [] => true
  | pointerDown _ :: rest => negb down && alternating true rest
  | pointerMove _ :: rest => alternating down rest
  | pointerUp :: rest => alternating false rest
  end.

(** ** File names of downloads *)

(** The fields of [new Date()] that [generateFilename] reads, in local
    time: [getFullYear], [getMonth] (0 to 11), [getDate], [getHours],
    [getMinutes], [getSeconds]. *)
Record LocalTime := mkTime {
  fullYear : nat;
  month : nat;
  date : nat;
  hours : nat;
  minutes : nat;
  seconds : nat
}.

(** [n.toString()] for a natural number: its decimal digits. *)
Definition numberToString (n : nat) : jsstring :=
  lit (NilZero.string_of_uint (Nat.to_uint n)).

(** [t.padStart(2, '0')]. *)
Definition padStart2 (t : jsstring) : jsstring :=
  repeat 48%N (2 - List.length t) ++ t.

Definition timestamp (t : LocalTime) : jsstring :=
  numberToString (fullYear t) ++
  padStart2 (numberToString (month t + 1)) ++
  padStart2 (numberToString (date t)) ++
  lit "-" ++
  padStart2 (numberToString (hours t)) ++
  padStart2 (numberToString (minutes t)) ++
  padStart2 (numberToString (seconds t)).

Definition generateFilename (now : LocalTime) (prefix extension : jsstring)
  : jsstring :=
  prefix ++ lit "-" ++ timestamp now ++ lit "." ++ extension.

(** The ranges of the fields of a date. *)
Definition validTime (t : LocalTime) : Prop :=
  (month t < 12 /\ 1 <= date t <= 31 /\
   hours t < 24 /\ minutes t < 60 /\ seconds t < 60)%nat.

(** Two-digit fields are told apart by their padded digits. *)
Definition paddedDistinct (bound : nat) : bool :=
  forallb (fun n =>
    forallb (fun m =>
      implb (jseqb (padStart2 (numberToString n))
                   (padStart2 (numberToString m)))
            (n =? m)%nat &&
      (List.length (padStart2 (numberToString n)) =? 2)%nat)
      (seq 0 bound))
    (seq 0 bound).
(** * Properties *)

(** ** Boolean comparisons *)

Lemma Qlt_bool_iff (a b : Q) : Qlt_bool a b = true <-> a < b.
Proof.
  unfold Qlt_bool. rewrite negb_true_iff. split; intro H.
  - apply Qnot_le_lt. intro Hle. apply Qle_bool_iff in Hle. congruence.
  - destruct (Qle_bool b a) eqn:E; [|reflexivity].
    apply Qle_bool_iff in E. exfalso. exact (Qlt_not_le _ _ H E).
Qed.

Lemma Qlt_bool_false_iff (a b : Q) : Qlt_bool a b = false <-> b <= a.
Proof.
  unfold Qlt_bool. rewrite negb_false_iff. apply Qle_bool_iff.
Qed.

(** ** Hit testing *)

Lemma hitScan_sound imgs pos n i image :
  hitScan imgs pos n = Some (i, image) ->
  (i < n)%nat /\ nth_error imgs i = Some image /\ hitRect image pos = true /\
  forall j L, (i < j < n)%nat -> nth_error imgs j = Some L ->
              hitRect L pos = false.
Proof.
  induction n as [|n IH]; simpl; [discriminate|].
  destruct (nth_error imgs n) as [top|] eqn:En.
  - destruct (hitRect top pos) eqn:Eh.
    + intros [= <- <-]. repeat split; auto; intros; lia.
    + intros H. destruct (IH H) as (Hi & Hn & Hh & Hab).
      repeat split; auto. intros j L Hj HL.
      destruct (Nat.eq_dec j n) as [->|Hne].
      * congruence.
      * apply (Hab j); auto; lia.
  - intros H. destruct (IH H) as (Hi & Hn & Hh & Hab).
    repeat split; auto. intros j L Hj HL.
    destruct (Nat.eq_dec j n) as [->|Hne].
    + congruence.
    + apply (Hab j); auto; lia.
Qed.

Lemma hitScan_none imgs pos n :
  hitScan imgs pos n = None ->
  forall j L, (j < n)%nat -> nth_error imgs j = Some L -> hitRect L pos = false.
Proof.
  induction n as [|n IH]; simpl; intros H j L Hj HL; [lia|].
  destruct (nth_error imgs n) as [top|] eqn:En.
  - destruct (hitRect top pos) eqn:Eh; [discriminate|].
    destruct (Nat.eq_dec j n) as [->|Hne]; [congruence|].
    apply (IH H j); auto; lia.
  - destruct (Nat.eq_dec j n) as [->|Hne]; [congruence|].
    apply (IH H j); auto; lia.
Qed.

Lemma hitScan_topmost imgs pos i L :
  nth_error imgs i = Some L ->
  hitRect L pos = true ->
  (forall j L', (i < j)%nat -> nth_error imgs j = Some L' ->
                hitRect L' pos = false) ->
  hitScan imgs pos (List.length imgs) = Some (i, L).
Proof.
  intros Hn Hh Hab.
  destruct (hitScan imgs pos (List.length imgs)) as [[k K]|] eqn:E.
  - destruct (hitScan_sound _ _ _ _ _ E) as (Hk & HnK & HhK & HabK).
    destruct (Nat.lt_trichotomy i k) as [Hlt|[->|Hgt]].
    + rewrite (Hab k K Hlt HnK) in HhK. discriminate.
    + congruence.
    + assert (Hi : (i < List.length imgs)%nat)
        by (apply nth_error_Some; congruence).
      rewrite (HabK i L (conj Hgt Hi) Hn) in Hh. discriminate.
  - assert (Hi : (i < List.length imgs)%nat)
      by (apply nth_error_Some; congruence).
    rewrite (hitScan_none _ _ _ E i L Hi Hn) in Hh. discriminate.
Qed.

Lemma hitScan_miss imgs pos :
  (forall L, In L imgs -> hitRect L pos = false) ->
  hitScan imgs pos (List.length imgs) = None.
Proof.
  intros Hall.
  destruct (hitScan imgs pos (List.length imgs)) as [[k K]|] eqn:E; auto.
  destruct (hitScan_sound _ _ _ _ _ E) as (_ & HnK & HhK & _).
  apply nth_error_In in HnK. rewrite (Hall K HnK) in HhK. discriminate.
Qed.

(** The handle phase reports a click exactly when [onActiveHandle]
    holds, and it leaves the stack, the selection and the drag state
    alone. *)
Lemma startHandlePhase_clicked pos s :
  snd (startHandlePhase pos s) = onActiveHandle pos s.
Proof.
  unfold startHandlePhase, onActiveHandle.
  destruct (findById _ _) as [a|]; auto.
  destruct (isVisible a && negb (isLocked a)); auto.
  destruct (getHandleAtPos _ _ _); auto.
Qed.

Lemma startHandlePhase_frame pos s :
  let s1 := fst (startHandlePhase pos s) in
  canvasImages s1 = canvasImages s /\
  activeImageId s1 = activeImageId s /\
  isDragging s1 = isDragging s /\
  dragStart s1 = dragStart s /\
  (onActiveHandle pos s = false -> isResizing s1 = isResizing s).
Proof.
  unfold startHandlePhase, onActiveHandle.
  destruct (findById _ _) as [a|]; simpl; auto 6.
  destruct (isVisible a && negb (isLocked a)); simpl; auto 6.
  destruct (getHandleAtPos _ _ _); simpl; auto 6.
  repeat split; auto; discriminate.
Qed.

(** On a pointer-down that is not on a handle of the active layer,
    the selected layer is the first one, scanning from the last element
    of the stack down to the first, that is visible and whose rectangle
    contains the point.  If it is unlocked it is moved to the end of the
    stack and a drag begins with the offset [pos - (x, y)]; if it is
    locked only the selection changes.  If no layer is hit the selection
    is cleared. *)
Lemma pointer_down_on_layers :
  forall (s : State) (pos : Pos),
    onActiveHandle pos s = false ->
    let imgs := canvasImages s in
    let s' := handleInteractionStart pos s in
    (forall i L,
        nth_error imgs i = Some L ->
        hitRect L pos = true ->
        (forall j L', (i < j)%nat -> nth_error imgs j = Some L' ->
                      hitRect L' pos = false) ->
        activeImageId s' = Some (id L) /\
        (isLocked L = false ->
         canvasImages s' = removeAt i imgs ++ [L] /\
         isDragging s' = true /\
         isResizing s' = isResizing s /\
         dragStart s' = mkPos (px pos - x L) (py pos - y L)) /\
        (isLocked L = true ->
         canvasImages s' = imgs /\
         isDragging s' = isDragging s /\
         isResizing s' = isResizing s /\
         dragStart s' = dragStart s)) /\
    ((forall L, In L imgs -> hitRect L pos = false) ->
     activeImageId s' = None /\ canvasImages s' = imgs).
Proof.
  intros s pos Hh imgs s'.
  pose proof (startHandlePhase_clicked pos s) as Hc.
  pose proof (startHandlePhase_frame pos s) as Hf.
  subst s'. unfold handleInteractionStart.
  destruct (startHandlePhase pos s) as [s1 clicked].
  simpl in Hc, Hf. rewrite Hh in Hc. subst clicked.
  destruct Hf as (Hi & Ha & Hd & Hs & Hr). specialize (Hr Hh).
  rewrite Hi. fold imgs. split.
  - intros i L Hn HL Hab.
    rewrite (hitScan_topmost imgs pos i L Hn HL Hab).
    split; [reflexivity|]. split; intros Hl; rewrite Hl; simpl.
    + auto.
    + rewrite Hd, Hr, Hs. auto.
  - intros Hall. rewrite (hitScan_miss imgs pos Hall). simpl. auto.
Qed.

(** ** Locked layers *)

Lemma removeAt_split (l1 l2 : list CanvasImage) (a : CanvasImage) :
  removeAt (List.length l1) (l1 ++ a :: l2) = l1 ++ l2.
Proof.
  unfold removeAt. induction l1 as [|b l1 IH]; simpl.
  - reflexivity.
  - f_equal. exact IH.
Qed.

Lemma nth_error_decompose (imgs : list CanvasImage) i L :
  nth_error imgs i = Some L ->
  exists l1 l2, imgs = l1 ++ L :: l2 /\ List.length l1 = i.
Proof.
  revert i. induction imgs as [|a imgs IH]; intros [|i] H; try discriminate.
  - injection H as ->. exists [], imgs. auto.
  - destruct (IH i H) as (l1 & l2 & -> & Hl).
    exists (a :: l1), l2. simpl. auto.
Qed.




Lemma applyDrag_isLocked p d a : isLocked (applyDrag p d a) = isLocked a.
Proof. reflexivity. Qed.

Lemma findById_isActive s a :
  findById (canvasImages s) (activeImageId s) = Some a ->
  find (isActive s) (canvasImages s) = Some a.
Proof.
  unfold findById, isActive. destruct (activeImageId s); [auto|discriminate].
Qed.





(** ** Dragging *)

Lemma unique_id_elsewhere (l1 l2 : list CanvasImage) (L a : CanvasImage) :
  NoDup (map id (l1 ++ L :: l2)) ->
  In a (l1 ++ l2) -> hasId (id L) a = false.
Proof.
  rewrite map_app. simpl. intros Hnd Hin.
  apply NoDup_remove_2 in Hnd. rewrite <- map_app in Hnd.
  unfold hasId. apply Z.eqb_neq. intros Heq. apply Hnd.
  rewrite <- Heq. apply in_map. exact Hin.
Qed.

Lemma find_last p (l : list CanvasImage) L :
  (forall a, In a l -> p a = false) -> p L = true ->
  find p (l ++ [L]) = Some L.
Proof.
  induction l as [|b l IH]; simpl; intros Hall HL.
  - rewrite HL. reflexivity.
  - rewrite (Hall b (or_introl eq_refl)). apply IH; auto.
Qed.

Lemma updateFirst_last p f (l : list CanvasImage) L :
  (forall a, In a l -> p a = false) -> p L = true ->
  updateFirst p f (l ++ [L]) = l ++ [f L].
Proof.
  induction l as [|b l IH]; simpl; intros Hall HL.
  - rewrite HL. reflexivity.
  - rewrite (Hall b (or_introl eq_refl)). f_equal. apply IH; auto.
Qed.

(** From a state with no resize in progress, a pointer-down on an
    unlocked layer followed by a pointer-move places that layer, now last
    in the stack, at the pointer position minus the recorded offset. *)
Lemma drag_gesture s i L p q :
  isResizing s = false ->
  onActiveHandle p s = false ->
  idsUnique s ->
  nth_error (canvasImages s) i = Some L ->
  hitRect L p = true ->
  (forall j L', (i < j)%nat -> nth_error (canvasImages s) j = Some L' ->
                hitRect L' p = false) ->
  isLocked L = false ->
  canvasImages (run [pointerDown p; pointerMove q] s) =
  removeAt i (canvasImages s) ++
  [applyDrag q (mkPos (px p - x L) (py p - y L)) L].
Proof.
  intros Hr Hh Hu Hn HL Htop Hl.
  destruct (pointer_down_on_layers s p Hh) as [Hhit _].
  destruct (Hhit i L Hn HL Htop) as (Ha & Hunl & _).
  destruct (Hunl Hl) as (Hi & Hd & Hr' & Hs). clear Hhit Hunl.
  unfold run. simpl.
  set (s' := handleInteractionStart p s) in *.
  rewrite Hd. simpl.
  destruct (nth_error_decompose _ _ _ Hn) as (l1 & l2 & Himgs & Hlen).
  unfold idsUnique in Hu. rewrite Himgs in Hu, Hi. subst i.
  rewrite removeAt_split in Hi. rewrite Himgs, removeAt_split.
  assert (Hother : forall a, In a (l1 ++ l2) -> hasId (id L) a = false)
    by (intros a; apply unique_id_elsewhere; exact Hu).
  assert (Hself : hasId (id L) L = true) by (apply Z.eqb_refl).
  unfold handleInteractionMove.
  rewrite Ha, Hi. unfold findById.
  rewrite (find_last _ _ _ Hother Hself), Hl, Hr', Hr, Hd, Hs.
  simpl. unfold isActive. rewrite Ha.
  rewrite (updateFirst_last _ _ _ _ Hother Hself). reflexivity.
Qed.


Lemma updateAt_map_id (f : CanvasImage -> CanvasImage) imgs k :
  (forall a, id (f a) = id a) ->
  map id (updateAt k f imgs) = map id imgs.
Proof.
  intros Hf. revert k.
  induction imgs as [|a imgs IH]; intros [|k]; simpl; auto.
  - rewrite Hf. reflexivity.
  - rewrite IH. reflexivity.
Qed.

(** ** Resizing *)

Lemma cornerOf_getHandlePositions h image :
  In (h, cornerOf h image) (getHandlePositions image).
Proof. destruct h; simpl; auto. Qed.

Lemma aboveFloor_guard r :
  Qlt_bool 20 (newWidth r) && Qlt_bool 20 (newHeight r) = true <->
  aboveFloor r.
Proof.
  unfold aboveFloor. rewrite andb_true_iff, !Qlt_bool_iff. reflexivity.
Qed.

Lemma applyResize_rejected r a :
  ~ aboveFloor r -> applyResize r a = set_x (rX r) (set_y (rY r) a).
Proof.
  intros H. unfold applyResize.
  destruct (_ && _) eqn:E; [|reflexivity].
  apply aboveFloor_guard in E. contradiction.
Qed.

Lemma applyResize_accepted r a :
  aboveFloor r ->
  applyResize r a =
  set_height (newHeight r) (set_width (newWidth r)
    (set_x (rX r) (set_y (rY r) a))).
Proof.
  intros H. unfold applyResize.
  apply aboveFloor_guard in H. rewrite H. reflexivity.
Qed.

(** When the size guard accepts the recomputed size, the corner opposite
    the dragged handle stays where it was, for each of the four
    handles. *)
Lemma resize_accepted_pins_corner a h pos :
  let r := resizeStep a h pos in
  aboveFloor r ->
  samePos (pinnedCorner h (applyResize r a)) (pinnedCorner h a).
Proof.
  intros r Hacc. rewrite (applyResize_accepted r a Hacc).
  subst r. unfold samePos, pinnedCorner.
  destruct h; simpl; split; try reflexivity; ring.
Qed.

(** The south-east handle never writes [x] or [y]. *)
Lemma resize_se_pins_corner a pos :
  pinnedCorner se (applyResize (resizeStep a se pos) a) = pinnedCorner se a.
Proof.
  unfold applyResize. destruct (_ && _); reflexivity.
Qed.

Lemma updateFirst_map {B} (g : CanvasImage -> B) p f imgs a :
  find p imgs = Some a ->
  g (f a) = g a ->
  map g (updateFirst p f imgs) = map g imgs.
Proof.
  induction imgs as [|b imgs IH]; simpl; [discriminate|].
  destruct (p b) eqn:Ep.
  - intros [= ->] Hg. simpl. rewrite Hg. reflexivity.
  - intros Hf Hg. simpl. rewrite (IH Hf Hg). reflexivity.
Qed.

Lemma updateFirst_Forall (P : CanvasImage -> Prop) p f imgs a :
  find p imgs = Some a ->
  (P a -> P (f a)) ->
  Forall P imgs -> Forall P (updateFirst p f imgs).
Proof.
  induction imgs as [|b imgs IH]; simpl; [discriminate|].
  destruct (p b) eqn:Ep.
  - intros [= ->] Hf Hall. inversion Hall; subst. constructor; auto.
  - intros Hfind Hf Hall. inversion Hall; subst. constructor; auto.
Qed.

Lemma find_updateFirst p f imgs a :
  find p imgs = Some a ->
  p (f a) = true ->
  find p (updateFirst p f imgs) = Some (f a).
Proof.
  induction imgs as [|b imgs IH]; simpl; [discriminate|].
  destruct (p b) eqn:Ep.
  - intros [= ->] Hp. simpl. rewrite Hp. reflexivity.
  - intros Hf Hp. simpl. rewrite Ep. auto.
Qed.

Lemma applyResize_id r a : id (applyResize r a) = id a.
Proof. unfold applyResize. destruct (_ && _); reflexivity. Qed.

Lemma applyResize_positive r a :
  positiveSize a -> positiveSize (applyResize r a).
Proof.
  intros [Hw Hh]. unfold applyResize.
  destruct (_ && _) eqn:E.
  - apply aboveFloor_guard in E. destruct E as [E1 E2].
    split; simpl; lra.
  - split; assumption.
Qed.

(** The resize branch of [handleInteractionMove], spelled out. *)
Lemma handleInteractionMove_resize s pos a h :
  findById (canvasImages s) (activeImageId s) = Some a ->
  isLocked a = false ->
  isResizing s = true ->
  activeHandle s = Some h ->
  handleInteractionMove pos s =
  set_canvasImages
    (updateFirst (isActive s) (applyResize (resizeStep a h pos))
       (canvasImages s)) s.
Proof.
  intros Hf Hl Hr Hh. unfold handleInteractionMove.
  rewrite Hf, Hl, Hr, Hh. reflexivity.
Qed.

Lemma handleInteractionStart_Forall (P : CanvasImage -> Prop) pos s :
  Forall P (canvasImages s) ->
  Forall P (canvasImages (handleInteractionStart pos s)).
Proof.
  intros Hall.
  pose proof (startHandlePhase_frame pos s) as Hf.
  unfold handleInteractionStart.
  destruct (startHandlePhase pos s) as [s1 clicked]. simpl in Hf.
  destruct Hf as (Hi & _).
  destruct clicked; [rewrite Hi; exact Hall|].
  destruct (hitScan _ _ _) as [[i L]|] eqn:E;
    [|simpl; rewrite Hi; exact Hall].
  apply hitScan_sound in E. destruct E as (_ & Hn & _ & _).
  destruct (isLocked L); simpl; [rewrite Hi; exact Hall|].
  rewrite Hi in *.
  destruct (nth_error_decompose _ _ _ Hn) as (l1 & l2 & Himgs & <-).
  rewrite Himgs in *. rewrite removeAt_split.
  rewrite Forall_app in Hall. destruct Hall as [H1 H2].
  inversion H2; subst.
  rewrite !Forall_app. repeat split; auto.
Qed.

Lemma handleInteractionMove_positive pos s :
  Forall positiveSize (canvasImages s) ->
  Forall positiveSize (canvasImages (handleInteractionMove pos s)).
Proof.
  intros Hall. unfold handleInteractionMove.
  destruct (findById _ _) as [a|] eqn:Ef; [|exact Hall].
  apply findById_isActive in Ef.
  destruct (isLocked a); [exact Hall|].
  destruct (isResizing s); [destruct (activeHandle s) as [h|]|].
  - simpl. apply (updateFirst_Forall _ _ _ _ a); auto.
    apply applyResize_positive.
  - destruct (isDragging s); [|exact Hall].
    simpl. apply (updateFirst_Forall _ _ _ _ a); auto.
  - destruct (isDragging s); [|exact Hall].
    simpl. apply (updateFirst_Forall _ _ _ _ a); auto.
Qed.

Lemma run_positive evs s :
  Forall positiveSize (canvasImages s) ->
  Forall positiveSize (canvasImages (run evs s)).
Proof.
  unfold run. revert s. induction evs as [|e evs IH]; intros s Hall; simpl.
  - exact Hall.
  - apply IH. destruct e as [pos|pos|]; simpl.
    + apply handleInteractionStart_Forall. exact Hall.
    + destruct (isDragging s || isResizing s); [|exact Hall].
      apply handleInteractionMove_positive. exact Hall.
    + exact Hall.
Qed.

(** ** Normalisation *)

Lemma Qdiv_pos (a b : Q) : 0 < a -> 0 < b -> 0 < a / b.
Proof. intros Ha Hb. apply Qlt_shift_div_l; lra. Qed.

Lemma Qdiv_cancel (a b : Q) : 0 < b -> a / b * b == a.
Proof. intros Hb. field. lra. Qed.

Lemma Qlt_div_mult (a b c : Q) : 0 < c -> a / c < b -> a < b * c.
Proof.
  intros Hc H. rewrite <- (Qdiv_cancel a c Hc).
  apply Qmult_lt_compat_r; assumption.
Qed.

Lemma Qle_div_mult (a b c : Q) : 0 < c -> b <= a / c -> b * c <= a.
Proof.
  intros Hc H. rewrite <- (Qdiv_cancel a c Hc).
  apply Qmult_le_compat_r; lra.
Qed.

(** The two branches of the fit computation. *)
Lemma normalizePlacement_wide image W H :
  Qlt_bool (W / H) (naturalWidth image / naturalHeight image) = true ->
  normalizePlacement image W H =
  ((W - W) / 2,
   (H - W / (naturalWidth image / naturalHeight image)) / 2,
   W,
   W / (naturalWidth image / naturalHeight image)).
Proof. intros E. unfold normalizePlacement. rewrite E. reflexivity. Qed.

Lemma normalizePlacement_tall image W H :
  Qlt_bool (W / H) (naturalWidth image / naturalHeight image) = false ->
  normalizePlacement image W H =
  ((W - H * (naturalWidth image / naturalHeight image)) / 2,
   (H - H) / 2,
   H * (naturalWidth image / naturalHeight image),
   H).
Proof. intros E. unfold normalizePlacement. rewrite E. reflexivity. Qed.

(** What the fit computation guarantees for positive sizes: the drawn
    rectangle lies within the target, touches it in one dimension, keeps
    the aspect ratio of the source and is centred. *)
Lemma normalizePlacement_fits image W H :
  0 < naturalWidth image -> 0 < naturalHeight image -> 0 < W -> 0 < H ->
  exists x y dw dh,
    normalizePlacement image W H = (x, y, dw, dh) /\
    dw <= W /\ dh <= H /\
    (dw = W \/ dh = H) /\
    dw * naturalHeight image == dh * naturalWidth image /\
    x = (W - dw) / 2 /\ y = (H - dh) / 2.
Proof.
  intros Hnw Hnh HW HH.
  pose proof (Qdiv_pos _ _ Hnw Hnh) as Har.
  set (ar := naturalWidth image / naturalHeight image) in *.
  assert (Hcross : ar * naturalHeight image == naturalWidth image)
    by (apply Qdiv_cancel; exact Hnh).
  destruct (Qlt_bool (W / H) ar) eqn:E.
  - rewrite (normalizePlacement_wide image W H E). fold ar.
    do 4 eexists. split; [reflexivity|].
    apply Qlt_bool_iff in E. apply Qlt_div_mult in E; [|exact HH].
    repeat split; auto.
    + lra.
    + apply Qle_shift_div_r; [exact Har|]. rewrite Qmult_comm. lra.
    + rewrite <- Hcross. field. lra.
  - rewrite (normalizePlacement_tall image W H E). fold ar.
    do 4 eexists. split; [reflexivity|].
    apply Qlt_bool_false_iff in E. apply Qle_div_mult in E; [|exact HH].
    repeat split; auto.
    + rewrite Qmult_comm. exact E.
    + lra.
    + rewrite <- Hcross. ring.
Qed.

(** ** Flattening *)

Lemma paintLayers_spec imgs surface :
  paintLayers imgs surface = surface ++ map drawOf (filter isVisible imgs).
Proof.
  revert surface. induction imgs as [|a imgs IH]; intros surface; simpl.
  - rewrite app_nil_r. reflexivity.
  - rewrite IH. destruct (isVisible a); simpl.
    + rewrite <- app_assoc. reflexivity.
    + reflexivity.
Qed.

Lemma flattenCanvas_spec s :
  flattenCanvas true s =
  mkCanvas (canvasWidth s) (canvasHeight s)
           (map drawOf (filter isVisible (canvasImages s))).
Proof. unfold flattenCanvas. rewrite paintLayers_spec. reflexivity. Qed.

Lemma updateAt_visible_draws k imgs :
  map drawOf
    (filter isVisible
       (updateAt k (fun i => set_isLocked (negb (isLocked i)) i) imgs)) =
  map drawOf (filter isVisible imgs).
Proof.
  revert k. induction imgs as [|a imgs IH]; intros [|k]; simpl; auto.
  - destruct (isVisible a); reflexivity.
  - destruct (isVisible a); simpl; rewrite IH; reflexivity.
Qed.

Lemma visible_layer_filter (imgs : list CanvasImage) L :
  In L imgs -> isVisible L = true ->
  (List.length (filter isVisible imgs) =? 0)%nat = false.
Proof.
  intros Hin Hv.
  assert (H : In L (filter isVisible imgs)) by (apply filter_In; auto).
  destruct (filter isVisible imgs); [contradiction|reflexivity].
Qed.

(** ** Stack operations *)

Lemma In_insertAt k (v : CanvasImage) imgs a :
  In a (insertAt k v imgs) <-> a = v \/ In a imgs.
Proof.
  unfold insertAt. rewrite in_app_iff. simpl.
  assert (H : In a imgs <-> In a (firstn k imgs) \/ In a (skipn k imgs))
    by (rewrite <- in_app_iff, firstn_skipn; reflexivity).
  rewrite H. intuition congruence.
Qed.

Lemma deleteLayer_activeResolves k s :
  activeResolves s -> activeResolves (deleteLayer k s).
Proof.
  unfold activeResolves, deleteLayer.
  destruct (activeImageId s) as [a|] eqn:Ea; simpl.
  - intros (L & Hin & Hid).
    destruct (a =? k)%Z eqn:E; simpl; [exact I|].
    rewrite Ea. exists L. split; [|exact Hid].
    apply filter_In. split; [exact Hin|].
    unfold hasId. rewrite Hid, E. reflexivity.
  - rewrite Ea. auto.
Qed.

Lemma duplicateLayer_activeResolves now k s :
  activeResolves s -> activeResolves (duplicateLayer now k s).
Proof.
  unfold duplicateLayer. destruct (find _ _) as [a|]; [|auto].
  intros _. unfold activeResolves. simpl.
  eexists. split; [apply In_insertAt; left; reflexivity|reflexivity].
Qed.

Lemma imageLoaded_activeResolves now index fname image s :
  activeResolves (imageLoaded now index fname image s).
Proof.
  unfold imageLoaded. destruct (fitToCanvas _ _ _) as [w h].
  unfold activeResolves. simpl.
  eexists. split; [apply in_or_app; right; left; reflexivity|reflexivity].
Qed.

Lemma completeLoad_activeResolves files s c :
  activeResolves s -> activeResolves (completeLoad files s c).
Proof.
  intros H. unfold completeLoad.
  destruct (nth_error files (fst c)) as [f|]; [|exact H].
  destruct (decoded f); [|exact H].
  apply imageLoaded_activeResolves.
Qed.

Lemma addImagesToCanvas_activeResolves menu files completions s :
  activeResolves s ->
  activeResolves (addImagesToCanvas menu files completions s).
Proof.
  intros H. unfold addImagesToCanvas. destruct files as [|f files]; [exact H|].
  assert (Hgen : forall s1, activeResolves s1 ->
            activeResolves
              (fold_left (completeLoad (f :: files)) completions s1)).
  { induction completions as [|c cs IH]; intros s1 H1; simpl; [exact H1|].
    apply IH. apply completeLoad_activeResolves. exact H1. }
  apply Hgen. destruct (_ || _); exact H.
Qed.

(** Whatever the clock readings, the selection always names a layer of
    the stack after insertions, removals and duplications. *)
Lemma applyOps_activeResolves ops s :
  activeResolves s -> activeResolves (applyOps ops s).
Proof.
  unfold applyOps. revert s.
  induction ops as [|o ops IH]; intros s H; simpl; [exact H|].
  apply IH. destruct o; simpl.
  - apply addImagesToCanvas_activeResolves. exact H.
  - apply deleteLayer_activeResolves. exact H.
  - apply duplicateLayer_activeResolves. exact H.
Qed.

(** Removal keeps the ids distinct; an added or duplicated layer keeps
    them distinct when, and only when, the id it receives is not in
    use. *)
Lemma deleteLayer_idsUnique k s :
  idsUnique s -> idsUnique (deleteLayer k s).
Proof.
  unfold idsUnique, deleteLayer. intros H.
  assert (Hf : NoDup (map id (filter (fun i => negb (hasId k i))
                                     (canvasImages s)))).
  { induction (canvasImages s) as [|a imgs IH]; simpl; [constructor|].
    inversion H; subst.
    destruct (negb (hasId k a)); simpl; [|auto].
    constructor; [|auto].
    intros Hin. apply H2. apply in_map_iff in Hin.
    destruct Hin as (b & Hb & Hin). apply filter_In in Hin.
    apply in_map_iff. exists b. tauto. }
  destruct (activeImageId s) as [a|]; [destruct (a =? k)%Z|]; exact Hf.
Qed.

Lemma imageLoaded_idsUnique now index fname image s :
  idsUnique s ->
  (idsUnique (imageLoaded now index fname image s) <->
   ~ In (now + Z.of_nat index)%Z (map id (canvasImages s))).
Proof.
  unfold idsUnique, imageLoaded. destruct (fitToCanvas _ _ _) as [w h].
  simpl. rewrite map_app. simpl. intros Hnd. split.
  - intros H Hin. apply NoDup_remove_2 in H. rewrite app_nil_r in H.
    contradiction.
  - intros Hfresh. apply NoDup_app; [exact Hnd|repeat constructor; auto|].
    intros a Ha [<-|[]]. contradiction.
Qed.

(** ** Trimming *)

Lemma trimStart_nil s : trimStart s = [] <-> forallb isWhiteSpace s = true.
Proof.
  induction s as [|c s IH]; simpl; [tauto|].
  destruct (isWhiteSpace c); simpl; [exact IH|].
  split; discriminate.
Qed.

Lemma trimStart_head s c r :
  trimStart s = c :: r -> isWhiteSpace c = false.
Proof.
  induction s as [|d s IH]; simpl; [discriminate|].
  destruct (isWhiteSpace d) eqn:E; [exact IH|].
  intros [= -> _]. exact E.
Qed.

Lemma trimStart_split s :
  exists pre, s = pre ++ trimStart s /\ forallb isWhiteSpace pre = true.
Proof.
  induction s as [|c s (pre & Hs & Hp)]; simpl.
  - exists []. auto.
  - destruct (isWhiteSpace c) eqn:E.
    + exists (c :: pre). simpl. rewrite E, Hp, <- Hs. auto.
    + exists []. auto.
Qed.

Lemma trimStart_snoc l c :
  isWhiteSpace c = false -> trimStart (l ++ [c]) = trimStart l ++ [c].
Proof.
  intros Hc. induction l as [|d l IH]; simpl.
  - rewrite Hc. reflexivity.
  - destruct (isWhiteSpace d); [exact IH|reflexivity].
Qed.

Lemma forallb_rev {A} (f : A -> bool) l : forallb f (rev l) = forallb f l.
Proof.
  induction l as [|a l IH]; simpl; [reflexivity|].
  rewrite forallb_app, IH. simpl. rewrite andb_true_r. apply andb_comm.
Qed.

Lemma rev_nil_inv {A} (l : list A) : rev l = [] -> l = [].
Proof.
  intros H. rewrite <- (rev_involutive l), H. reflexivity.
Qed.

(** The trimmed string is empty exactly when the input consists of
    white space only. *)
Lemma trim_nil s : trim s = [] <-> forallb isWhiteSpace s = true.
Proof.
  unfold trim, trimEnd. split.
  - intros H. apply rev_nil_inv in H. apply trimStart_nil in H.
    rewrite forallb_rev in H.
    destruct (trimStart s) as [|c r] eqn:E.
    + apply trimStart_nil. exact E.
    + apply trimStart_head in E. simpl in H. rewrite E in H. discriminate.
  - intros H. apply trimStart_nil in H. rewrite H. reflexivity.
Qed.

(** The trimmed string is the input without a white-space prefix and a
    white-space suffix, and it neither starts nor ends with white
    space. *)
Lemma trim_decompose s :
  exists pre post,
    s = pre ++ trim s ++ post /\
    forallb isWhiteSpace pre = true /\ forallb isWhiteSpace post = true.
Proof.
  destruct (trimStart_split s) as (pre & Hs & Hpre).
  destruct (trimStart_split (rev (trimStart s))) as (post & Ht & Hpost).
  exists pre, (rev post). unfold trim, trimEnd.
  rewrite forallb_rev. repeat split; auto.
  rewrite <- rev_app_distr, <- Ht, rev_involutive. exact Hs.
Qed.

Lemma trim_no_leading s c r : trim s = c :: r -> isWhiteSpace c = false.
Proof.
  unfold trim, trimEnd.
  destruct (trimStart s) as [|d t] eqn:E; simpl; [discriminate|].
  pose proof (trimStart_head _ _ _ E) as Hd.
  rewrite (trimStart_snoc _ _ Hd), rev_app_distr. simpl.
  intros [= <- _]. exact Hd.
Qed.

Lemma trim_no_trailing s c r : trim s = r ++ [c] -> isWhiteSpace c = false.
Proof.
  unfold trim, trimEnd. intros H.
  apply (f_equal (@rev N)) in H.
  rewrite rev_involutive, rev_app_distr in H. simpl in H.
  exact (trimStart_head _ _ _ H).
Qed.

(** ** What pointer interaction leaves alone *)

Lemma handleInteractionStart_perm {B} (g : CanvasImage -> B) pos s :
  Permutation (map g (canvasImages (handleInteractionStart pos s)))
              (map g (canvasImages s)).
Proof.
  pose proof (startHandlePhase_frame pos s) as Hf.
  unfold handleInteractionStart.
  destruct (startHandlePhase pos s) as [s1 clicked]. simpl in Hf.
  destruct Hf as (Hi & _).
  destruct clicked; [rewrite Hi; reflexivity|].
  destruct (hitScan _ _ _) as [[i L]|] eqn:E;
    [|simpl; rewrite Hi; reflexivity].
  apply hitScan_sound in E. destruct E as (_ & Hn & _ & _).
  destruct (isLocked L); simpl; [rewrite Hi; reflexivity|].
  rewrite Hi in *.
  destruct (nth_error_decompose _ _ _ Hn) as (l1 & l2 & Himgs & <-).
  rewrite Himgs, removeAt_split, !map_app. simpl.
  rewrite <- app_assoc. apply Permutation_app_head.
  symmetry. apply Permutation_cons_append.
Qed.

Lemma handleInteractionMove_map {B} (g : CanvasImage -> B) pos s :
  (forall r a, g (applyResize r a) = g a) ->
  (forall p d a, g (applyDrag p d a) = g a) ->
  map g (canvasImages (handleInteractionMove pos s)) =
  map g (canvasImages s).
Proof.
  intros Hres Hdrag. unfold handleInteractionMove.
  destruct (findById _ _) as [a|] eqn:Ef; [|reflexivity].
  apply findById_isActive in Ef.
  destruct (isLocked a); [reflexivity|].
  destruct (isResizing s); [destruct (activeHandle s) as [h|]|].
  - simpl. apply (updateFirst_map g _ _ _ a); auto.
  - destruct (isDragging s); [|reflexivity].
    simpl. apply (updateFirst_map g _ _ _ a); auto.
  - destruct (isDragging s); [|reflexivity].
    simpl. apply (updateFirst_map g _ _ _ a); auto.
Qed.

Lemma applyResize_identity r a : identity (applyResize r a) = identity a.
Proof. unfold applyResize. destruct (_ && _); reflexivity. Qed.

Lemma step_perm {B} (g : CanvasImage -> B) s e :
  (forall r a, g (applyResize r a) = g a) ->
  (forall p d a, g (applyDrag p d a) = g a) ->
  Permutation (map g (canvasImages (step s e))) (map g (canvasImages s)).
Proof.
  intros Hres Hdrag. destruct e as [pos|pos|]; simpl.
  - apply handleInteractionStart_perm.
  - destruct (isDragging s || isResizing s); [|reflexivity].
    rewrite handleInteractionMove_map; auto.
  - reflexivity.
Qed.

Lemma touchStep_perm {B} (g : CanvasImage -> B) s e :
  (forall r a, g (applyResize r a) = g a) ->
  (forall p d a, g (applyDrag p d a) = g a) ->
  Permutation (map g (canvasImages (touchStep s e))) (map g (canvasImages s)).
Proof.
  intros Hres Hdrag. destruct e as [n rect cx cy|n rect cx cy|]; simpl.
  - destruct (1 <? n)%nat; [reflexivity|]. apply handleInteractionStart_perm.
  - destruct (1 <? n)%nat; [reflexivity|].
    destruct (isDragging s || isResizing s); [|reflexivity].
    rewrite handleInteractionMove_map; auto.
  - reflexivity.
Qed.

Lemma run_perm {B} (g : CanvasImage -> B) evs s :
  (forall r a, g (applyResize r a) = g a) ->
  (forall p d a, g (applyDrag p d a) = g a) ->
  Permutation (map g (canvasImages (run evs s))) (map g (canvasImages s)).
Proof.
  intros Hres Hdrag. unfold run. revert s.
  induction evs as [|e evs IH]; intros s; simpl; [reflexivity|].
  rewrite IH. apply step_perm; auto.
Qed.

Lemma touches_perm {B} (g : CanvasImage -> B) evs s :
  (forall r a, g (applyResize r a) = g a) ->
  (forall p d a, g (applyDrag p d a) = g a) ->
  Permutation (map g (canvasImages (fold_left touchStep evs s)))
              (map g (canvasImages s)).
Proof.
  intros Hres Hdrag. revert s.
  induction evs as [|e evs IH]; intros s; simpl; [reflexivity|].
  rewrite IH. apply touchStep_perm; auto.
Qed.

(** ** The selection resolves *)

Lemma activeResolves_ids s :
  activeResolves s <->
  match activeImageId s with
  | Some k => In k (map id (canvasImages s))
  | None => True
  end.
Proof.
  unfold activeResolves. destruct (activeImageId s) as [k|]; [|tauto].
  rewrite in_map_iff. split; intros (L & H1 & H2); exists L; tauto.
Qed.

Lemma activeResolves_transfer s s' :
  activeImageId s' = activeImageId s ->
  (forall k, In k (map id (canvasImages s)) ->
             In k (map id (canvasImages s'))) ->
  activeResolves s -> activeResolves s'.
Proof.
  intros Ha Hin. rewrite !activeResolves_ids, Ha.
  destruct (activeImageId s); auto.
Qed.

Lemma startHandlePhase_activeHandle pos s :
  canvasImages (fst (startHandlePhase pos s)) = canvasImages s /\
  activeImageId (fst (startHandlePhase pos s)) = activeImageId s.
Proof.
  destruct (startHandlePhase_frame pos s) as (H1 & H2 & _). auto.
Qed.

Lemma handleInteractionStart_activeResolves pos s :
  activeResolves s -> activeResolves (handleInteractionStart pos s).
Proof.
  intros H.
  destruct (startHandlePhase_activeHandle pos s) as [Hi Ha].
  unfold handleInteractionStart.
  destruct (startHandlePhase pos s) as [s1 clicked]. simpl in Hi, Ha.
  destruct clicked.
  - apply (activeResolves_transfer s); auto. rewrite Hi. auto.
  - destruct (hitScan _ _ _) as [[i L]|] eqn:E; [|exact I].
    apply hitScan_sound in E. destruct E as (_ & Hn & _ & _).
    unfold activeResolves.
    destruct (isLocked L); simpl.
    + exists L. split; [|reflexivity]. apply (nth_error_In _ _ Hn).
    + exists L. split; [|reflexivity]. apply in_or_app. right. left.
      reflexivity.
Qed.

Lemma handleInteractionMove_activeResolves pos s :
  activeResolves s -> activeResolves (handleInteractionMove pos s).
Proof.
  apply activeResolves_transfer.
  - unfold handleInteractionMove.
    destruct (findById _ _) as [a|]; [|reflexivity].
    destruct (isLocked a); [reflexivity|].
    destruct (isResizing s); [destruct (activeHandle s)|];
      try reflexivity; destruct (isDragging s); reflexivity.
  - intros k. rewrite handleInteractionMove_map; auto.
    intros r a. apply applyResize_id.
Qed.

Lemma step_activeResolves s e :
  activeResolves s -> activeResolves (step s e).
Proof.
  intros H. destruct e as [pos|pos|]; simpl.
  - apply handleInteractionStart_activeResolves. exact H.
  - destruct (isDragging s || isResizing s); [|exact H].
    apply handleInteractionMove_activeResolves. exact H.
  - exact H.
Qed.

Lemma touchStep_activeResolves s e :
  activeResolves s -> activeResolves (touchStep s e).
Proof.
  intros H. destruct e as [n rect cx cy|n rect cx cy|]; simpl.
  - destruct (1 <? n)%nat; [exact H|].
    apply handleInteractionStart_activeResolves. exact H.
  - destruct (1 <? n)%nat; [exact H|].
    destruct (isDragging s || isResizing s); [|exact H].
    apply handleInteractionMove_activeResolves. exact H.
  - exact H.
Qed.

Lemma updateAt_activeResolves k f s :
  (forall a, id (f a) = id a) ->
  activeResolves s ->
  activeResolves (set_canvasImages (updateAt k f (canvasImages s)) s).
Proof.
  intros Hf. apply activeResolves_transfer; [reflexivity|].
  intros j. simpl. rewrite updateAt_map_id; auto.
Qed.

Lemma stopEditing_id v a : id (stopEditing v a) = id a.
Proof. unfold stopEditing. destruct (trim v); reflexivity. Qed.

Lemma dropOnLayerList_ids d t s k :
  In k (map id (canvasImages s)) ->
  In k (map id (canvasImages (dropOnLayerList d t s))).
Proof.
  unfold dropOnLayerList.
  destruct t as [t|]; [|auto]. destruct d as [d|]; [|auto].
  destruct (d =? t)%Z; [auto|].
  destruct (find (hasId d) (canvasImages s)) as [D|] eqn:Ef; [|auto].
  simpl. rewrite !in_map_iff. intros (L & Hid & Hin).
  apply find_some in Ef. destruct Ef as [HD Hd].
  destruct (hasId d L) eqn:EL.
  - exists D. split.
    + unfold hasId in *. apply Z.eqb_eq in Hd, EL. congruence.
    + apply In_insertAt. left. reflexivity.
  - exists L. split; [exact Hid|].
    apply In_insertAt. right. apply filter_In. rewrite EL. auto.
Qed.

Lemma dropOnLayerList_active d t s :
  activeImageId (dropOnLayerList d t s) = activeImageId s.
Proof.
  unfold dropOnLayerList.
  destruct t as [t|]; [|auto]. destruct d as [d|]; [|auto].
  destruct (d =? t)%Z; [auto|].
  destruct (find (hasId d) (canvasImages s)); reflexivity.
Qed.

Lemma perform_activeResolves s a :
  activeResolves s -> activeResolves (perform s a).
Proof.
  intros H. destruct a; simpl.
  - apply step_activeResolves. exact H.
  - apply touchStep_activeResolves. exact H.
  - apply (applyOps_activeResolves [o]). exact H.
  - unfold duplicateActiveLayer. destruct (activeIdTruthy s); [|exact H].
    apply duplicateLayer_activeResolves. exact H.
  - unfold deleteActiveLayer. destruct (activeIdTruthy s); [|exact H].
    apply deleteLayer_activeResolves. exact H.
  - apply (activeResolves_transfer s); auto.
    + apply dropOnLayerList_active.
    + intros j. apply dropOnLayerList_ids.
  - unfold selectLayer.
    destruct (nth_error (canvasImages s) k) as [L|] eqn:E; [|exact H].
    unfold activeResolves. simpl. exists L.
    split; [apply (nth_error_In _ _ E)|reflexivity].
  - apply updateAt_activeResolves; auto.
  - apply updateAt_activeResolves; auto.
  - apply updateAt_activeResolves; auto. intros b. apply stopEditing_id.
  - unfold addGeneratedImage. destruct srcUsable; [|exact H].
    destruct (fitToCanvas _ _ _) as [w h].
    unfold activeResolves. simpl. eexists.
    split; [apply in_or_app; right; left; reflexivity|reflexivity].
  - exact I.
Qed.

(** ** A drag in progress *)

Lemma handleInteractionMove_drag q st k rest C :
  activeImageId st = Some k ->
  canvasImages st = rest ++ [C] ->
  (forall a, In a rest -> hasId k a = false) ->
  hasId k C = true ->
  isLocked C = false ->
  isDragging st = true ->
  isResizing st = false ->
  handleInteractionMove q st =
  set_canvasImages (rest ++ [applyDrag q (dragStart st) C]) st.
Proof.
  intros Ha Hi Hother Hself Hl Hd Hr.
  unfold handleInteractionMove, findById, isActive.
  rewrite Ha, Hi, (find_last _ _ _ Hother Hself), Hl, Hr, Hd.
  rewrite (updateFirst_last _ _ _ _ Hother Hself). reflexivity.
Qed.

Lemma dragging_move k rest d L st q :
  (forall a, In a rest -> hasId k a = false) ->
  dragging k rest d L st ->
  dragging k rest d L (step st (pointerMove q)) /\
  canvasImages (step st (pointerMove q)) = rest ++ [applyDrag q d L].
Proof.
  intros Hother (Ha & Hd & Hr & Hs & C & Hi & Hself & Hl & Heq).
  simpl. rewrite Hd. simpl.
  rewrite (handleInteractionMove_drag q st k rest C Ha Hi Hother Hself Hl Hd Hr).
  rewrite Hs, Heq. split; [|reflexivity].
  repeat split; auto.
  exists (applyDrag q d L). repeat split; auto.
  - rewrite <- Heq. exact Hself.
  - rewrite <- Heq. exact Hl.
Qed.

Lemma dragging_moves k rest d L qs st :
  (forall a, In a rest -> hasId k a = false) ->
  dragging k rest d L st ->
  dragging k rest d L (run (map pointerMove qs) st).
Proof.
  intros Hother. unfold run. revert st.
  induction qs as [|q qs IH]; intros st H; simpl; [exact H|].
  apply IH. exact (proj1 (dragging_move k rest d L st q Hother H)).
Qed.

Lemma run_app evs1 evs2 s : run (evs1 ++ evs2) s = run evs2 (run evs1 s).
Proof. unfold run. apply fold_left_app. Qed.

(** A pointer-down on an unlocked layer, with no resize in progress,
    starts a drag of that layer. *)
Lemma pointer_down_starts_drag s i L p :
  isResizing s = false ->
  onActiveHandle p s = false ->
  idsUnique s ->
  nth_error (canvasImages s) i = Some L ->
  hitRect L p = true ->
  (forall j L', (i < j)%nat -> nth_error (canvasImages s) j = Some L' ->
                hitRect L' p = false) ->
  isLocked L = false ->
  (forall a, In a (removeAt i (canvasImages s)) -> hasId (id L) a = false) /\
  dragging (id L) (removeAt i (canvasImages s))
           (mkPos (px p - x L) (py p - y L)) L
           (handleInteractionStart p s).
Proof.
  intros Hr Hh Hu Hn HL Htop Hl.
  destruct (pointer_down_on_layers s p Hh) as [Hhit _].
  destruct (Hhit i L Hn HL Htop) as (Ha & Hunl & _).
  destruct (Hunl Hl) as (Hi & Hd & Hr' & Hs). clear Hhit Hunl.
  destruct (nth_error_decompose _ _ _ Hn) as (l1 & l2 & Himgs & Hlen).
  assert (Hother : forall a, In a (removeAt i (canvasImages s)) ->
                             hasId (id L) a = false).
  { unfold idsUnique in Hu. rewrite Himgs in Hu |- *. subst i.
    rewrite removeAt_split. intros a. apply unique_id_elsewhere. exact Hu. }
  split; [exact Hother|].
  repeat split; auto; try congruence.
  exists L. repeat split; auto. apply Z.eqb_refl.
Qed.

(** ** Handles *)

Lemma inHitbox_iff xx yy c :
  inHitbox (HANDLE_SIZE * (3 # 2) / 2) xx yy c = true <->
  nearHandle c (mkPos xx yy).
Proof.
  unfold inHitbox, nearHandle, HANDLE_SIZE. simpl.
  rewrite !andb_true_iff, !Qle_bool_iff.
  assert (H12 : 16 * (3 # 2) / 2 == 12) by reflexivity.
  rewrite !H12. tauto.
Qed.

Lemma inHitbox_false_iff xx yy c :
  inHitbox (HANDLE_SIZE * (3 # 2) / 2) xx yy c = false <->
  ~ nearHandle c (mkPos xx yy).
Proof.
  rewrite <- inHitbox_iff. destruct (inHitbox _ _ _ _); intuition congruence.
Qed.

Lemma getHandleAtPos_sound image xx yy h :
  getHandleAtPos image xx yy = Some h ->
  nearHandle (cornerOf h image) (mkPos xx yy).
Proof.
  unfold getHandleAtPos, getHandlePositions. simpl.
  repeat (match goal with
          | |- context [inHitbox ?a ?b ?c ?d] =>
              destruct (inHitbox a b c d) eqn:?
          end; simpl);
    intros [= <-] || discriminate; apply inHitbox_iff; assumption.
Qed.

Lemma getHandleAtPos_none image xx yy :
  getHandleAtPos image xx yy = None <->
  forall h, ~ nearHandle (cornerOf h image) (mkPos xx yy).
Proof.
  unfold getHandleAtPos, getHandlePositions. simpl. split.
  - repeat (match goal with
            | |- context [inHitbox ?a ?b ?c ?d] =>
                destruct (inHitbox a b c d) eqn:?
            end; simpl); try discriminate.
    intros _ h. destruct h; apply inHitbox_false_iff; assumption.
  - intros H.
    pose proof (proj2 (inHitbox_false_iff xx yy _) (H nw)) as H1.
    pose proof (proj2 (inHitbox_false_iff xx yy _) (H ne)) as H2.
    pose proof (proj2 (inHitbox_false_iff xx yy _) (H sw)) as H3.
    pose proof (proj2 (inHitbox_false_iff xx yy _) (H se)) as H4.
    simpl in H1, H2, H3, H4. rewrite H1, H2, H3, H4. reflexivity.
Qed.

Lemma getHandleAtPos_some image xx yy :
  (exists h, getHandleAtPos image xx yy = Some h) <->
  (exists h, nearHandle (cornerOf h image) (mkPos xx yy)).
Proof.
  split.
  - intros [h H]. exists h. apply getHandleAtPos_sound. exact H.
  - intros [h H]. destruct (getHandleAtPos image xx yy) as [h'|] eqn:E.
    + exists h'. reflexivity.
    + exfalso. exact (proj1 (getHandleAtPos_none image xx yy) E h H).
Qed.

(** Hit boxes of different corners are disjoint when the layer is more
    than 24 wide and more than 24 high. *)
Lemma nearHandle_unique image pos h h' :
  24 < width image -> 24 < height image ->
  nearHandle (cornerOf h image) pos ->
  nearHandle (cornerOf h' image) pos ->
  h = h'.
Proof.
  unfold nearHandle. intros Hw Hh H H'.
  destruct h, h'; simpl in *; try reflexivity; exfalso; lra.
Qed.

Lemma getHandleAtPos_exact image xx yy h :
  24 < width image -> 24 < height image ->
  nearHandle (cornerOf h image) (mkPos xx yy) ->
  getHandleAtPos image xx yy = Some h.
Proof.
  intros Hw Hh H.
  destruct (proj2 (getHandleAtPos_some image xx yy) (ex_intro _ h H))
    as [h' E].
  rewrite E. f_equal. symmetry.
  apply (nearHandle_unique image (mkPos xx yy) h h' Hw Hh H).
  apply getHandleAtPos_sound. exact E.
Qed.



(** ** The cursor *)

Lemma handleCursor_default pos s :
  handleCursor pos s = cursorDefault -> onActiveHandle pos s = false.
Proof.
  unfold handleCursor, onActiveHandle.
  destruct (findById _ _) as [a|]; [|reflexivity].
  destruct (isVisible a); [|reflexivity].
  destruct (getHandleAtPos _ _ _) as [[]|]; try discriminate.
  intros _. apply andb_false_r.
Qed.

Lemma handleCursor_resize pos s c :
  activeIsLocked s = false ->
  handleCursor pos s = c -> c <> cursorDefault ->
  exists h, c = diagonalCursor h /\
            startHandlePhase pos s =
            (set_isResizing true (set_activeHandle (Some h) s), true).
Proof.
  unfold activeIsLocked, handleCursor, startHandlePhase.
  destruct (findById _ _) as [a|]; [|congruence].
  intros Hl. rewrite Hl.
  destruct (isVisible a); [|congruence]. simpl.
  destruct (getHandleAtPos _ _ _) as [h|]; [|congruence].
  intros <- _. exists h. split; [destruct h; reflexivity|reflexivity].
Qed.

Lemma hitScan_full imgs pos i L :
  hitScan imgs pos (List.length imgs) = Some (i, L) ->
  nth_error imgs i = Some L /\ hitRect L pos = true /\
  forall j L', (i < j)%nat -> nth_error imgs j = Some L' ->
               hitRect L' pos = false.
Proof.
  intros E. destruct (hitScan_sound _ _ _ _ _ E) as (_ & Hn & Hh & Hab).
  repeat split; auto. intros j L' Hj HL'. apply (Hab j L'); auto.
  split; [exact Hj|]. apply nth_error_Some. congruence.
Qed.

Lemma hitScan_full_none imgs pos :
  hitScan imgs pos (List.length imgs) = None ->
  forall L, In L imgs -> hitRect L pos = false.
Proof.
  intros E L Hin. apply In_nth_error in Hin. destruct Hin as [j Hj].
  apply (hitScan_none _ _ _ E j L); auto.
  apply nth_error_Some. congruence.
Qed.

(** ** Coordinate mapping *)

Lemma scale_within (u w c : Q) :
  0 < w -> 0 <= c -> 0 <= u -> u <= w ->
  0 <= u * (c / w) /\ u * (c / w) <= c.
Proof.
  intros Hw Hc Hu Huw.
  assert (Hq : 0 <= c / w) by (apply Qle_shift_div_l; lra).
  split.
  - apply Qmult_le_0_compat; assumption.
  - assert (Hcan : w * (c / w) == c) by (field; lra).
    rewrite <- Hcan at 2. apply Qmult_le_compat_r; assumption.
Qed.

(** ** Aspect-locked resizing *)

Lemma includes_east_or_west h :
  includes h "e"%char = true \/ includes h "w"%char = true.
Proof. destruct h; simpl; auto. Qed.

Lemma resizeStep_aspect a h pos :
  0 < naturalWidth (img a) -> 0 < naturalHeight (img a) ->
  let r := resizeStep a h pos in
  newWidth r * naturalHeight (img a) == newHeight r * naturalWidth (img a).
Proof.
  intros Hnw Hnh. destruct h; simpl; field; lra.
Qed.

Lemma resizeStep_tracks_pointer a h pos :
  let r := resizeStep a h pos in
  px (cornerOf h (applyResize r a)) == px pos \/ ~ aboveFloor r.
Proof.
  intros r. destruct (Qlt_bool 20 (newWidth r) && Qlt_bool 20 (newHeight r))
    eqn:E.
  - left. apply aboveFloor_guard in E.
    rewrite (applyResize_accepted r a E). subst r.
    destruct h; simpl; ring.
  - right. intros H. apply aboveFloor_guard in H. congruence.
Qed.

(** ** Fitting a new layer *)

Lemma cross_lt (a b c d : Q) :
  0 < b -> 0 < d -> a / b < c / d -> a * d < c * b.
Proof.
  intros Hb Hd H.
  assert (E1 : a * d == (a / b) * (b * d)) by (field; lra).
  assert (E2 : c * b == (c / d) * (b * d)) by (field; lra).
  rewrite E1, E2. apply Qmult_lt_compat_r; [|exact H].
  apply Qmult_lt_0_compat; assumption.
Qed.

Lemma cross_le (a b c d : Q) :
  0 < b -> 0 < d -> a / b <= c / d -> a * d <= c * b.
Proof.
  intros Hb Hd H.
  assert (E1 : a * d == (a / b) * (b * d)) by (field; lra).
  assert (E2 : c * b == (c / d) * (b * d)) by (field; lra).
  rewrite E1, E2. apply Qmult_le_compat_r; [exact H|].
  apply Qlt_le_weak. apply Qmult_lt_0_compat; assumption.
Qed.

Lemma fitToCanvas_fits (image : HTMLImageElement) (mW mH : Q) :
  0 < naturalWidth image -> 0 < naturalHeight image -> 0 < mW -> 0 < mH ->
  let wh := fitToCanvas image mW mH in
  0 < fst wh /\ 0 < snd wh /\ fst wh <= mW /\ snd wh <= mH /\
  fst wh <= naturalWidth image /\ snd wh <= naturalHeight image /\
  fst wh * naturalHeight image == snd wh * naturalWidth image.
Proof.
  intros Hnw Hnh HmW HmH. unfold fitToCanvas.
  set (nw := naturalWidth image) in *. set (nh := naturalHeight image) in *.
  destruct (Qlt_bool mW nw || Qlt_bool mH nh) eqn:Ebig.
  - apply orb_true_iff in Ebig. rewrite !Qlt_bool_iff in Ebig.
    destruct (Qlt_bool (nw / nh) (mW / mH)) eqn:Ear; simpl.
    + apply Qlt_bool_iff in Ear. apply cross_lt in Ear; try assumption.
      assert (Hh : mH <= nh) by nra.
      assert (Ew : mH * (nw / nh) * nh == mH * nw) by (field; lra).
      assert (Hpos : 0 < mH * (nw / nh)).
      { apply Qmult_lt_0_compat; [assumption|]. apply Qlt_shift_div_l; lra. }
      repeat split; try lra; try nra.
    + apply Qlt_bool_false_iff in Ear. apply cross_le in Ear; try assumption.
      assert (Hw : mW <= nw) by nra.
      assert (Eh : mW / (nw / nh) * nw == mW * nh) by (field; lra).
      assert (Hpos : 0 < mW / (nw / nh)).
      { apply Qlt_shift_div_l; [apply Qlt_shift_div_l; lra|lra]. }
      repeat split; try lra; try nra.
  - apply orb_false_iff in Ebig. rewrite !Qlt_bool_false_iff in Ebig.
    simpl. repeat split; try lra.
Qed.

Lemma fitToCanvas_small (image : HTMLImageElement) (mW mH : Q) :
  naturalWidth image <= mW -> naturalHeight image <= mH ->
  fitToCanvas image mW mH = (naturalWidth image, naturalHeight image).
Proof.
  intros Hw Hh. unfold fitToCanvas.
  apply Qlt_bool_false_iff in Hw, Hh. rewrite Hw, Hh. reflexivity.
Qed.

(** ** Duplicating, deleting and reordering *)

Lemma find_split (p : CanvasImage -> bool) imgs a :
  find p imgs = Some a ->
  exists l1 l2, imgs = l1 ++ a :: l2 /\
                (forall b, In b l1 -> p b = false) /\ p a = true.
Proof.
  induction imgs as [|b imgs IH]; simpl; [discriminate|].
  destruct (p b) eqn:E.
  - intros [= ->]. exists [], imgs. repeat split; auto. intros c [].
  - intros H. destruct (IH H) as (l1 & l2 & -> & Hl1 & Ha).
    exists (b :: l1), l2. repeat split; auto.
    intros c [<-|Hc]; auto.
Qed.

Lemma findIndexFrom_split (p : CanvasImage -> bool) l1 a l2 k :
  (forall b, In b l1 -> p b = false) -> p a = true ->
  findIndexFrom p (l1 ++ a :: l2) k = (k + Z.of_nat (List.length l1))%Z.
Proof.
  revert k. induction l1 as [|b l1 IH]; intros k Hl1 Ha; simpl.
  - rewrite Ha. lia.
  - rewrite (Hl1 b (or_introl eq_refl)).
    rewrite IH; auto; [lia|]. intros c Hc. apply Hl1. right. exact Hc.
Qed.

Lemma findIndexFrom_absent (p : CanvasImage -> bool) l k :
  (forall b, In b l -> p b = false) -> findIndexFrom p l k = (-1)%Z.
Proof.
  revert k. induction l as [|b l IH]; intros k Hl; simpl; [reflexivity|].
  rewrite (Hl b (or_introl eq_refl)). apply IH.
  intros c Hc. apply Hl. right. exact Hc.
Qed.

Lemma insertAt_after (l1 l2 : list CanvasImage) a v :
  insertAt (S (List.length l1)) v (l1 ++ a :: l2) = l1 ++ a :: v :: l2.
Proof.
  unfold insertAt. induction l1 as [|b l1 IH]; simpl.
  - reflexivity.
  - f_equal. exact IH.
Qed.

Lemma insertAt_perm k (v : CanvasImage) l :
  Permutation (insertAt k v l) (v :: l).
Proof.
  unfold insertAt. rewrite <- (firstn_skipn k l) at 3.
  symmetry. apply Permutation_middle.
Qed.

Lemma filter_all {A} (f : A -> bool) l :
  (forall a, In a l -> f a = true) -> filter f l = l.
Proof.
  induction l as [|b l IH]; intros H; simpl; [reflexivity|].
  rewrite (H b (or_introl eq_refl)). f_equal. apply IH.
  intros a Ha. apply H. right. exact Ha.
Qed.

Lemma filter_out_unique (l1 l2 : list CanvasImage) D :
  NoDup (map id (l1 ++ D :: l2)) ->
  filter (fun i => negb (hasId (id D) i)) (l1 ++ D :: l2) = l1 ++ l2.
Proof.
  intros Hnd.
  assert (Hother : forall a, In a (l1 ++ l2) -> hasId (id D) a = false)
    by (intros a; apply unique_id_elsewhere; exact Hnd).
  rewrite filter_app. simpl. unfold hasId at 2. rewrite Z.eqb_refl. simpl.
  rewrite <- filter_app. apply filter_all.
  intros a Ha. rewrite (Hother a Ha). reflexivity.
Qed.

Lemma filter_absent_id k (imgs : list CanvasImage) :
  ~ In k (map id imgs) ->
  filter (fun i => negb (hasId k i)) imgs = imgs.
Proof.
  intros H. apply filter_all. intros a Ha.
  apply negb_true_iff. unfold hasId. apply Z.eqb_neq.
  intros E. apply H. rewrite <- E. apply in_map. exact Ha.
Qed.

Lemma duplicateLayer_places now k s source :
  find (hasId k) (canvasImages s) = Some source ->
  exists l1 l2,
    canvasImages s = l1 ++ source :: l2 /\
    (forall b, In b l1 -> id b <> k) /\
    duplicateLayer now k s =
    set_activeImageId (Some now)
      (set_canvasImages (l1 ++ source :: copyOf now source :: l2) s).
Proof.
  intros Hf. destruct (find_split _ _ _ Hf) as (l1 & l2 & Hi & Hl1 & Hs).
  exists l1, l2. split; [exact Hi|]. split.
  - intros b Hb E. specialize (Hl1 b Hb). unfold hasId in Hl1.
    apply Z.eqb_neq in Hl1. contradiction.
  - unfold duplicateLayer. rewrite Hf. unfold findIndex.
    rewrite Hi, (findIndexFrom_split _ _ _ _ _ Hl1 Hs).
    replace (Z.to_nat (0 + Z.of_nat (List.length l1) + 1))
      with (S (List.length l1)) by lia.
    rewrite insertAt_after. reflexivity.
Qed.

Lemma completions_append files cs s :
  exists news,
    canvasImages (fold_left (completeLoad files) cs s) =
    canvasImages s ++ news /\
    map id news =
    map (fun c => (snd c + Z.of_nat (fst c))%Z) (filter (decodes files) cs) /\
    Forall newLayer news /\
    canvasWidth (fold_left (completeLoad files) cs s) = canvasWidth s /\
    canvasHeight (fold_left (completeLoad files) cs s) = canvasHeight s.
Proof.
  revert s. induction cs as [|c cs IH]; intros s; simpl.
  - exists []. rewrite app_nil_r. repeat split; auto.
  - destruct (IH (completeLoad files s c)) as (news & Hi & Hid & Hnew & Hw & Hh).
    unfold completeLoad, decodes in *.
    destruct (nth_error files (fst c)) as [f|];
      [destruct (decoded f) as [image|]|];
      try (exists news; repeat split; assumption).
    unfold imageLoaded in *.
    destruct (fitToCanvas image (canvasWidth s) (canvasHeight s)) as [w h].
    simpl in *. eexists (_ :: news). rewrite Hi, <- app_assoc. simpl.
    repeat split; auto.
    + simpl. rewrite Hid. reflexivity.
    + constructor; [split; reflexivity|exact Hnew].
Qed.

(** ** Responses *)

Lemma scanPart_consistent st part :
  scanConsistent st -> scanConsistent (scanPart st part).
Proof.
  intros (Ht & Hi & Hs & Hn). unfold scanPart, scanConsistent.
  destruct (inlineData part) as [[d m]|]; simpl.
  - repeat split; auto; discriminate.
  - destruct (partText part) as [[|c t]|]; simpl; auto.
Qed.

Lemma scan_consistent parts st :
  scanConsistent st -> scanConsistent (fold_left scanPart parts st).
Proof.
  revert st. induction parts as [|p parts IH]; intros st H; simpl; auto.
  apply IH. apply scanPart_consistent. exact H.
Qed.

Lemma scan_imageFound parts st :
  imageFound (fold_left scanPart parts st) =
  imageFound st || existsb hasInline parts.
Proof.
  revert st. induction parts as [|p parts IH]; intros st; simpl.
  - rewrite orb_false_r. reflexivity.
  - rewrite IH. unfold scanPart, hasInline.
    destruct (inlineData p) as [[d m]|]; simpl.
    + rewrite orb_true_r. reflexivity.
    + destruct (partText p) as [[|c t]|]; reflexivity.
Qed.

Lemma scan_no_inline_src parts st :
  (forall p, In p parts -> inlineData p = None) ->
  scanImageSrc (fold_left scanPart parts st) = scanImageSrc st.
Proof.
  revert st. induction parts as [|p parts IH]; intros st H; simpl; auto.
  rewrite IH by (intros q Hq; apply H; right; exact Hq).
  unfold scanPart. rewrite (H p (or_introl eq_refl)).
  destruct (partText p) as [[|c t]|]; reflexivity.
Qed.

Lemma scan_last_inline pre part post d m st :
  inlineData part = Some (d, m) ->
  (forall p, In p post -> inlineData p = None) ->
  scanImageSrc (fold_left scanPart (pre ++ part :: post) st) = dataUrl m d.
Proof.
  intros Hp Hpost. rewrite fold_left_app. simpl.
  rewrite scan_no_inline_src by exact Hpost.
  unfold scanPart. rewrite Hp. reflexivity.
Qed.

Lemma blank_trim t : blank t = false <-> trim t <> [].
Proof.
  unfold blank. destruct (forallb isWhiteSpace t) eqn:E.
  - apply trim_nil in E. split; [discriminate|congruence].
  - split; [|reflexivity]. intros _ H. apply trim_nil in H. congruence.
Qed.

Lemma truthy_trim t : truthy (trim t) = negb (blank t).
Proof.
  destruct (blank t) eqn:E.
  - unfold blank in E. apply trim_nil in E. rewrite E. reflexivity.
  - apply blank_trim in E. destruct (trim t); [congruence|reflexivity].
Qed.

(** ** Prompts *)

Lemma joinWith_two_blank a b rest :
  blank (joinWith (lit ", ") (a :: b :: rest)) = false.
Proof.
  unfold blank.
  change (joinWith (lit ", ") (a :: b :: rest))
    with (a ++ lit ", " ++ joinWith (lit ", ") (b :: rest)).
  rewrite !forallb_app. simpl. apply andb_false_r.
Qed.

Lemma prompt_blank fields :
  blank (joinWith (lit ", ") (filter truthy fields)) = true <->
  filter truthy fields = [] \/
  exists a, filter truthy fields = [a] /\ blank a = true.
Proof.
  destruct (filter truthy fields) as [|a [|b rest]].
  - simpl. split; auto.
  - simpl. split.
    + intros H. right. exists a. auto.
    + intros [H|(c & [= <-] & H)]; [discriminate|exact H].
  - rewrite joinWith_two_blank. split; [discriminate|].
    intros [H|(c & H & _)]; discriminate.
Qed.

(** ** Normalised reference images *)

Lemma normalizeAll_parts hasContext files w h parts :
  normalizeAll hasContext files w h = Some parts ->
  List.length parts = List.length files /\
  Forall (imagePartOfSize w h) parts.
Proof.
  revert parts. induction files as [|f files IH]; intros parts; simpl.
  - intros [= <-]. split; [reflexivity|constructor].
  - destruct (normalizeImageToBase64 hasContext f w h) as [[c m]|] eqn:En;
      [|discriminate].
    destruct (normalizeAll hasContext files w h) as [ps|]; [|discriminate].
    intros [= <-]. destruct (IH ps eq_refl) as [Hl Hf].
    split; [simpl; rewrite Hl; reflexivity|].
    constructor; [|exact Hf].
    unfold normalizeImageToBase64 in En.
    destruct (decoded f) as [image|]; [|discriminate].
    destruct hasContext; [|discriminate].
    destruct (normalizePlacement image w h) as [[[ox oy] dw] dh].
    injection En as <- <-. eexists. repeat split.
Qed.

Lemma normalizeAll_succeeds files w h :
  Forall (fun f => decoded f <> None) files ->
  exists parts, normalizeAll true files w h = Some parts.
Proof.
  induction 1 as [|f files Hf _ [parts IH]]; simpl.
  - exists []. reflexivity.
  - unfold normalizeImageToBase64.
    destruct (decoded f) as [image|]; [|congruence].
    destruct (normalizePlacement image w h) as [[[ox oy] dw] dh].
    rewrite IH. eexists. reflexivity.
Qed.

(** ** Gestures as actions *)

Lemma gestures_perm {B} (g : CanvasImage -> B) acts s :
  (forall r a, g (applyResize r a) = g a) ->
  (forall p d a, g (applyDrag p d a) = g a) ->
  forallb isGesture acts = true ->
  Permutation (map g (canvasImages (performAll acts s)))
              (map g (canvasImages s)).
Proof.
  intros Hres Hdrag. unfold performAll. revert s.
  induction acts as [|a acts IH]; intros s Hg; simpl; [reflexivity|].
  simpl in Hg. apply andb_true_iff in Hg. destruct Hg as [Ha Hg].
  rewrite (IH _ Hg).
  destruct a; try discriminate; simpl.
  - apply step_perm; auto.
  - apply touchStep_perm; auto.
Qed.

Lemma moves_without_gesture qs s :
  isDragging s = false -> isResizing s = false ->
  run (map pointerMove qs) s = s.
Proof.
  intros Hd Hr. unfold run.
  induction qs as [|q qs IH]; simpl; [reflexivity|].
  rewrite Hd, Hr. simpl. exact IH.
Qed.

(** ** More on the stack operations *)

Lemma Qhalf (a : Q) : a / 2 == a * (1 # 2).
Proof. field. Qed.

Lemma placedWithin_fit s image fname k xx yy :
  0 < naturalWidth image -> 0 < naturalHeight image ->
  0 < canvasWidth s -> 0 < canvasHeight s ->
  placedWithin s image
    (mkCanvasImage k fname image xx yy
       (fst (fitToCanvas image (canvasWidth s) (canvasHeight s)))
       (snd (fitToCanvas image (canvasWidth s) (canvasHeight s)))
       true false).
Proof.
  intros Hnw Hnh Hcw Hch.
  destruct (fitToCanvas_fits image _ _ Hnw Hnh Hcw Hch)
    as (H1 & H2 & H3 & H4 & H5 & H6 & H7).
  unfold placedWithin, newLayer. simpl. auto 12.
Qed.

Lemma set_canvasImages_same s : set_canvasImages (canvasImages s) s = s.
Proof. destruct s. reflexivity. Qed.

Lemma deleteLayer_absent k s :
  ~ In k (map id (canvasImages s)) ->
  activeImageId s <> Some k ->
  deleteLayer k s = s.
Proof.
  intros Hk Ha. unfold deleteLayer.
  rewrite (filter_absent_id k _ Hk), set_canvasImages_same.
  destruct (activeImageId s) as [a|]; [|reflexivity].
  destruct (a =? k)%Z eqn:E; [|reflexivity].
  apply Z.eqb_eq in E. congruence.
Qed.

Lemma deleteLayer_removes k s L :
  In L (canvasImages (deleteLayer k s)) <->
  In L (canvasImages s) /\ id L <> k.
Proof.
  assert (H : canvasImages (deleteLayer k s) =
              filter (fun i => negb (hasId k i)) (canvasImages s)).
  { unfold deleteLayer. destruct (activeImageId s) as [a|];
      [destruct (a =? k)%Z|]; reflexivity. }
  rewrite H, filter_In. unfold hasId.
  rewrite negb_true_iff, Z.eqb_neq. tauto.
Qed.

Lemma deleteLayer_active k s :
  activeImageId (deleteLayer k s) <> Some k /\
  (activeImageId s <> Some k ->
   activeImageId (deleteLayer k s) = activeImageId s).
Proof.
  unfold deleteLayer. destruct (activeImageId s) as [a|] eqn:Ea.
  - destruct (a =? k)%Z eqn:E; simpl.
    + split; [discriminate|]. apply Z.eqb_eq in E. congruence.
    + rewrite Ea. apply Z.eqb_neq in E. split; congruence.
  - simpl. rewrite Ea. split; [discriminate|reflexivity].
Qed.

Lemma deleteLayer_idempotent k s :
  deleteLayer k (deleteLayer k s) = deleteLayer k s.
Proof.
  apply deleteLayer_absent.
  - intros Hin. apply in_map_iff in Hin. destruct Hin as (L & Hid & HL).
    apply deleteLayer_removes in HL. tauto.
  - exact (proj1 (deleteLayer_active k s)).
Qed.

Lemma insertAt_filter_out d k D items :
  hasId d D = true ->
  (forall a, In a items -> hasId d a = false) ->
  filter (otherThan d) (insertAt k D items) = items.
Proof.
  intros HD Hitems. unfold insertAt, otherThan.
  rewrite filter_app. simpl. rewrite HD. simpl.
  rewrite <- filter_app, firstn_skipn.
  apply filter_all. intros a Ha. rewrite (Hitems a Ha). reflexivity.
Qed.

Lemma dropOnLayerList_moves d t s D :
  idsUnique s ->
  find (hasId d) (canvasImages s) = Some D ->
  d <> t ->
  exists items,
    items = filter (otherThan d) (canvasImages s) /\
    Permutation (D :: items) (canvasImages s) /\
    (forall a, In a items -> hasId d a = false) /\
    canvasImages (dropOnLayerList (Some d) (Some t) s) =
    insertAt (Z.to_nat (findIndex (hasId t) items + 1)) D items.
Proof.
  intros Hu Hf Hdt.
  destruct (find_split _ _ _ Hf) as (l1 & l2 & Hi & Hl1 & HD).
  assert (HidD : id D = d) by (apply Z.eqb_eq; exact HD).
  unfold idsUnique in Hu. rewrite Hi in Hu.
  exists (l1 ++ l2).
  assert (Hitems : filter (otherThan d) (canvasImages s) = l1 ++ l2).
  { rewrite Hi, <- HidD. apply filter_out_unique. exact Hu. }
  split; [symmetry; exact Hitems|]. split; [|split].
  - rewrite Hi. apply Permutation_middle.
  - intros a Ha. rewrite <- HidD. apply (unique_id_elsewhere l1 l2 D a Hu Ha).
  - unfold dropOnLayerList.
    destruct (d =? t)%Z eqn:E; [apply Z.eqb_eq in E; contradiction|].
    rewrite Hf. simpl. fold (otherThan d). rewrite Hitems. reflexivity.
Qed.

Lemma completions_active files cs s :
  activeImageId (fold_left (completeLoad files) cs s) =
  match rev (filter (decodes files) cs) with
  | c :: _ => Some (snd c + Z.of_nat (fst c))%Z
  | [] => activeImageId s
  end.
Proof.
  revert s. induction cs as [|c cs IH]; intros s; simpl; [reflexivity|].
  rewrite IH. unfold completeLoad, decodes at 2.
  destruct (nth_error files (fst c)) as [f|];
    [destruct (decoded f) as [image|]|]; try reflexivity.
  simpl. destruct (rev (filter (decodes files) cs)) as [|c' r]; simpl.
  - unfold imageLoaded. destruct (fitToCanvas _ _ _). reflexivity.
  - reflexivity.
Qed.

(** ** Toggles *)

Lemma updateAt_twice (f : CanvasImage -> CanvasImage) k imgs :
  (forall a, f (f a) = a) -> updateAt k f (updateAt k f imgs) = imgs.
Proof.
  intros Hf. revert k. induction imgs as [|a imgs IH]; intros [|k]; simpl;
    try reflexivity.
  - rewrite Hf. reflexivity.
  - rewrite IH. reflexivity.
Qed.

Lemma updateAt_split (f : CanvasImage -> CanvasImage) l1 L l2 :
  updateAt (List.length l1) f (l1 ++ L :: l2) = l1 ++ f L :: l2.
Proof.
  induction l1 as [|a l1 IH]; simpl; [reflexivity|]. rewrite IH. reflexivity.
Qed.

Lemma updateAt_state_twice (f : CanvasImage -> CanvasImage) k s :
  (forall a, f (f a) = a) ->
  set_canvasImages
    (updateAt k f
       (canvasImages (set_canvasImages (updateAt k f (canvasImages s)) s)))
    (set_canvasImages (updateAt k f (canvasImages s)) s) = s.
Proof.
  intros Hf. destruct s. simpl. rewrite updateAt_twice; auto.
Qed.

(** ** Gesture flags *)

Lemma handleInteractionMove_flags pos s :
  isDragging (handleInteractionMove pos s) = isDragging s /\
  isResizing (handleInteractionMove pos s) = isResizing s.
Proof.
  unfold handleInteractionMove.
  destruct (findById _ _) as [a|]; [|auto].
  destruct (isLocked a); [auto|].
  destruct (isResizing s) eqn:Er; [destruct (activeHandle s)|];
    simpl; auto; destruct (isDragging s) eqn:Ed; simpl; auto.
Qed.

Lemma handleInteractionStart_flags pos s :
  isDragging s = false -> isResizing s = false ->
  isDragging (handleInteractionStart pos s) &&
  isResizing (handleInteractionStart pos s) = false.
Proof.
  intros Hd Hr.
  pose proof (startHandlePhase_clicked pos s) as Hc.
  pose proof (startHandlePhase_frame pos s) as Hf.
  unfold handleInteractionStart.
  destruct (startHandlePhase pos s) as [s1 clicked]. simpl in Hc, Hf.
  destruct Hf as (_ & _ & Hd1 & _ & Hr1).
  destruct clicked.
  - rewrite Hd1, Hd. reflexivity.
  - symmetry in Hc. specialize (Hr1 Hc).
    destruct (hitScan _ _ _) as [[i L]|]; simpl.
    + destruct (isLocked L); simpl.
      * rewrite Hd1, Hd. reflexivity.
      * rewrite Hr1, Hr. reflexivity.
    + rewrite Hd1, Hd. reflexivity.
Qed.

Lemma alternating_flags evs down s :
  alternating down evs = true ->
  isDragging s && isResizing s = false ->
  (down = false -> isDragging s = false /\ isResizing s = false) ->
  isDragging (run evs s) && isResizing (run evs s) = false.
Proof.
  unfold run. revert down s.
  induction evs as [|e evs IH]; intros down s Halt Hnb Hup; simpl;
    [exact Hnb|].
  destruct e as [pos|pos|]; simpl in Halt.
  - apply andb_true_iff in Halt. destruct Halt as [Hdown Halt].
    apply negb_true_iff in Hdown. destruct (Hup Hdown) as [Hd Hr].
    apply (IH true); [exact Halt| |discriminate].
    apply handleInteractionStart_flags; assumption.
  - apply (IH down); [exact Halt| |].
    + simpl. destruct (isDragging s || isResizing s); [|exact Hnb].
      destruct (handleInteractionMove_flags pos s) as [-> ->]. exact Hnb.
    + intros Hdown. simpl.
      destruct (isDragging s || isResizing s); [|auto].
      destruct (handleInteractionMove_flags pos s) as [-> ->]. auto.
  - apply (IH false); [exact Halt|reflexivity|auto].
Qed.

(** ** Trimming twice *)

Lemma trimStart_fixed s :
  (forall c r, s = c :: r -> isWhiteSpace c = false) -> trimStart s = s.
Proof.
  destruct s as [|c r]; [reflexivity|]. intros H. simpl.
  rewrite (H c r eq_refl). reflexivity.
Qed.

Lemma trim_idempotent s : trim (trim s) = trim s.
Proof.
  unfold trim at 1. unfold trimEnd.
  rewrite (trimStart_fixed (trim s)) by (intros c r; apply trim_no_leading).
  rewrite trimStart_fixed; [apply rev_involutive|].
  intros c r H. apply (trim_no_trailing s c (rev r)).
  rewrite <- (rev_involutive (trim s)), H. reflexivity.
Qed.

(** ** Time stamps *)

Lemma jseqb_refl a : jseqb a a = true.
Proof.
  induction a as [|c a IH]; simpl; [reflexivity|].
  rewrite N.eqb_refl. exact IH.
Qed.

Lemma lit_inj s s' : lit s = lit s' -> s = s'.
Proof.
  unfold lit. revert s'. induction s as [|c s IH]; intros [|c' s']; simpl;
    try discriminate; [reflexivity|].
  intros [= Hc Hs]. f_equal; [|apply IH; exact Hs].
  rewrite <- (ascii_N_embedding c), <- (ascii_N_embedding c'), Hc.
  reflexivity.
Qed.

Lemma to_uint_not_nil n : Nat.to_uint n <> Decimal.Nil.
Proof.
  intros H. pose proof (DecimalNat.Unsigned.of_to n) as Hn.
  rewrite H in Hn. simpl in Hn. subst n. discriminate H.
Qed.

Lemma numberToString_inj n m :
  numberToString n = numberToString m -> n = m.
Proof.
  unfold numberToString. intros H. apply lit_inj in H.
  apply DecimalNat.Unsigned.to_uint_inj.
  pose proof (NilZero.usu _ (to_uint_not_nil n)) as Hn.
  pose proof (NilZero.usu _ (to_uint_not_nil m)) as Hm.
  rewrite H in Hn. congruence.
Qed.

Lemma paddedDistinct_100 : paddedDistinct 100 = true.
Proof. vm_compute. reflexivity. Qed.

Lemma padded_two_digits n m :
  (n < 100)%nat -> (m < 100)%nat ->
  List.length (padStart2 (numberToString n)) = 2%nat /\
  (padStart2 (numberToString n) = padStart2 (numberToString m) -> n = m).
Proof.
  intros Hn Hm. pose proof paddedDistinct_100 as H.
  unfold paddedDistinct in H. rewrite forallb_forall in H.
  specialize (H n (proj2 (in_seq _ _ _) (conj (Nat.le_0_l n) Hn))).
  rewrite forallb_forall in H.
  specialize (H m (proj2 (in_seq _ _ _) (conj (Nat.le_0_l m) Hm))).
  apply andb_true_iff in H. destruct H as [Himp Hlen].
  split; [apply Nat.eqb_eq; exact Hlen|].
  intros E. rewrite E, jseqb_refl in Himp. simpl in Himp.
  apply Nat.eqb_eq. exact Himp.
Qed.

Lemma app_inj_length {A} (a a' b b' : list A) :
  List.length a = List.length a' -> a ++ b = a' ++ b' -> a = a' /\ b = b'.
Proof.
  revert a'. induction a as [|c a IH]; intros [|c' a'] Hl H;
    try discriminate; simpl in *; [auto|].
  injection H as -> H. injection Hl as Hl.
  destruct (IH a' Hl H) as [-> ->]. auto.
Qed.

Lemma app_inj_length_tail {A} (a a' b b' : list A) :
  List.length b = List.length b' -> a ++ b = a' ++ b' -> a = a' /\ b = b'.
Proof.
  intros Hl H.
  assert (Ha : List.length a = List.length a').
  { apply (f_equal (@List.length A)) in H. rewrite !length_app in H. lia. }
  apply app_inj_length; assumption.
Qed.

(** ** The placement and the drag over an arithmetic *)

(** The rational placement is the placement formula read over the
    rationals. *)
Lemma normalizePlacement_in_rationals image W H :
  normalizePlacement image W H =
  normalizePlacementIn rationals (naturalWidth image) (naturalHeight image)
                       W H.
Proof. reflexivity. Qed.

(** In every arithmetic one drawn dimension is the target's, the other
    is the target's other dimension scaled by the aspect ratio of the
    image, and the offsets are half the remaining space, as computed. *)
Lemma normalizePlacementIn_shape (A : Arithmetic) (nw nh W H : num A) :
  exists x y dw dh,
    normalizePlacementIn A nw nh W H = (x, y, dw, dh) /\
    (dw = W /\ dh = numDiv A W (numDiv A nw nh) \/
     dw = numMul A H (numDiv A nw nh) /\ dh = H) /\
    x = numDiv A (numSub A W dw) (numTwo A) /\
    y = numDiv A (numSub A H dh) (numTwo A).
Proof.
  unfold normalizePlacementIn.
  destruct (numLt A (numDiv A W H) (numDiv A nw nh));
    do 4 eexists; (split; [reflexivity|]); auto.
Qed.

(** The rational drag is the drag formula read over the rationals. *)
Lemma applyDrag_in_rationals (pos down : Pos) (L : CanvasImage) :
  x (applyDrag pos (mkPos (px down - x L) (py down - y L)) L) =
  dragPositionIn rationals (px pos) (dragOffsetIn rationals (px down) (x L)) /\
  y (applyDrag pos (mkPos (px down - x L) (py down - y L)) L) =
  dragPositionIn rationals (py pos) (dragOffsetIn rationals (py down) (y L)).
Proof. split; reflexivity. Qed.


(** ** The cursor *)

(** Where [cursorAt] is [grab], a resize cursor or the default cursor, a
    pointer-down at the same position in the same state starts a drag,
    starts a resize, or clears the selection. *)
Lemma cursorAt_announces (s : State) (pos : Pos) :
  let s' := handleInteractionStart pos s in
  (cursorAt pos s = cursorGrab ->
   isDragging s' = true /\
   exists i L,
     nth_error (canvasImages s) i = Some L /\
     hitRect L pos = true /\ isLocked L = false /\
     activeImageId s' = Some (id L) /\
     canvasImages s' = removeAt i (canvasImages s) ++ [L]) /\
  (forall c,
      cursorAt pos s = c ->
      c = cursorNwseResize \/ c = cursorNeswResize ->
      isResizing s' = true /\
      (exists h, activeHandle s' = Some h /\ diagonalCursor h = c) /\
      canvasImages s' = canvasImages s /\
      activeImageId s' = activeImageId s) /\
  (cursorAt pos s = cursorDefault ->
   activeImageId s' = None /\
   canvasImages s' = canvasImages s /\
   isDragging s' = false).
Proof.
  intros s'. subst s'. unfold cursorAt.
  assert (Hother : forall (c0 : Cursor) (P Q : Prop) (R : Cursor -> Prop),
             c0 <> cursorGrab -> c0 <> cursorNwseResize ->
             c0 <> cursorNeswResize -> c0 <> cursorDefault ->
             (c0 = cursorGrab -> P) /\
             (forall c, c0 = c ->
                        c = cursorNwseResize \/ c = cursorNeswResize -> R c) /\
             (c0 = cursorDefault -> Q)).
  { intros c0 P Q R H1 H2 H3 H4.
    split; [intros E; contradiction|].
    split; [|intros E; contradiction].
    intros c <- [E|E]; contradiction. }
  destruct (isDragging s) eqn:Ed; [apply Hother; discriminate|].
  destruct (activeIsLocked s) eqn:El; [apply Hother; discriminate|].
  destruct (handleCursor pos s) eqn:Ec;
    try (destruct (handleCursor_resize pos s _ El Ec) as (h & Hdiag & Hph);
         [discriminate|]);
    try (exfalso; destruct h; discriminate Hdiag);
    try (split; [discriminate|]; split; [|discriminate];
         intros c <- _; unfold handleInteractionStart; rewrite Hph; simpl;
         split; [reflexivity|]; split; [|split; reflexivity];
         exists h; split; [reflexivity|symmetry; exact Hdiag]).
  pose proof (handleCursor_default pos s Ec) as Hoff.
  destruct (pointer_down_on_layers s pos Hoff) as [Hhit Hmiss].
  destruct (hitScan (canvasImages s) pos (List.length (canvasImages s)))
    as [[i L]|] eqn:Es.
  - destruct (hitScan_full _ _ _ _ Es) as (Hn & HL & Htop).
    destruct (Hhit i L Hn HL Htop) as (Ha & Hunl & _).
    destruct (isLocked L) eqn:ElL; [apply Hother; discriminate|].
    destruct (Hunl eq_refl) as (Hi & Hd & _).
    split; [|split; [intros c <- [H|H]; discriminate|discriminate]].
    intros _. split; [exact Hd|]. exists i, L. auto 6.
  - destruct (Hmiss (hitScan_full_none _ _ Es)) as [Ha Hi].
    split; [discriminate|]. split; [intros c <- [H|H]; discriminate|].
    intros _. split; [exact Ha|]. split; [exact Hi|].
    pose proof (startHandlePhase_clicked pos s) as Hc.
    pose proof (startHandlePhase_frame pos s) as Hf.
    unfold handleInteractionStart.
    destruct (startHandlePhase pos s) as [s1 clicked]. simpl in Hc, Hf.
    rewrite Hoff in Hc. subst clicked.
    destruct Hf as (Hi1 & _ & Hd1 & _). rewrite Hi1, Es. simpl.
    rewrite Hd1. exact Ed.
Qed.

(** ** The stack after a pointer-down *)

(** A pointer-down leaves the stack as it is or moves one visible,
    unlocked layer that contains the point to the end. *)
Lemma pointer_down_stack (s : State) (pos : Pos) :
  canvasImages (handleInteractionStart pos s) = canvasImages s \/
  exists i L,
    nth_error (canvasImages s) i = Some L /\
    hitRect L pos = true /\ isLocked L = false /\
    canvasImages (handleInteractionStart pos s) =
    removeAt i (canvasImages s) ++ [L].
Proof.
  pose proof (startHandlePhase_frame pos s) as Hf.
  unfold handleInteractionStart.
  destruct (startHandlePhase pos s) as [s1 clicked]. simpl in Hf.
  destruct Hf as (Hi & _).
  destruct clicked; [left; exact Hi|].
  rewrite Hi.
  destruct (hitScan (canvasImages s) pos (List.length (canvasImages s)))
    as [[i L]|] eqn:Es; [|left; exact Hi].
  destruct (hitScan_full _ _ _ _ Es) as (Hn & HL & _).
  destruct (isLocked L) eqn:El; simpl.
  - left. exact Hi.
  - right. exists i, L. auto.
Qed.

(** ** A response whose first candidate has content *)

Lemma processGeminiResponse_parts (parts : list ResponsePart)
      (rest : list Candidate)
      (result : OutputPanel * jsstring * Completion) :
  result = processGeminiResponse (Some (Some parts :: rest)) ->
  let panel := fst (fst result) in
  let source := snd (fst result) in
  snd result = returned /\
  textOutputHidden panel = negb (imageOutputHidden panel) /\
  (imageOutputHidden panel = false <-> existsb hasInline parts = true) /\
  (imageOutputHidden panel = false ->
   lastGeneratedImageDataUrl panel = Some source) /\
  (imageOutputHidden panel = true ->
   lastGeneratedImageDataUrl panel = None /\ source = [] /\
   blank (textOutput panel) = false) /\
  (forall pre part post data mimeType,
      parts = pre ++ part :: post ->
      inlineData part = Some (data, mimeType) ->
      (forall p, In p post -> inlineData p = None) ->
      source = dataUrl mimeType data) /\
  showOutput panel = panel.
Proof.
  intros ->. simpl.
  set (st := fold_left scanPart parts
               (mkScan (mkOutputPanel [] true true None) [] false false)).
  assert (Hc : scanConsistent st).
  { apply scan_consistent. repeat split; auto; discriminate. }
  assert (Hfound : imageFound st = existsb hasInline parts)
    by (apply scan_imageFound).
  assert (Hlast : forall pre part post d m,
             parts = pre ++ part :: post ->
             inlineData part = Some (d, m) ->
             (forall p, In p post -> inlineData p = None) ->
             scanImageSrc st = dataUrl m d).
  { intros pre part post d m -> Hp Hpost. apply scan_last_inline; auto. }
  destruct Hc as (Ht & Hi & Hs & Hn).
  rewrite <- Hfound.
  destruct (imageFound st) eqn:Ef.
  - simpl. rewrite Hi. simpl. specialize (Hs eq_refl).
    split; [reflexivity|]. split; [reflexivity|].
    split; [split; reflexivity|].
    split; [intros _; exact Hs|]. split; [discriminate|].
    split; [exact Hlast|reflexivity].
  - destruct (Hn eq_refl) as [Hnone Hsrc].
    assert (Hgoal : forall text,
               blank text = false ->
               let panel := mkOutputPanel text false
                              (imageOutputHidden (scanPanel st))
                              (lastGeneratedImageDataUrl (scanPanel st)) in
               textOutputHidden panel = negb (imageOutputHidden panel) /\
               (imageOutputHidden panel = false <-> false = true) /\
               (imageOutputHidden panel = false ->
                lastGeneratedImageDataUrl panel = Some (scanImageSrc st)) /\
               (imageOutputHidden panel = true ->
                lastGeneratedImageDataUrl panel = None /\
                scanImageSrc st = [] /\ blank (textOutput panel) = false) /\
               (forall pre part post d m,
                   parts = pre ++ part :: post ->
                   inlineData part = Some (d, m) ->
                   (forall p, In p post -> inlineData p = None) ->
                   scanImageSrc st = dataUrl m d) /\
               showOutput panel = panel).
    { intros text Hb. simpl. rewrite Hi, Hnone. simpl.
      split; [reflexivity|].
      split; [split; intros H; exact (eq_sym H)|].
      split; [discriminate|]. split; [intros _; auto|].
      split; [exact Hlast|reflexivity]. }
    destruct (textFound st).
    + split; [reflexivity|]. apply Hgoal.
      destruct (trim (textOutput (scanPanel st))) as [|c t] eqn:Etrim;
        [reflexivity|].
      apply blank_trim. congruence.
    + split; [reflexivity|]. apply Hgoal. reflexivity.
Qed.

(** * The interaction controller *)

(** C9: on a pointer-down that is not on a handle of the active layer,
    the selected layer is the first one, scanning from the last element
    of the stack down to the first, that is visible and whose rectangle
    contains the point.  If it is unlocked it is moved to the end of the
    stack and a drag begins with the offset [pos - (x, y)]; if it is
    locked only the selection changes.  If no layer is hit the selection
    is cleared. *)
Theorem C9_pointer_down_selects_topmost_hit :
  forall (s : State) (pos : Pos),
    onActiveHandle pos s = false ->
    let imgs := canvasImages s in
    let s' := handleInteractionStart pos s in
    (forall i L,
        nth_error imgs i = Some L ->
        hitRect L pos = true ->
        (forall j L', (i < j)%nat -> nth_error imgs j = Some L' ->
                      hitRect L' pos = false) ->
        activeImageId s' = Some (id L) /\
        (isLocked L = false ->
         canvasImages s' = removeAt i imgs ++ [L] /\
         isDragging s' = true /\
         dragStart s' = mkPos (px pos - x L) (py pos - y L)) /\
        (isLocked L = true ->
         canvasImages s' = imgs /\
         isDragging s' = isDragging s /\
         isResizing s' = isResizing s /\
         dragStart s' = dragStart s)) /\
    ((forall L, In L imgs -> hitRect L pos = false) ->
     activeImageId s' = None /\ canvasImages s' = imgs).
Proof.
  intros s pos Hh imgs s'.
  destruct (pointer_down_on_layers s pos Hh) as [Hhit Hmiss].
  split; [|exact Hmiss].
  intros i L Hn HL Htop.
  destruct (Hhit i L Hn HL Htop) as (Ha & Hunl & Hlock).
  split; [exact Ha|]. split; [|exact Hlock].
  intros Hl. destruct (Hunl Hl) as (H1 & H2 & _ & H4). auto.
Qed.

(** Two fully overlapping visible layers: a click inside both selects
    the upper one, which stays on top and starts to drag. *)
Lemma C9_overlapping_layers_witness :
  hitRect layerA (mkPos 150 150) = true /\
  hitRect layerB (mkPos 150 150) = true /\
  activeImageId (handleInteractionStart (mkPos 150 150) overlapping) =
  Some 2%Z /\
  canvasImages (handleInteractionStart (mkPos 150 150) overlapping) =
  [layerA; layerB] /\
  isDragging (handleInteractionStart (mkPos 150 150) overlapping) = true.
Proof.
  set (s := overlapping). set (pos := mkPos 150 150).
  destruct (C9_pointer_down_selects_topmost_hit s pos eq_refl) as [Hhit _].
  assert (Htop : forall j L', (1 < j)%nat ->
            nth_error (canvasImages s) j = Some L' -> hitRect L' pos = false).
  { intros [|[|[|j]]] L' Hj HL'; try lia; discriminate HL'. }
  destruct (Hhit 1%nat layerB eq_refl eq_refl Htop) as (Ha & Hunl & _).
  destruct (Hunl eq_refl) as (Hi & Hd & _).
  split; [reflexivity|]. split; [reflexivity|].
  split; [exact Ha|]. split; [exact Hi|exact Hd].
Defined.




(** C2: during a resize, when the recomputed width or height does not
    exceed the floor of 20 logical pixels the size is not committed:
    every layer keeps the width and height it had before the move.  When
    both exceed the floor the active layer receives the recomputed size.
    Hence, from a stack whose layers all have positive width and height,
    every layer still has positive width and height after any sequence
    of pointer events. *)
Theorem C2_resize_below_floor_keeps_size :
  (forall (s : State) (pos : Pos) (a : CanvasImage) (h : Handle),
      findById (canvasImages s) (activeImageId s) = Some a ->
      isLocked a = false ->
      isResizing s = true ->
      activeHandle s = Some h ->
      let r := resizeStep a h pos in
      let s' := handleInteractionMove pos s in
      (~ aboveFloor r ->
       map size (canvasImages s') = map size (canvasImages s)) /\
      (aboveFloor r ->
       exists a', findById (canvasImages s') (activeImageId s') = Some a' /\
                  size a' = (newWidth r, newHeight r)) /\
      (Forall positiveSize (canvasImages s) ->
       Forall positiveSize (canvasImages s'))) /\
  (forall (s : State) (evs : list PointerEvent),
      Forall positiveSize (canvasImages s) ->
      Forall positiveSize (canvasImages (run evs s))).
Proof.
  split; [|exact (fun s evs => run_positive evs s)].
  intros s pos a h Hf Hl Hr Hh r s'.
  assert (Hs' : s' = set_canvasImages
            (updateFirst (isActive s) (applyResize r) (canvasImages s)) s)
    by (apply handleInteractionMove_resize; assumption).
  pose proof (findById_isActive s a Hf) as Hfind.
  rewrite Hs'. simpl. repeat split.
  - intros Hrej. apply (updateFirst_map size _ _ _ a Hfind).
    rewrite (applyResize_rejected r a Hrej). reflexivity.
  - intros Hacc. exists (applyResize r a). split.
    + unfold findById in *. unfold isActive in *.
      destruct (activeImageId s) as [k|]; [|discriminate].
      apply find_updateFirst; [exact Hfind|].
      unfold hasId. rewrite applyResize_id.
      apply find_some in Hfind. exact (proj2 Hfind).
    + rewrite (applyResize_accepted r a Hacc). reflexivity.
  - apply (updateFirst_Forall _ _ _ _ a Hfind). apply applyResize_positive.
Qed.

(** The north-west handle dragged to within 10 pixels of the pinned
    corner: the recomputed size (10, 10) is below the floor and the
    layer keeps its size of (200, 200). *)
Lemma C2_sticky_minimum_witness :
  map size (canvasImages (handleInteractionMove (mkPos 290 290) nwResize)) =
  [(200, 200)] /\
  Forall positiveSize
    (canvasImages (run [pointerMove (mkPos 290 290); pointerUp] nwResize)).
Proof.
  set (s := nwResize). set (pos := mkPos 290 290).
  destruct C2_resize_below_floor_keeps_size as [Hstep Hrun].
  destruct (Hstep s pos layerA nw eq_refl eq_refl eq_refl eq_refl)
    as (Hrej & _ & _).
  split.
  - rewrite Hrej; [reflexivity|].
    unfold aboveFloor. simpl. intros [Hw _]. revert Hw.
    unfold Qlt. simpl. lia.
  - apply Hrun. repeat constructor.
Defined.

(** C1 (the code departs from the claim): a resize move whose recomputed
    size is rejected still writes [x] and [y], so the pinned corner
    moves.  The selected layer at (100, 100) of size 200 x 200 is grabbed
    by its north-west handle and the pointer moves to (290, 290): the
    gesture is a resize, the recomputed size (10, 10) is rejected and the
    size stays 200 x 200, but the origin becomes (290, 290) and the
    south-east corner goes from (300, 300) to (490, 490). *)
Theorem C1_rejected_resize_moves_pinned_corner :
  isResizing nwResize = true /\
  activeHandle nwResize = Some nw /\
  exists L',
    canvasImages
      (run [pointerDown (mkPos 100 100); pointerMove (mkPos 290 290)]
           (idle [layerA] (Some 1%Z))) = [L'] /\
    size L' = size layerA /\
    samePos (pinnedCorner nw layerA) (mkPos 300 300) /\
    samePos (pinnedCorner nw L') (mkPos 490 490) /\
    ~ samePos (pinnedCorner nw L') (pinnedCorner nw layerA).
Proof.
  split; [reflexivity|]. split; [reflexivity|].
  eexists. split; [vm_compute; reflexivity|].
  unfold samePos. simpl. repeat split; try reflexivity.
  intros [H _]. revert H. unfold Qeq. simpl. lia.
Qed.

(** * The compositor *)

(** C5, as the code behaves: for a source image of positive natural size
    and a positive target size (W, H), normalisation resolves with a
    canvas of size W x H holding one [drawImage] call.  In every
    arithmetic, double precision included, the drawn width is W or the
    drawn height is H, and the offsets are (W - drawWidth) / 2 and
    (H - drawHeight) / 2 as computed.  In exact arithmetic the drawn
    width is at most W and the drawn height at most H. *)
Theorem C5_normalize_centres_and_fits_in_exact_arithmetic :
  (forall (A : Arithmetic) (nw nh W H : num A),
      exists offsetX offsetY drawWidth drawHeight,
        normalizePlacementIn A nw nh W H =
        (offsetX, offsetY, drawWidth, drawHeight) /\
        (drawWidth = W \/ drawHeight = H) /\
        offsetX = numDiv A (numSub A W drawWidth) (numTwo A) /\
        offsetY = numDiv A (numSub A H drawHeight) (numTwo A)) /\
  (forall (file : File) (image : HTMLImageElement) (W H : Q),
      decoded file = Some image ->
      0 < naturalWidth image -> 0 < naturalHeight image ->
      0 < W -> 0 < H ->
      exists offsetX offsetY drawWidth drawHeight,
        normalizeImageToBase64 true file W H =
        Some (mkCanvas W H
                [drawImage image offsetX offsetY drawWidth drawHeight],
              lit "image/png") /\
        normalizePlacementIn rationals (naturalWidth image)
                             (naturalHeight image) W H =
        (offsetX, offsetY, drawWidth, drawHeight) /\
        drawWidth <= W /\ drawHeight <= H /\
        offsetX = (W - drawWidth) / 2 /\ offsetY = (H - drawHeight) / 2).
Proof.
  split.
  - intros A nw nh W H.
    destruct (normalizePlacementIn_shape A nw nh W H)
      as (ox & oy & dw & dh & Hp & Hs & Hx & Hy).
    exists ox, oy, dw, dh. split; [exact Hp|].
    split; [destruct Hs as [[Hw _]|[_ Hh]]; auto|]. auto.
  - intros file image W H Hd Hnw Hnh HW HH.
    destruct (normalizePlacement_fits image W H Hnw Hnh HW HH)
      as (ox & oy & dw & dh & Hp & Hw & Hh & _ & _ & Hx & Hy).
    exists ox, oy, dw, dh. unfold normalizeImageToBase64.
    rewrite Hd, Hp. rewrite <- normalizePlacement_in_rationals. auto 7.
Qed.

(** A 2000 x 1000 image on a 1024 x 1024 target is drawn 1024 wide and
    512 high, 256 below the top edge. *)
Lemma C5_banner_witness :
  exists offsetX offsetY drawWidth drawHeight,
    normalizeImageToBase64 true (pngFile "banner.png" banner) 1024 1024 =
    Some (mkCanvas 1024 1024
            [drawImage banner offsetX offsetY drawWidth drawHeight],
          lit "image/png") /\
    normalizePlacementIn rationals 2000 1000 1024 1024 =
    (offsetX, offsetY, drawWidth, drawHeight) /\
    drawWidth <= 1024 /\ drawHeight <= 1024 /\
    offsetX = (1024 - drawWidth) / 2 /\ offsetY = (1024 - drawHeight) / 2.
Proof.
  apply (proj2 C5_normalize_centres_and_fits_in_exact_arithmetic
           (pngFile "banner.png" banner) banner 1024 1024 eq_refl);
    reflexivity.
Defined.

(** C5 as stated fails in double precision: for an image of natural
    size 738 x 1344 and the target 738 x 1344 (the resolution of the
    9:16 menu entry) the aspect ratios are equal, the drawn height is
    1344 and the drawn width 1344 * (738 / 1344) rounds to
    738.0000000000001, which exceeds the target width 738; the
    horizontal offset is negative. *)
Lemma C5_double_rounding_exceeds_target :
  exists offsetX offsetY drawWidth drawHeight,
    normalizePlacementIn doubles Double.n738 Double.n1344
                         Double.n738 Double.n1344 =
    (offsetX, offsetY, drawWidth, drawHeight) /\
    drawHeight = Double.n1344 /\
    PrimFloat.ltb Double.n738 drawWidth = true /\
    PrimFloat.leb drawWidth Double.n738 = false /\
    PrimFloat.ltb offsetX Double.zero = true.
Proof.
  do 4 eexists. split; [vm_compute; reflexivity|].
  repeat split; vm_compute; reflexivity.
Qed.

(** C4, as the code behaves: normalisation scales the image to fit the
    target, enlarging it when it is smaller.  In every arithmetic,
    double precision included, either the drawn width is the target
    width and the drawn height is that width divided by the aspect
    ratio of the image, or the drawn height is the target height and
    the drawn width is that height times the aspect ratio; the offsets
    are half the remaining space, on a canvas of the target size that
    receives nothing else.  In exact arithmetic, for positive sizes,
    the drawn rectangle does not exceed the target and has the aspect
    ratio of the source.  The natural size of the image is not a
    bound. *)
Theorem C4_normalize_scales_to_fit_target :
  (forall (A : Arithmetic) (nw nh W H : num A),
      exists offsetX offsetY drawWidth drawHeight,
        normalizePlacementIn A nw nh W H =
        (offsetX, offsetY, drawWidth, drawHeight) /\
        (drawWidth = W /\ drawHeight = numDiv A W (numDiv A nw nh) \/
         drawWidth = numMul A H (numDiv A nw nh) /\ drawHeight = H) /\
        offsetX = numDiv A (numSub A W drawWidth) (numTwo A) /\
        offsetY = numDiv A (numSub A H drawHeight) (numTwo A)) /\
  (forall (file : File) (image : HTMLImageElement) (W H : Q),
      decoded file = Some image ->
      0 < naturalWidth image -> 0 < naturalHeight image ->
      0 < W -> 0 < H ->
      exists offsetX offsetY drawWidth drawHeight,
        normalizeImageToBase64 true file W H =
        Some (mkCanvas W H
                [drawImage image offsetX offsetY drawWidth drawHeight],
              lit "image/png") /\
        normalizePlacementIn rationals (naturalWidth image)
                             (naturalHeight image) W H =
        (offsetX, offsetY, drawWidth, drawHeight) /\
        drawWidth <= W /\ drawHeight <= H /\
        (drawWidth = W \/ drawHeight = H) /\
        drawWidth * naturalHeight image == drawHeight * naturalWidth image /\
        offsetX = (W - drawWidth) / 2 /\ offsetY = (H - drawHeight) / 2).
Proof.
  split.
  - intros A nw nh W H. apply normalizePlacementIn_shape.
  - intros file image W H Hd Hnw Hnh HW HH.
    destruct (normalizePlacement_fits image W H Hnw Hnh HW HH)
      as (ox & oy & dw & dh & Hp & Hrest).
    exists ox, oy, dw, dh. unfold normalizeImageToBase64.
    rewrite Hd, Hp. rewrite <- normalizePlacement_in_rationals. auto.
Qed.

Lemma C4_thumbnail_witness :
  exists offsetX offsetY drawWidth drawHeight,
    normalizeImageToBase64 true (pngFile "thumb.png" thumbnail) 1024 1024 =
    Some (mkCanvas 1024 1024
            [drawImage thumbnail offsetX offsetY drawWidth drawHeight],
          lit "image/png") /\
    normalizePlacementIn rationals 10 10 1024 1024 =
    (offsetX, offsetY, drawWidth, drawHeight) /\
    drawWidth <= 1024 /\ drawHeight <= 1024 /\
    (drawWidth = 1024 \/ drawHeight = 1024) /\
    drawWidth * naturalHeight thumbnail ==
    drawHeight * naturalWidth thumbnail /\
    offsetX = (1024 - drawWidth) / 2 /\ offsetY = (1024 - drawHeight) / 2.
Proof.
  apply (proj2 C4_normalize_scales_to_fit_target
           (pngFile "thumb.png" thumbnail) thumbnail 1024 1024 eq_refl);
    reflexivity.
Defined.

(** C4 as stated fails: a 10 x 10 image normalised to 1024 x 1024 is
    drawn 1024 pixels high and more than 10 pixels wide, beyond its
    natural size. *)
Lemma C4_small_image_is_enlarged :
  exists offsetX offsetY drawWidth drawHeight,
    normalizeImageToBase64 true (pngFile "thumb.png" thumbnail) 1024 1024 =
    Some (mkCanvas 1024 1024
            [drawImage thumbnail offsetX offsetY drawWidth drawHeight],
          lit "image/png") /\
    ~ (drawWidth <= naturalWidth thumbnail /\
       drawHeight <= naturalHeight thumbnail).
Proof.
  do 4 eexists. split; [vm_compute; reflexivity|].
  intros [_ Hh]. revert Hh. unfold Qle. simpl. lia.
Qed.

Section CompositionClaims.

Variable compositionInstruction : Q -> Q -> jsstring.

(** C6: when no layer of the stack is visible, a composition request
    ends before any canvas is built or any service call is made: the
    call returns early, the text panel shows the message asking for a
    visible image, and the state, hence the layer stack, is the one it
    was given. *)
Theorem C6_no_visible_layer_is_reported :
  forall (hasContext : bool) (referenceFiles : list File)
         (prompts : Prompts) (s : State) (out : OutputPanel),
    List.length (filter isVisible (canvasImages s)) = 0%nat ->
    editImage compositionInstruction hasContext referenceFiles prompts s out
    = (s, mkOutputPanel noVisibleMessage false true None, returnedEarly).
Proof.
  intros hasContext referenceFiles prompts s out H.
  unfold editImage. rewrite H. reflexivity.
Qed.

(** C7: with at least one visible layer, the composite that is sent is
    a canvas of the logical size of the editing canvas that received
    exactly the visible layers, in stack order, each at its position
    and size.  Hidden layers contribute nothing: a hidden layer next to
    a visible one gives the composite of the visible one alone.
    Locking a layer does not change the composite. *)
Theorem C7_flatten_paints_visible_layers_in_order :
  (forall s : State,
      flattenCanvas true s =
      mkCanvas (canvasWidth s) (canvasHeight s)
               (map drawOf (filter isVisible (canvasImages s)))) /\
  (forall (s : State) (hiddenLayer visibleLayer : CanvasImage),
      isVisible hiddenLayer = false -> isVisible visibleLayer = true ->
      flattenCanvas true (set_canvasImages [hiddenLayer; visibleLayer] s) =
      flattenCanvas true (set_canvasImages [visibleLayer] s) /\
      flattenCanvas true (set_canvasImages [visibleLayer; hiddenLayer] s) =
      flattenCanvas true (set_canvasImages [visibleLayer] s)) /\
  (forall (s : State) (k : nat),
      flattenCanvas true (toggleLock k s) = flattenCanvas true s) /\
  (forall (referenceFiles : list File) (referenceParts : list Part)
          (prompts : Prompts) (s : State) (out : OutputPanel)
          (L : CanvasImage),
      In L (canvasImages s) -> isVisible L = true ->
      readAll referenceFiles = Some referenceParts ->
      exists out' finalPrompt,
        editImage compositionInstruction true referenceFiles prompts s out =
        (s, out',
         requested
           (canvasPart
              (mkCanvas (canvasWidth s) (canvasHeight s)
                 (map drawOf (filter isVisible (canvasImages s))))
              (lit "image/png")
            :: referenceParts ++ [textPart finalPrompt]))).
Proof.
  split; [exact flattenCanvas_spec|]. split; [|split].
  - intros s h v Hh Hv. rewrite !flattenCanvas_spec. simpl.
    rewrite Hh, Hv. auto.
  - intros s k. rewrite !flattenCanvas_spec. unfold toggleLock. simpl.
    rewrite updateAt_visible_draws. reflexivity.
  - intros refs parts prompts s out L Hin Hv Hread.
    unfold editImage.
    rewrite (visible_layer_filter _ L Hin Hv), Hread, flattenCanvas_spec.
    do 2 eexists. reflexivity.
Qed.

End CompositionClaims.

(** A hidden layer below a visible one: the composite holds the visible
    layer only, and the request starts with it. *)
Lemma C7_hidden_and_visible_witness :
  flattenCanvas true (idle [layerHidden; layerA] None) =
  flattenCanvas true (idle [layerA] None) /\
  exists out' finalPrompt,
    editImage (fun _ _ => lit "Combine.") true [] (mkPrompts [] [] [] [])
              (idle [layerHidden; layerA] None)
              (mkOutputPanel [] true true None) =
    (idle [layerHidden; layerA] None, out',
     requested
       [canvasPart (mkCanvas 1024 1024 [drawOf layerA]) (lit "image/png");
        textPart finalPrompt]).
Proof.
  destruct (C7_flatten_paints_visible_layers_in_order
              (fun _ _ => lit "Combine.")) as (_ & Hpair & _ & Hreq).
  split.
  - exact (proj1 (Hpair (idle [] None) layerHidden layerA eq_refl eq_refl)).
  - exact (Hreq [] [] (mkPrompts [] [] [] [])
                (idle [layerHidden; layerA] None)
                (mkOutputPanel [] true true None) layerA
                (or_intror (or_introl eq_refl)) eq_refl eq_refl).
Defined.

(** A stack whose only layer is hidden: the request is refused with the
    message and nothing is sent. *)
Lemma C6_only_hidden_layer_witness :
  editImage (fun _ _ => lit "Combine.") true [] (mkPrompts [] [] [] [])
            (idle [layerHidden] None) (mkOutputPanel [] true true None) =
  (idle [layerHidden] None,
   mkOutputPanel noVisibleMessage false true None, returnedEarly).
Proof.
  apply (C6_no_visible_layer_is_reported (fun _ _ => lit "Combine.")).
  reflexivity.
Defined.

(** * The layer stack *)

(** C8 (the code departs from the claim): ids are clock readings, and
    two layers can receive the same one.  In a batch of two files whose
    second image finishes loading at clock 1000 and whose first finishes
    at clock 1001, both layers get the id 1001.  Likewise two
    duplications within one clock tick give both copies the same id, and
    removing that id then removes both. *)
Theorem C8_clock_ids_collide :
  map id (canvasImages batchOutOfOrder) = [1001%Z; 1001%Z] /\
  ~ idsUnique batchOutOfOrder /\
  map id (canvasImages doubleDuplicate) = [1%Z; 5000%Z; 5000%Z] /\
  ~ idsUnique doubleDuplicate /\
  map id (canvasImages (applyOps [opRemove 5000] doubleDuplicate)) = [1%Z].
Proof.
  set (s := batchOutOfOrder). set (t := doubleDuplicate). unfold idsUnique.
  assert (Hs : map id (canvasImages s) = [1001%Z; 1001%Z])
    by (vm_compute; reflexivity).
  assert (Ht : map id (canvasImages t) = [1%Z; 5000%Z; 5000%Z])
    by (vm_compute; reflexivity).
  rewrite Hs, Ht. repeat split.
  - intros H. inversion H as [|a l Hn _]; subst. apply Hn. left. reflexivity.
  - intros H. inversion H as [|a l _ H']; subst.
    inversion H' as [|b m Hn _]; subst. apply Hn. left. reflexivity.
Qed.

(** C10: committing the name field of a layer with a value that is
    white space only leaves the layer as it was; any other value sets
    the name to the trimmed value, which is not empty, and changes no
    other field.  The commit never produces an empty name that was not
    there before. *)
Theorem C10_rename_trims_and_ignores_blank :
  forall (inputValue : jsstring) (image : CanvasImage),
    let image' := stopEditing inputValue image in
    (forallb isWhiteSpace inputValue = true -> image' = image) /\
    (forallb isWhiteSpace inputValue = false ->
     name image' = trim inputValue /\ name image' <> [] /\
     image' = set_name (trim inputValue) image) /\
    (name image' = [] -> name image = []).
Proof.
  intros inputValue image image'. subst image'. unfold stopEditing.
  destruct (trim inputValue) as [|c r] eqn:E.
  - apply trim_nil in E. split; [reflexivity|]. split; [|auto].
    intros H. congruence.
  - split; [|split].
    + intros H. apply trim_nil in H. congruence.
    + intros _. simpl. repeat split; auto. discriminate.
    + simpl. discriminate.
Qed.

Lemma C10_rename_witness :
  stopEditing (lit "   ") layerA = layerA /\
  name (stopEditing (lit "  sky line ") layerA) = lit "sky line" /\
  name (stopEditing (lit "  sky line ") layerA) <> [].
Proof.
  destruct (C10_rename_trims_and_ignores_blank (lit "   ") layerA)
    as (Hblank & _ & _).
  destruct (C10_rename_trims_and_ignores_blank (lit "  sky line ") layerA)
    as (_ & Hset & _).
  destruct (Hset eq_refl) as (Hname & Hne & _).
  split; [exact (Hblank eq_refl)|]. split; [|exact Hne].
  rewrite Hname. reflexivity.
Defined.

(** * Further properties of the editor *)

(** X1: pointer and touch input never adds, removes or relabels a layer.
    After any sequence of pointer and touch events the stack holds the
    same layers up to order, with the same id, name, image, visibility
    and lock flag, so the number of layers is unchanged and distinct ids
    stay distinct. *)
Theorem X1_gestures_keep_the_layers :
  forall (acts : list Action) (s : State),
    forallb isGesture acts = true ->
    Permutation (map identity (canvasImages (performAll acts s)))
                (map identity (canvasImages s)) /\
    List.length (canvasImages (performAll acts s)) =
    List.length (canvasImages s) /\
    (idsUnique s -> idsUnique (performAll acts s)).
Proof.
  intros acts s Hg.
  assert (Hid : Permutation (map identity (canvasImages (performAll acts s)))
                            (map identity (canvasImages s))).
  { apply gestures_perm; auto. intros r a. apply applyResize_identity. }
  split; [exact Hid|]. split.
  - apply Permutation_length in Hid. rewrite !length_map in Hid. exact Hid.
  - unfold idsUnique. intros Hu.
    apply (Permutation_NoDup (l := map id (canvasImages s))); [|exact Hu].
    symmetry. apply gestures_perm; auto. intros r a. apply applyResize_id.
Qed.

Lemma X1_gesture_witness :
  Permutation
    (map identity (canvasImages (performAll sampleGesture overlapping)))
    (map identity (canvasImages overlapping)) /\
  List.length (canvasImages (performAll sampleGesture overlapping)) =
  List.length (canvasImages overlapping) /\
  (idsUnique overlapping -> idsUnique (performAll sampleGesture overlapping)).
Proof.
  apply (X1_gestures_keep_the_layers sampleGesture overlapping).
  reflexivity.
Defined.

(** X2: the selection always names a layer of the stack.  If the active
    id resolves to a layer before, it does so after any sequence of user
    actions: pointer and touch events, batch insertion, deletion,
    duplication, reordering in the layer list, selection in the list,
    lock and visibility toggles, renaming, adding a generated image and
    clearing the canvas. *)
Theorem X2_selection_resolves_after_every_action :
  forall (acts : list Action) (s : State),
    activeResolves s -> activeResolves (performAll acts s).
Proof.
  intros acts. unfold performAll.
  induction acts as [|a acts IH]; intros s H; simpl; [exact H|].
  apply IH. apply perform_activeResolves. exact H.
Qed.

Lemma X2_selection_witness :
  activeResolves
    (performAll
       (sampleGesture ++
        [actDuplicateActive 5000; actDrop (Some 5000%Z) (Some 1%Z);
         actDeleteActive; actSelect 0; actToggleLock 0])
       overlapping).
Proof.
  apply X2_selection_resolves_after_every_action. exact I.
Defined.

(** X3: a click does not change any layer.  A pointer-down, whatever it
    hits, leaves every layer record as it was: either the stack is
    unchanged, or one visible, unlocked layer that contains the point
    has moved to the end of the stack and the others keep their order.
    After the pointer-up that follows, pointer moves change nothing at
    all. *)
Theorem X3_click_and_hover_change_no_layer :
  forall (s : State) (p : Pos) (qs : list Pos),
    (canvasImages (handleInteractionStart p s) = canvasImages s \/
     exists i L,
       nth_error (canvasImages s) i = Some L /\
       hitRect L p = true /\ isVisible L = true /\ isLocked L = false /\
       canvasImages (handleInteractionStart p s) =
       removeAt i (canvasImages s) ++ [L]) /\
    Permutation (canvasImages (handleInteractionStart p s)) (canvasImages s) /\
    run (pointerDown p :: pointerUp :: map pointerMove qs) s =
    handleInteractionEnd (handleInteractionStart p s) /\
    (isDragging s = false -> isResizing s = false ->
     run (map pointerMove qs) s = s).
Proof.
  intros s p qs. split; [|split; [|split]].
  - destruct (pointer_down_stack s p) as [H|(i & L & Hn & HL & Hl & H)];
      [left; exact H|].
    right. exists i, L. split; [exact Hn|]. split; [exact HL|].
    split; [|split; [exact Hl|exact H]].
    unfold hitRect in HL. destruct (isVisible L); [reflexivity|].
    discriminate HL.
  - pose proof (handleInteractionStart_perm (fun a => a) p s) as H.
    rewrite !map_id in H. exact H.
  - change (run (pointerDown p :: pointerUp :: map pointerMove qs) s)
      with (run (map pointerMove qs)
                (handleInteractionEnd (handleInteractionStart p s))).
    apply moves_without_gesture; reflexivity.
  - apply moves_without_gesture.
Qed.

(** A click on the lower of two layers, the upper one being hidden:
    the clicked layer moves to the end of the stack, and the moves that
    follow the release change nothing. *)
Lemma X3_click_witness :
  canvasImages (handleInteractionStart (mkPos 150 150) hiddenOnTop) =
  [layerHidden; layerA] /\
  run (pointerDown (mkPos 150 150) :: pointerUp
       :: map pointerMove [mkPos 10 10; mkPos 500 500]) hiddenOnTop =
  handleInteractionEnd (handleInteractionStart (mkPos 150 150) hiddenOnTop) /\
  run (map pointerMove [mkPos 10 10; mkPos 500 500]) hiddenOnTop =
  hiddenOnTop.
Proof.
  destruct (X3_click_and_hover_change_no_layer
              hiddenOnTop (mkPos 150 150) [mkPos 10 10; mkPos 500 500])
    as (Hstack & _ & Hclick & Hhover).
  split; [|split; [exact Hclick|exact (Hhover eq_refl eq_refl)]].
  destruct Hstack as [H|(i & L & Hn & HL & _ & _ & H)].
  - discriminate H.
  - rewrite H. destruct i as [|[|i]].
    + injection Hn as <-. reflexivity.
    + injection Hn as <-. discriminate HL.
    + destruct i; discriminate Hn.
Defined.

(** X4: a drag does not drift.  From a state with distinct ids and no
    resize in progress, after a pointer-down on an unlocked layer
    followed by any number of pointer moves, the dragged layer is the
    last of the stack, its position is the last pointer position minus
    the offset recorded at pointer-down, whatever the intermediate
    positions were, its other fields are those it had, and every other
    layer is unchanged and keeps its relative order. *)
Theorem X4_drag_follows_the_last_pointer_position :
  forall (s : State) (i : nat) (L : CanvasImage) (p q : Pos)
         (qs : list Pos),
    isResizing s = false ->
    onActiveHandle p s = false ->
    idsUnique s ->
    nth_error (canvasImages s) i = Some L ->
    hitRect L p = true ->
    (forall j L', (i < j)%nat -> nth_error (canvasImages s) j = Some L' ->
                  hitRect L' p = false) ->
    isLocked L = false ->
    canvasImages
      (run (pointerDown p :: map pointerMove qs ++ [pointerMove q]) s) =
    removeAt i (canvasImages s) ++
    [set_y (py q - (py p - y L)) (set_x (px q - (px p - x L)) L)].
Proof.
  intros s i L p q qs Hr Hh Hu Hn HL Htop Hl.
  destruct (pointer_down_starts_drag s i L p Hr Hh Hu Hn HL Htop Hl)
    as [Hother Hdrag].
  change (run (pointerDown p :: map pointerMove qs ++ [pointerMove q]) s)
    with (run (map pointerMove qs ++ [pointerMove q])
              (handleInteractionStart p s)).
  rewrite run_app.
  pose proof (dragging_moves _ _ _ _ qs _ Hother Hdrag) as Hd.
  exact (proj2 (dragging_move _ _ _ _ _ q Hother Hd)).
Qed.

Lemma X4_drag_witness :
  canvasImages
    (run (pointerDown (mkPos 150 150)
          :: map pointerMove [mkPos 900 20; mkPos 3 700]
          ++ [pointerMove (mkPos 175 190)]) overlapping) =
  [layerA;
   set_y (190 - (150 - 100)) (set_x (175 - (150 - 100)) layerB)].
Proof.
  assert (Hu : idsUnique overlapping).
  { unfold idsUnique. simpl.
    repeat constructor; simpl; intuition discriminate. }
  assert (Htop : forall j L', (1 < j)%nat ->
            nth_error (canvasImages overlapping) j = Some L' ->
            hitRect L' (mkPos 150 150) = false).
  { intros [|[|[|j]]] L' Hj HL'; try lia; discriminate HL'. }
  exact (X4_drag_follows_the_last_pointer_position
           overlapping 1%nat layerB (mkPos 150 150) (mkPos 175 190)
           [mkPos 900 20; mkPos 3 700]
           eq_refl eq_refl Hu eq_refl eq_refl Htop eq_refl).
Defined.

(** X5 (exact arithmetic): an accepted resize is aspect-locked.  When a
    resize move on the unlocked active layer, whose image has positive
    natural size, yields a width and a height above 20, the layer
    afterwards has a width and a height above 20 and the id, name,
    image, visibility and lock flag it had; and, the sums, differences
    and quotients of the handler being read as exact rational
    arithmetic, it has the aspect ratio of its image, the dragged
    corner has the pointer's x coordinate and the opposite corner is
    where it was.  In double precision these three equalities hold up
    to the rounding of each operation only. *)
Theorem X5_accepted_resize_is_aspect_locked :
  forall (s : State) (pos : Pos) (a : CanvasImage) (h : Handle),
    findById (canvasImages s) (activeImageId s) = Some a ->
    isLocked a = false ->
    isResizing s = true ->
    activeHandle s = Some h ->
    0 < naturalWidth (img a) -> 0 < naturalHeight (img a) ->
    aboveFloor (resizeStep a h pos) ->
    exists a',
      findById (canvasImages (handleInteractionMove pos s))
               (activeImageId (handleInteractionMove pos s)) = Some a' /\
      width a' * naturalHeight (img a') == height a' * naturalWidth (img a') /\
      px (cornerOf h a') == px pos /\
      samePos (pinnedCorner h a') (pinnedCorner h a) /\
      20 < width a' /\ 20 < height a' /\
      identity a' = identity a.
Proof.
  intros s pos a h Hf Hl Hr Hh Hnw Hnh Hacc.
  exists (applyResize (resizeStep a h pos) a).
  rewrite (handleInteractionMove_resize s pos a h Hf Hl Hr Hh). simpl.
  pose proof (findById_isActive s a Hf) as Hfind.
  split; [|split; [|split; [|split; [|split; [|split]]]]].
  - unfold findById, isActive in *.
    destruct (activeImageId s) as [k|]; [|discriminate].
    apply find_updateFirst; [exact Hfind|].
    unfold hasId. rewrite applyResize_id.
    apply find_some in Hfind. exact (proj2 Hfind).
  - rewrite (applyResize_accepted _ a Hacc). simpl.
    apply (resizeStep_aspect a h pos Hnw Hnh).
  - destruct (resizeStep_tracks_pointer a h pos) as [H|H];
      [exact H|contradiction].
  - apply resize_accepted_pins_corner. exact Hacc.
  - rewrite (applyResize_accepted _ a Hacc). exact (proj1 Hacc).
  - rewrite (applyResize_accepted _ a Hacc). exact (proj2 Hacc).
  - apply applyResize_identity.
Qed.

Lemma X5_resize_witness :
  exists a',
    findById (canvasImages (handleInteractionMove (mkPos 50 60) nwResize))
             (activeImageId (handleInteractionMove (mkPos 50 60) nwResize)) =
    Some a' /\
    width a' * naturalHeight (img a') == height a' * naturalWidth (img a') /\
    px (cornerOf nw a') == 50 /\
    samePos (pinnedCorner nw a') (pinnedCorner nw layerA) /\
    20 < width a' /\ 20 < height a' /\
    identity a' = identity layerA.
Proof.
  apply (X5_accepted_resize_is_aspect_locked
           nwResize (mkPos 50 60) layerA nw);
    try reflexivity.
  split; reflexivity.
Defined.

(** X6: the handle test.  A handle is reported only for a point within
    12 logical pixels, in both coordinates, of that corner of the layer;
    a point within 12 pixels of some corner always gets a handle; and
    when the layer is more than 24 wide and more than 24 high the handle
    reported is the corner the point is near. *)
Theorem X6_handle_hit_boxes :
  forall (image : CanvasImage) (xx yy : Q),
    (forall h, getHandleAtPos image xx yy = Some h ->
               nearHandle (cornerOf h image) (mkPos xx yy)) /\
    (getHandleAtPos image xx yy = None <->
     forall h, ~ nearHandle (cornerOf h image) (mkPos xx yy)) /\
    (24 < width image -> 24 < height image ->
     forall h, nearHandle (cornerOf h image) (mkPos xx yy) ->
               getHandleAtPos image xx yy = Some h).
Proof.
  intros image xx yy. split; [|split].
  - intros h. apply getHandleAtPos_sound.
  - apply getHandleAtPos_none.
  - intros Hw Hh h. apply getHandleAtPos_exact; assumption.
Qed.

Lemma X6_handle_witness :
  getHandleAtPos layerA 310 95 = Some ne.
Proof.
  destruct (X6_handle_hit_boxes layerA 310 95) as (_ & _ & Hexact).
  apply Hexact; try reflexivity.
  unfold nearHandle. simpl. repeat split; discriminate.
Defined.



(** X8: the cursor that a mouse-move sets announces what a pointer-down
    at that position does next.  In the state the mouse-move leaves:
    where it sets [grab], a pointer-down starts a drag of an unlocked
    layer under the pointer, which becomes the selection and the top of
    the stack; where it sets a resize cursor, a pointer-down starts a
    resize with a handle on that diagonal and leaves the stack and the
    selection alone; where it sets the default cursor, a pointer-down
    clears the selection and starts nothing.  Only the cursor of the
    last mouse-move announces anything: a pointer-down leaves the
    cursor as it is, and a pointer-up resets it to the default cursor
    whatever lies under the pointer. *)
Theorem X8_cursor_set_by_move_announces_pointer_down :
  forall (v : Screen) (pos : Pos),
    let v1 := mouseStep v (mouseMove pos) in
    let s := editor v1 in
    let s' := editor (mouseStep v1 (mouseDown pos)) in
    s = step (editor v) (pointerMove pos) /\
    s' = handleInteractionStart pos s /\
    (cursor v1 = cursorGrab ->
     isDragging s' = true /\
     exists i L,
       nth_error (canvasImages s) i = Some L /\
       hitRect L pos = true /\ isLocked L = false /\
       activeImageId s' = Some (id L) /\
       canvasImages s' = removeAt i (canvasImages s) ++ [L]) /\
    (forall c,
        cursor v1 = c ->
        c = cursorNwseResize \/ c = cursorNeswResize ->
        isResizing s' = true /\
        (exists h, activeHandle s' = Some h /\ diagonalCursor h = c) /\
        canvasImages s' = canvasImages s /\
        activeImageId s' = activeImageId s) /\
    (cursor v1 = cursorDefault ->
     activeImageId s' = None /\
     canvasImages s' = canvasImages s /\
     isDragging s' = false) /\
    cursor (mouseStep v1 (mouseDown pos)) = cursor v1 /\
    cursor (mouseStep v mouseUp) = cursorDefault /\
    editor (mouseStep v mouseUp) = handleInteractionEnd (editor v).
Proof.
  intros v pos. unfold mouseStep, handleCanvasMouseMove. simpl.
  split; [reflexivity|]. split; [reflexivity|].
  destruct (cursorAt_announces (step (editor v) (pointerMove pos)) pos)
    as (Hgrab & Hresize & Hdefault).
  split; [exact Hgrab|]. split; [exact Hresize|].
  split; [exact Hdefault|]. repeat split.
Qed.

(** Over two overlapping layers the move to (150, 150) sets [grab] and
    the pointer-down that follows drags; after the release the cursor
    is the default one although the pointer is still over a layer; the
    move to (700, 700) sets the default cursor and the pointer-down
    there clears the selection. *)
Lemma X8_cursor_witness :
  cursor (mouseStep overlappingScreen (mouseMove (mkPos 150 150))) =
  cursorGrab /\
  isDragging
    (editor (mouseStep (mouseStep overlappingScreen
                                  (mouseMove (mkPos 150 150)))
                       (mouseDown (mkPos 150 150)))) = true /\
  cursor (mouseStep overlappingScreen mouseUp) = cursorDefault /\
  cursor (mouseStep overlappingScreen (mouseMove (mkPos 700 700))) =
  cursorDefault /\
  activeImageId
    (editor (mouseStep (mouseStep overlappingScreen
                                  (mouseMove (mkPos 700 700)))
                       (mouseDown (mkPos 700 700)))) = None.
Proof.
  destruct (X8_cursor_set_by_move_announces_pointer_down
              overlappingScreen (mkPos 150 150))
    as (_ & _ & Hgrab & _ & _ & _ & Hup & _).
  destruct (X8_cursor_set_by_move_announces_pointer_down
              overlappingScreen (mkPos 700 700))
    as (_ & _ & _ & _ & Hdef & _).
  split; [reflexivity|]. split; [exact (proj1 (Hgrab eq_refl))|].
  split; [exact Hup|].
  split; [reflexivity|]. exact (proj1 (Hdef eq_refl)).
Defined.

(** X9: the coordinate mapping sends the displayed canvas onto the
    logical canvas and does not depend on where or how large the canvas
    is displayed.  For a displayed rectangle of positive size, a pointer
    inside it is mapped to a point between (0, 0) and the logical size;
    and displaying the canvas at another place, scaled by any positive
    factor, maps the corresponding pointer position to the same logical
    point. *)
Theorem X9_pointer_mapping_is_scale_independent :
  forall (rect : DOMRect) (clientX clientY : Q) (s : State),
    0 < rectWidth rect -> 0 < rectHeight rect ->
    (0 <= canvasWidth s -> 0 <= canvasHeight s ->
     rectLeft rect <= clientX -> clientX <= rectLeft rect + rectWidth rect ->
     rectTop rect <= clientY -> clientY <= rectTop rect + rectHeight rect ->
     0 <= px (getMousePos rect clientX clientY s) /\
     px (getMousePos rect clientX clientY s) <= canvasWidth s /\
     0 <= py (getMousePos rect clientX clientY s) /\
     py (getMousePos rect clientX clientY s) <= canvasHeight s) /\
    (forall (k left' top' : Q),
        0 < k ->
        samePos
          (getMousePos
             (mkRect left' top' (k * rectWidth rect) (k * rectHeight rect))
             (left' + k * (clientX - rectLeft rect))
             (top' + k * (clientY - rectTop rect)) s)
          (getMousePos rect clientX clientY s)).
Proof.
  intros rect cx cy s Hw Hh. split.
  - intros HW HH Hl Hr Ht Hb. unfold getMousePos. simpl.
    destruct (scale_within (cx - rectLeft rect) (rectWidth rect)
                (canvasWidth s) Hw HW) as [H1 H2]; try lra.
    destruct (scale_within (cy - rectTop rect) (rectHeight rect)
                (canvasHeight s) Hh HH) as [H3 H4]; lra.
  - intros k l' t' Hk. unfold samePos, getMousePos. simpl.
    split; field; lra.
Qed.

Lemma X9_mapping_witness :
  0 <= px (getMousePos displayRect 296 188 overlapping) /\
  px (getMousePos displayRect 296 188 overlapping) <= 1024 /\
  0 <= py (getMousePos displayRect 296 188 overlapping) /\
  py (getMousePos displayRect 296 188 overlapping) <= 1024.
Proof.
  destruct (X9_pointer_mapping_is_scale_independent
              displayRect 296 188 overlapping) as [Hin _];
    try reflexivity.
  apply Hin; discriminate.
Defined.

(** * Further properties of the layer stack *)

(** X10 (exact arithmetic): a layer is created inside the canvas and is
    never enlarged.  For an image of positive natural size and a canvas
    of positive size, the load handler of a batch and the add-to-canvas
    handler of the output view both append one visible, unlocked layer
    that becomes the selection; an image that is neither wider nor
    higher than the canvas keeps its natural size; the layer is placed
    at half the remaining space, shifted by 20 logical pixels per batch
    index.  The products and quotients of the two handlers being read
    as exact rational arithmetic, the size of the layer is positive, at
    most the canvas size and at most the natural size of the image, it
    has the aspect ratio of the image, and the first layer of a batch
    and a generated image lie entirely within the canvas.  In double
    precision these bounds and the aspect ratio hold up to the rounding
    of each operation only. *)
Theorem X10_new_layer_fits_the_canvas :
  forall (now : Z) (index : nat) (fname : jsstring)
         (image : HTMLImageElement) (s : State),
    0 < naturalWidth image -> 0 < naturalHeight image ->
    0 < canvasWidth s -> 0 < canvasHeight s ->
    (exists L,
        canvasImages (imageLoaded now index fname image s) =
        canvasImages s ++ [L] /\
        activeImageId (imageLoaded now index fname image s) = Some (id L) /\
        id L = (now + Z.of_nat index)%Z /\ name L = fname /\
        placedWithin s image L /\
        x L = (canvasWidth s - width L) / 2
              + inject_Z (Z.of_nat index) * 20 /\
        y L = (canvasHeight s - height L) / 2
              + inject_Z (Z.of_nat index) * 20 /\
        (index = 0%nat -> insideCanvas s L) /\
        (naturalWidth image <= canvasWidth s ->
         naturalHeight image <= canvasHeight s ->
         size L = (naturalWidth image, naturalHeight image))) /\
    (exists L,
        canvasImages (addGeneratedImage true now image s) =
        canvasImages s ++ [L] /\
        activeImageId (addGeneratedImage true now image s) = Some (id L) /\
        id L = now /\ name L = lit "Generated Image" /\
        placedWithin s image L /\
        x L = (canvasWidth s - width L) / 2 /\
        y L = (canvasHeight s - height L) / 2 /\
        insideCanvas s L /\
        (naturalWidth image <= canvasWidth s ->
         naturalHeight image <= canvasHeight s ->
         size L = (naturalWidth image, naturalHeight image))).
Proof.
  intros now index fname image s Hnw Hnh Hcw Hch.
  pose proof (fitToCanvas_fits image _ _ Hnw Hnh Hcw Hch)
    as (H1 & H2 & H3 & H4 & H5 & H6 & H7).
  pose proof (fun k xx yy =>
    placedWithin_fit s image fname k xx yy Hnw Hnh Hcw Hch) as Hp.
  pose proof (fun k xx yy =>
    placedWithin_fit s image (lit "Generated Image") k xx yy
                     Hnw Hnh Hcw Hch) as Hg.
  unfold imageLoaded, addGeneratedImage.
  pose proof (fitToCanvas_small image (canvasWidth s) (canvasHeight s))
    as Hsmall.
  destruct (fitToCanvas image (canvasWidth s) (canvasHeight s)) as [w h].
  simpl in *. split.
  - eexists. split; [reflexivity|]. simpl.
    split; [reflexivity|]. split; [reflexivity|]. split; [reflexivity|].
    split; [apply Hp|]. split; [reflexivity|]. split; [reflexivity|].
    split.
    + intros ->. unfold insideCanvas. simpl.
      assert (Hz : inject_Z 0 * 20 == 0) by reflexivity.
      rewrite !Hz, !Qhalf. repeat split; lra.
    + intros Hw Hh. unfold size. simpl. exact (Hsmall Hw Hh).
  - eexists. split; [reflexivity|]. simpl.
    split; [reflexivity|]. split; [reflexivity|]. split; [reflexivity|].
    split; [apply Hg|]. split; [reflexivity|]. split; [reflexivity|].
    split.
    + unfold insideCanvas. simpl. rewrite !Qhalf. repeat split; lra.
    + intros Hw Hh. unfold size. simpl. exact (Hsmall Hw Hh).
Qed.

(** A generated 2000 x 1000 image on the 1024 x 1024 canvas is scaled
    to fit, centred and inside the canvas. *)
Lemma X10_banner_witness :
  exists L,
    canvasImages (addGeneratedImage true 7000 banner overlapping) =
    canvasImages overlapping ++ [L] /\
    activeImageId (addGeneratedImage true 7000 banner overlapping) =
    Some (id L) /\
    id L = 7000%Z /\ name L = lit "Generated Image" /\
    placedWithin overlapping banner L /\
    x L = (canvasWidth overlapping - width L) / 2 /\
    y L = (canvasHeight overlapping - height L) / 2 /\
    insideCanvas overlapping L /\
    (naturalWidth banner <= canvasWidth overlapping ->
     naturalHeight banner <= canvasHeight overlapping ->
     size L = (naturalWidth banner, naturalHeight banner)).
Proof.
  destruct (X10_new_layer_fits_the_canvas
              7000 0 (lit "banner.png") banner overlapping) as [_ H];
    try reflexivity.
  exact H.
Defined.

(** X11: a batch only appends.  Whatever the order and the clock
    readings of the load events, [addImagesToCanvas] leaves the layers
    already in the stack in place and appends, in completion order, one
    visible, unlocked layer per load event of a file that decodes, with
    the id clock + batch index; the last of them becomes the selection,
    and if none loads the selection is unchanged.  An empty batch
    changes nothing, not even the canvas size. *)
Theorem X11_batch_insertion_appends :
  forall (menu : Q * Q) (files : list File) (completions : list (nat * Z))
         (s : State),
    let s' := addImagesToCanvas menu files completions s in
    (exists news,
        canvasImages s' = canvasImages s ++ news /\
        map id news =
        map (fun c => (snd c + Z.of_nat (fst c))%Z)
            (filter (decodes files) completions) /\
        Forall newLayer news) /\
    activeImageId s' =
    match rev (filter (decodes files) completions) with
    | c :: _ => Some (snd c + Z.of_nat (fst c))%Z
    | [] => activeImageId s
    end /\
    (files = [] -> s' = s).
Proof.
  intros menu files cs s s'. subst s'. unfold addImagesToCanvas.
  destruct files as [|f files].
  - assert (Hnone : filter (decodes []) cs = []).
    { induction cs as [|c cs IH]; simpl; [reflexivity|].
      unfold decodes at 1. destruct (fst c); simpl; exact IH. }
    rewrite Hnone. simpl. split; [|auto].
    exists []. rewrite app_nil_r. repeat split. constructor.
  - set (s1 := if Qeq_bool (canvasWidth s) 0 || Qeq_bool (canvasHeight s) 0
               then setupCanvasDimensions menu s else s).
    assert (Hi : canvasImages s1 = canvasImages s)
      by (subst s1; destruct (_ || _); reflexivity).
    assert (Ha : activeImageId s1 = activeImageId s)
      by (subst s1; destruct (_ || _); reflexivity).
    destruct (completions_append (f :: files) cs s1)
      as (news & Hc & Hid & Hnew & _).
    split; [|split; [|discriminate]].
    + exists news. rewrite Hc, Hi. auto.
    + rewrite completions_active, Ha. reflexivity.
Qed.

(** X12: duplication puts the copy directly above its source.  When a
    layer has the given id, the stack after [duplicateLayer] is the
    stack before with one layer inserted immediately after the first
    layer that has the id; the copy has the clock reading as id, the
    name with " copy" appended, the position shifted by (20, 20) and the
    same image, size, visibility and lock flag, and it is the selection.
    When no layer has the id nothing changes. *)
Theorem X12_duplicate_inserts_copy_after_source :
  forall (now k : Z) (s : State),
    (forall source,
        find (hasId k) (canvasImages s) = Some source ->
        exists l1 l2,
          canvasImages s = l1 ++ source :: l2 /\
          (forall b, In b l1 -> id b <> k) /\
          canvasImages (duplicateLayer now k s) =
          l1 ++ source :: copyOf now source :: l2 /\
          activeImageId (duplicateLayer now k s) = Some now) /\
    (~ In k (map id (canvasImages s)) -> duplicateLayer now k s = s).
Proof.
  intros now k s. split.
  - intros source Hf.
    destruct (duplicateLayer_places now k s source Hf)
      as (l1 & l2 & Hi & Hl1 & Hd).
    exists l1, l2. rewrite Hd. auto.
  - intros Hk. unfold duplicateLayer.
    destruct (find (hasId k) (canvasImages s)) as [a|] eqn:Ef; [|reflexivity].
    exfalso. apply find_some in Ef. destruct Ef as [Hin Hid].
    apply Hk. apply Z.eqb_eq in Hid. rewrite <- Hid. apply in_map. exact Hin.
Qed.

Lemma X12_duplicate_witness :
  exists l1 l2,
    canvasImages overlapping = l1 ++ layerA :: l2 /\
    (forall b, In b l1 -> id b <> 1%Z) /\
    canvasImages (duplicateLayer 5000 1 overlapping) =
    l1 ++ layerA :: copyOf 5000 layerA :: l2 /\
    activeImageId (duplicateLayer 5000 1 overlapping) = Some 5000%Z.
Proof.
  destruct (X12_duplicate_inserts_copy_after_source 5000 1 overlapping)
    as [H _].
  exact (H layerA eq_refl).
Defined.



(** X14: deletion removes every layer that has the id and nothing else.
    After [deleteLayer] a layer is in the stack exactly when it was
    there before and has another id, the selection is never the deleted
    id and is kept when it was another one; deleting twice is the same
    as deleting once, and deleting an id that no layer and no selection
    has changes nothing. *)
Theorem X14_delete_removes_exactly_the_id :
  forall (k : Z) (s : State),
    (forall L, In L (canvasImages (deleteLayer k s)) <->
               In L (canvasImages s) /\ id L <> k) /\
    activeImageId (deleteLayer k s) <> Some k /\
    (activeImageId s <> Some k ->
     activeImageId (deleteLayer k s) = activeImageId s) /\
    deleteLayer k (deleteLayer k s) = deleteLayer k s /\
    (~ In k (map id (canvasImages s)) -> activeImageId s <> Some k ->
     deleteLayer k s = s).
Proof.
  intros k s. split; [intros L; apply deleteLayer_removes|].
  destruct (deleteLayer_active k s) as [H1 H2].
  split; [exact H1|]. split; [exact H2|].
  split; [apply deleteLayer_idempotent|apply deleteLayer_absent].
Qed.

Lemma X14_delete_witness :
  deleteLayer 9 overlapping = overlapping.
Proof.
  destruct (X14_delete_removes_exactly_the_id 9 overlapping)
    as (_ & _ & _ & _ & H).
  apply H; unfold overlapping; simpl;
    [intros [E|[E|[]]]; discriminate E|discriminate].
Defined.

(** X15: reordering in the layer list moves one layer and loses none.
    With distinct ids, dropping the item of a layer onto the item of
    another layer yields a permutation of the stack with distinct ids
    and the same selection, in which the other layers keep their
    relative order and the dragged layer sits immediately after the
    target.  If no layer has the target id the dragged layer goes to
    the bottom of the stack. *)
Theorem X15_list_reorder_moves_one_layer :
  forall (d t : Z) (s : State) (D : CanvasImage),
    idsUnique s ->
    find (hasId d) (canvasImages s) = Some D ->
    d <> t ->
    let s' := dropOnLayerList (Some d) (Some t) s in
    Permutation (canvasImages s') (canvasImages s) /\
    idsUnique s' /\
    activeImageId s' = activeImageId s /\
    filter (otherThan d) (canvasImages s') =
    filter (otherThan d) (canvasImages s) /\
    (forall T, find (hasId t) (canvasImages s) = Some T ->
               exists m1 m2,
                 filter (otherThan d) (canvasImages s) = m1 ++ T :: m2 /\
                 canvasImages s' = m1 ++ T :: D :: m2) /\
    (~ In t (map id (canvasImages s)) ->
     canvasImages s' = D :: filter (otherThan d) (canvasImages s)).
Proof.
  intros d t s D Hu Hf Hdt s'.
  destruct (dropOnLayerList_moves d t s D Hu Hf Hdt)
    as (items & Hitems & Hperm & Hnod & Hs').
  assert (HD : hasId d D = true) by (apply (find_some _ _ Hf)).
  assert (Hp : Permutation (canvasImages s') (canvasImages s)).
  { subst s'. rewrite Hs', <- Hperm. apply insertAt_perm. }
  split; [exact Hp|]. split; [|split; [apply dropOnLayerList_active|]].
  - unfold idsUnique.
    apply (Permutation_NoDup (l := map id (canvasImages s))); [|exact Hu].
    apply Permutation_map. symmetry. exact Hp.
  - split; [|split].
    + subst s'. rewrite Hs', <- Hitems.
      apply insertAt_filter_out; assumption.
    + intros T HT. rewrite <- Hitems.
      assert (HTitems : find (hasId t) items = Some T).
      { destruct (find_split _ _ _ HT) as (l1 & l2 & Hi & Hl1 & HtT).
        rewrite Hitems, Hi. unfold otherThan. rewrite filter_app. simpl.
        assert (HdT : hasId d T = false).
        { unfold hasId in *. apply Z.eqb_eq in HtT. apply Z.eqb_neq.
          congruence. }
        rewrite HdT. simpl.
        assert (Hnone : forall b, In b (filter (fun i => negb (hasId d i)) l1)
                                  -> hasId t b = false).
        { intros b Hb. apply filter_In in Hb. apply Hl1. tauto. }
        revert Hnone. generalize (filter (fun i => negb (hasId d i)) l1).
        intros m Hm. induction m as [|b m IH]; simpl.
        - rewrite HtT. reflexivity.
        - rewrite (Hm b (or_introl eq_refl)). apply IH.
          intros c Hc. apply Hm. right. exact Hc. }
      destruct (find_split _ _ _ HTitems) as (m1 & m2 & Hm & Hm1 & HtT).
      exists m1, m2. split; [exact Hm|].
      subst s'. rewrite Hs'. unfold findIndex.
      rewrite Hm, (findIndexFrom_split _ _ _ _ _ Hm1 HtT).
      replace (Z.to_nat (0 + Z.of_nat (List.length m1) + 1))
        with (S (List.length m1)) by lia.
      apply insertAt_after.
    + intros Ht. subst s'. rewrite Hs', <- Hitems. unfold findIndex.
      rewrite findIndexFrom_absent; [reflexivity|].
      intros b Hb. unfold hasId. apply Z.eqb_neq. intros E. apply Ht.
      rewrite <- E. apply in_map. rewrite Hitems in Hb.
      apply filter_In in Hb. tauto.
Qed.

Lemma X15_reorder_witness :
  Permutation (canvasImages (dropOnLayerList (Some 2%Z) (Some 1%Z)
                               (idle [layerB; layerA; layerHidden] None)))
              [layerB; layerA; layerHidden] /\
  canvasImages (dropOnLayerList (Some 2%Z) (Some 1%Z)
                  (idle [layerB; layerA; layerHidden] None)) =
  [layerA; layerB; layerHidden].
Proof.
  assert (Hu : idsUnique (idle [layerB; layerA; layerHidden] None)).
  { unfold idsUnique. simpl.
    repeat constructor; simpl; intuition discriminate. }
  destruct (X15_list_reorder_moves_one_layer
              2 1 (idle [layerB; layerA; layerHidden] None) layerB
              Hu eq_refl ltac:(discriminate))
    as (Hp & _ & _ & _ & Hafter & _).
  split; [exact Hp|].
  destruct (Hafter layerA eq_refl) as (m1 & m2 & Hm & Hs).
  rewrite Hs. simpl in Hm.
  destruct m1 as [|b m1]; simpl in Hm.
  - injection Hm as <-. reflexivity.
  - injection Hm as <- Hm. destruct m1 as [|b m1]; simpl in Hm.
    + injection Hm as E _. discriminate E.
    + injection Hm as _ Hm. destruct m1; discriminate Hm.
Defined.

Lemma X11_batch_witness :
  activeImageId
    (addImagesToCanvas (1024, 1024) twoFiles
       [(1%nat, 1000%Z); (0%nat, 1001%Z)] overlapping) = Some 1001%Z.
Proof.
  destruct (X11_batch_insertion_appends (1024, 1024) twoFiles
              [(1%nat, 1000%Z); (0%nat, 1001%Z)] overlapping)
    as (_ & Ha & _).
  exact Ha.
Defined.

(** * Requests and responses *)

(** X16: once a response has been processed the output view shows
    exactly one of the image and the text.  [processGeminiResponse]
    throws exactly when the response has a first candidate without
    content; the outputs are then cleared and both containers hidden,
    and the [catch] block of [handleGenerateClick] shows the text
    [An error occurred: ] followed by the message of the error, with the
    image hidden.  When it returns, the text container is hidden exactly
    when the image container is shown; the image is shown exactly when
    the first candidate has a part with inline data, and then the image
    source and the stored data URL are the URL built from the last such
    part; otherwise no URL is stored and the text shown is never empty
    or blank; the output view leaves such a panel as it is.  In both
    cases the panel that is finally displayed shows one of the two
    containers, and a text that is not blank when the image is
    hidden. *)
Theorem X16_response_shows_image_or_text :
  forall (response : GenerateContentResponse) (message : jsstring),
    let result := processGeminiResponse response in
    let panel := fst (fst result) in
    let source := snd (fst result) in
    let shown := afterResponse message result in
    (snd result = thrown <-> exists rest, response = Some (None :: rest)) /\
    (snd result = thrown ->
     panel = mkOutputPanel [] true true None /\ source = [] /\
     shown = mkOutputPanel (lit "An error occurred: " ++ message)
                           false true None) /\
    (snd result = returned ->
     textOutputHidden panel = negb (imageOutputHidden panel) /\
     (imageOutputHidden panel = false <->
      exists parts rest,
        response = Some (Some parts :: rest) /\
        existsb hasInline parts = true) /\
     (imageOutputHidden panel = false ->
      lastGeneratedImageDataUrl panel = Some source) /\
     (imageOutputHidden panel = true ->
      lastGeneratedImageDataUrl panel = None /\ source = [] /\
      blank (textOutput panel) = false) /\
     (forall parts rest pre part post data mimeType,
         response = Some (Some parts :: rest) ->
         parts = pre ++ part :: post ->
         inlineData part = Some (data, mimeType) ->
         (forall p, In p post -> inlineData p = None) ->
         source = dataUrl mimeType data) /\
     shown = panel) /\
    textOutputHidden shown = negb (imageOutputHidden shown) /\
    (imageOutputHidden shown = true -> blank (textOutput shown) = false).
Proof.
  intros response message.
  assert (Hempty : forall r : GenerateContentResponse,
             (forall c rest, r <> Some (c :: rest)) ->
             let result : OutputPanel * jsstring * Completion :=
               (mkOutputPanel invalidResponseMessage false true None, [],
                returned) in
             let panel := fst (fst result) in
             let source := snd (fst result) in
             let shown := afterResponse message result in
             (snd result = thrown <-> exists rest, r = Some (None :: rest)) /\
             (snd result = thrown ->
              panel = mkOutputPanel [] true true None /\ source = [] /\
              shown = mkOutputPanel (lit "An error occurred: " ++ message)
                                    false true None) /\
             (snd result = returned ->
              textOutputHidden panel = negb (imageOutputHidden panel) /\
              (imageOutputHidden panel = false <->
               exists parts rest,
                 r = Some (Some parts :: rest) /\
                 existsb hasInline parts = true) /\
              (imageOutputHidden panel = false ->
               lastGeneratedImageDataUrl panel = Some source) /\
              (imageOutputHidden panel = true ->
               lastGeneratedImageDataUrl panel = None /\ source = [] /\
               blank (textOutput panel) = false) /\
              (forall parts rest pre part post data mimeType,
                  r = Some (Some parts :: rest) ->
                  parts = pre ++ part :: post ->
                  inlineData part = Some (data, mimeType) ->
                  (forall p, In p post -> inlineData p = None) ->
                  source = dataUrl mimeType data) /\
              shown = panel) /\
             textOutputHidden shown = negb (imageOutputHidden shown) /\
             (imageOutputHidden shown = true ->
              blank (textOutput shown) = false)).
  { intros r Hr. simpl.
    split; [split; [discriminate|]|].
    { intros (rest & E). exact (False_ind _ (Hr _ _ E)). }
    split; [discriminate|].
    split; [|split; [reflexivity|intros _; reflexivity]].
    intros _. split; [reflexivity|].
    split; [split; [discriminate|]|].
    { intros (c & rest & E & _). exact (False_ind _ (Hr _ _ E)). }
    split; [discriminate|].
    split; [intros _; split; [|split]; reflexivity|].
    split; [|reflexivity].
    intros c rest pre part post d m E. exact (False_ind _ (Hr _ _ E)). }
  destruct response as [[|[parts|] rest]|];
    [apply Hempty; discriminate| | |apply Hempty; discriminate];
    clear Hempty.
  - cbv zeta.
    destruct (processGeminiResponse _) as [[panel source] completion] eqn:E.
    pose proof (processGeminiResponse_parts parts rest _ (eq_sym E)) as Hp.
    cbn [fst snd] in *.
    destruct Hp as (Hr & Ht & Hi & Hu & Hn & Hl & Hs).
    subst completion. cbn [afterResponse]. rewrite Hs.
    split; [split; [discriminate|]|].
    { intros (r & Er). discriminate Er. }
    split; [discriminate|].
    split; [|split; [exact Ht|]].
    + intros _. split; [exact Ht|].
      split; [|split; [exact Hu|split; [exact Hn|split; [|reflexivity]]]].
      * rewrite Hi. split.
        -- intros H. exists parts, rest. split; [reflexivity|exact H].
        -- intros (c & r & [= <- _] & H). exact H.
      * intros c r pre part post d m [= <- _]. apply Hl.
    + intros H. exact (proj2 (proj2 (Hn H))).
  - simpl.
    split; [split; [intros _; exists rest; reflexivity|reflexivity]|].
    split; [intros _; split; [|split]; reflexivity|].
    split; [discriminate|].
    split; [reflexivity|intros _; reflexivity].
Qed.

(** A response with a text part, two image parts and a blank text part
    shows the second image; a response whose first candidate has no
    content ends with the error text shown and the image hidden. *)
Lemma X16_response_witness :
  imageOutputHidden (fst (fst (processGeminiResponse sampleResponse))) =
  false /\
  snd (fst (processGeminiResponse sampleResponse)) =
  dataUrl (lit "image/jpeg") (lit "BBBB") /\
  afterResponse (lit "no parts") (processGeminiResponse blockedResponse) =
  mkOutputPanel (lit "An error occurred: no parts") false true None.
Proof.
  destruct (X16_response_shows_image_or_text sampleResponse [])
    as (_ & _ & Hret & _).
  destruct (Hret eq_refl) as (_ & Hshown & _ & _ & Hlast & _).
  destruct (X16_response_shows_image_or_text blockedResponse (lit "no parts"))
    as (_ & Hthrown & _).
  split; [|split].
  - apply Hshown. exists sampleParts, []. split; reflexivity.
  - apply (Hlast
             sampleParts []
             [ mkResponsePart None (Some (lit "Here is your picture."));
               mkResponsePart (Some (lit "AAAA", lit "image/png")) None ]
             (mkResponsePart (Some (lit "BBBB", lit "image/jpeg")) None)
             [ mkResponsePart None (Some (lit " ")) ]
             (lit "BBBB") (lit "image/jpeg"));
      try reflexivity.
    intros p [<-|[]]. reflexivity.
  - exact (proj2 (proj2 (Hthrown eq_refl))).
Defined.

Section GenerationProperties.

Variable resolutionSentence : Q -> Q -> jsstring.

(** X17: every image sent in generation mode has the target resolution.
    [generateWithGemini] returns early, with no request, exactly when
    there is no reference file and the joined prompt is blank.  When it
    sends a request, the parts are one image per reference file, or one
    blank canvas if there is none, followed by one text part, and every
    image is a PNG canvas of exactly the target width and height.  With
    a 2D context and reference files that all decode, the request is
    sent. *)
Theorem X17_generation_images_have_target_resolution :
  forall (hasContext : bool) (referenceFiles : list File)
         (prompts : Prompts) (resolutionMatch : option (Q * Q))
         (aspectRatio : jsstring) (out : OutputPanel),
    let userPrompt :=
      joinWith (lit ", ") (filter truthy (promptFields prompts)) in
    let wh := targetResolution resolutionMatch aspectRatio in
    let outcome :=
      snd (generateWithGemini resolutionSentence hasContext referenceFiles
             prompts resolutionMatch aspectRatio out) in
    (outcome = returnedEarly <->
     referenceFiles = [] /\ blank userPrompt = true) /\
    (forall parts,
        outcome = requested parts ->
        exists images t,
          parts = images ++ [textPart t] /\
          Forall (imagePartOfSize (fst wh) (snd wh)) images /\
          List.length images = Nat.max 1 (List.length referenceFiles)) /\
    (referenceFiles = [] -> blank userPrompt = false ->
     exists t,
       outcome =
       requested [canvasPart (createBlankCanvas (fst wh) (snd wh))
                             (lit "image/png"); textPart t]) /\
    (hasContext = true ->
     Forall (fun f => decoded f <> None) referenceFiles ->
     referenceFiles <> [] ->
     exists parts, outcome = requested parts).
Proof.
  intros hasContext refs prompts m ar out userPrompt wh outcome.
  subst outcome. unfold generateWithGemini. fold userPrompt.
  rewrite truthy_trim, negb_involutive. fold wh.
  destruct wh as [w h] eqn:Ewh. simpl fst. simpl snd.
  destruct refs as [|f refs].
  - simpl. destruct (blank userPrompt) eqn:Eb; simpl.
    + split; [split; auto|]. split; [discriminate|].
      split; [discriminate|]. intros _ _ H. contradiction.
    + split; [split; [discriminate|intros [_ H]; discriminate]|].
      split.
      * intros parts [= <-]. eexists [_]. eexists. split; [reflexivity|].
        split; [|reflexivity]. repeat constructor. eexists. repeat split.
      * split; [intros _ _; eexists; reflexivity|].
        intros _ _ H. contradiction.
  - rewrite andb_false_r.
    change (0 <? List.length (f :: refs))%nat with true. cbv iota.
    destruct (normalizeAll hasContext (f :: refs) w h) as [parts|] eqn:En.
    + simpl. split; [split; [discriminate|intros [H _]; discriminate]|].
      split.
      * intros ps [= <-]. eexists parts. eexists. split; [reflexivity|].
        destruct (normalizeAll_parts _ _ _ _ _ En) as [Hl Hf].
        split; [exact Hf|]. rewrite Hl. simpl. reflexivity.
      * split; [discriminate|]. intros _ _ _. eexists. reflexivity.
    + simpl. split; [split; [discriminate|intros [H _]; discriminate]|].
      split; [discriminate|]. split; [discriminate|].
      intros -> Hdec _.
      destruct (normalizeAll_succeeds (f :: refs) w h Hdec) as [ps Hps].
      congruence.
Qed.

End GenerationProperties.

Lemma X17_generation_witness :
  exists parts,
    snd (generateWithGemini (fun _ _ => lit "Exactly this size.") true
           [pngFile "banner.png" banner; pngFile "thumb.png" thumbnail]
           (mkPrompts [] [] [] []) None (lit "4:3")
           (mkOutputPanel [] true true None)) = requested parts.
Proof.
  destruct (X17_generation_images_have_target_resolution
              (fun _ _ => lit "Exactly this size.") true
              [pngFile "banner.png" banner; pngFile "thumb.png" thumbnail]
              (mkPrompts [] [] [] []) None (lit "4:3")
              (mkOutputPanel [] true true None)) as (_ & _ & _ & H).
  apply H; [reflexivity| |discriminate].
  repeat constructor; discriminate.
Defined.

(** X18: the prompt guard of [generateImage].  The four prompt fields
    are joined, skipping the empty ones, and the request is refused with
    a message exactly when the joined prompt is blank: when every field
    is empty, or when the only non-empty field is white space.  As soon
    as two fields are non-empty the prompt is sent, even if both are
    white space only; a prompt that is sent is never blank. *)
Theorem X18_prompt_guard_rejects_only_blank_prompts :
  forall (prompts : Prompts) (out : OutputPanel),
    let fields := filter truthy (promptFields prompts) in
    let sent := snd (generateImage prompts out) in
    (sent = None <->
     fields = [] \/ exists a, fields = [a] /\ blank a = true) /\
    (sent = None ->
     fst (generateImage prompts out) =
     mkOutputPanel noDetailsMessage false true None) /\
    (forall a b rest,
        fields = a :: b :: rest ->
        sent = Some (joinWith (lit ", ") fields)) /\
    (forall p, sent = Some p ->
               p = joinWith (lit ", ") fields /\ blank p = false).
Proof.
  intros prompts out fields sent. subst sent. unfold generateImage.
  fold fields. rewrite truthy_trim, negb_involutive.
  pose proof (prompt_blank (promptFields prompts)) as Hb. fold fields in Hb.
  destruct (blank (joinWith (lit ", ") fields)) eqn:E; simpl.
  - split; [split; [intros _; apply Hb; reflexivity|reflexivity]|].
    split; [reflexivity|]. split; [|discriminate].
    intros a b rest Hf. rewrite Hf, joinWith_two_blank in E. discriminate.
  - split; [split; [discriminate|]|].
    + intros H. apply Hb in H. discriminate.
    + split; [discriminate|]. split; [reflexivity|].
      intros p [= <-]. auto.
Qed.

Lemma X18_two_blank_fields_witness :
  snd (generateImage (mkPrompts (lit " ") [] (lit "  ") [])
                     (mkOutputPanel [] true true None)) =
  Some (lit " ,   ").
Proof.
  destruct (X18_prompt_guard_rejects_only_blank_prompts
              (mkPrompts (lit " ") [] (lit "  ") [])
              (mkOutputPanel [] true true None)) as (_ & _ & H & _).
  exact (H (lit " ") (lit "  ") [] eq_refl).
Defined.

(** X19: a pointer-down selects only what can be seen and starts a
    gesture only on what is unlocked.  After any pointer-down the
    selection, if there is one, is the id of a visible layer of the
    stack; if the pointer-down turns on the drag flag, the selection is
    the id of a visible, unlocked layer under the pointer; if it turns
    on the resize flag, the selected layer is visible and unlocked. *)
Theorem X19_pointer_down_respects_visibility_and_lock :
  forall (s : State) (pos : Pos),
    let s' := handleInteractionStart pos s in
    (forall k, activeImageId s' = Some k ->
               exists L, In L (canvasImages s) /\ id L = k /\
                         isVisible L = true) /\
    (isDragging s = false -> isDragging s' = true ->
     exists L, In L (canvasImages s) /\ activeImageId s' = Some (id L) /\
               hitRect L pos = true /\ isLocked L = false) /\
    (isResizing s = false -> isResizing s' = true ->
     exists a, findById (canvasImages s') (activeImageId s') = Some a /\
               isVisible a = true /\ isLocked a = false).
Proof.
  intros s pos s'. subst s'. unfold handleInteractionStart.
  destruct (onActiveHandle pos s) eqn:Eon.
  - assert (Hph : exists a h,
               findById (canvasImages s) (activeImageId s) = Some a /\
               isVisible a = true /\ isLocked a = false /\
               startHandlePhase pos s =
               (set_isResizing true (set_activeHandle (Some h) s), true)).
    { revert Eon. unfold onActiveHandle, startHandlePhase.
      destruct (findById _ _) as [a|]; [|discriminate].
      destruct (isVisible a) eqn:Ev; [|discriminate].
      destruct (isLocked a) eqn:El; [discriminate|]. simpl.
      destruct (getHandleAtPos _ _ _) as [h|]; [|discriminate].
      intros _. exists a, h. auto. }
    destruct Hph as (a & h & Hf & Hv & Hl & Hph). rewrite Hph. simpl.
    split; [|split].
    + intros k Hk. exists a. unfold findById in Hf. rewrite Hk in Hf.
      apply find_some in Hf. destruct Hf as [Hin Hid].
      apply Z.eqb_eq in Hid. auto.
    + intros H1 H2. congruence.
    + intros _ _. exists a. auto.
  - pose proof (startHandlePhase_clicked pos s) as Hc.
    pose proof (startHandlePhase_frame pos s) as Hf.
    destruct (startHandlePhase pos s) as [s1 clicked]. simpl in Hc, Hf.
    rewrite Eon in Hc. subst clicked.
    destruct Hf as (Hi & Ha & Hd & Hs & Hr). specialize (Hr Eon).
    rewrite Hi.
    destruct (hitScan (canvasImages s) pos (List.length (canvasImages s)))
      as [[i L]|] eqn:Es.
    + destruct (hitScan_full _ _ _ _ Es) as (Hn & HL & _).
      pose proof (nth_error_In _ _ Hn) as Hin.
      assert (Hv : isVisible L = true).
      { unfold hitRect in HL. destruct (isVisible L); [reflexivity|].
        discriminate HL. }
      destruct (isLocked L) eqn:El; simpl.
      * split; [intros k [= <-]; exists L; auto|].
        split; [intros H1 H2; congruence|intros H1 H2; congruence].
      * split; [intros k [= <-]; exists L; auto|].
        split; [intros _ _; exists L; auto|intros H1 H2; congruence].
    + simpl. split; [discriminate|].
      split; intros H1 H2; congruence.
Qed.

Lemma X19_hidden_layer_witness :
  exists L, In L [layerA; layerHidden] /\ id L = 1%Z /\ isVisible L = true.
Proof.
  destruct (X19_pointer_down_respects_visibility_and_lock
              (idle [layerA; layerHidden] (Some 4%Z)) (mkPos 110 110))
    as (H & _ & _).
  exact (H 1%Z eq_refl).
Defined.

(** X20: the lock and visibility buttons undo themselves, and a hidden
    layer composites as if it were not there.  Pressing either button
    twice on the same layer restores the state; hiding a visible layer
    gives the composite of the stack without that layer, on the same
    canvas. *)
Theorem X20_toggles_undo_and_hidden_is_absent :
  forall (k : nat) (s : State),
    toggleLock k (toggleLock k s) = s /\
    toggleVisible k (toggleVisible k s) = s /\
    (forall L, nth_error (canvasImages s) k = Some L ->
               isVisible L = true ->
               flattenCanvas true (toggleVisible k s) =
               flattenCanvas true
                 (set_canvasImages (removeAt k (canvasImages s)) s)).
Proof.
  intros k s. split; [|split].
  - unfold toggleLock. apply updateAt_state_twice.
    intros []. unfold set_isLocked. simpl. rewrite negb_involutive.
    reflexivity.
  - unfold toggleVisible. apply updateAt_state_twice.
    intros []. unfold set_isVisible. simpl. rewrite negb_involutive.
    reflexivity.
  - intros L Hn Hv. rewrite !flattenCanvas_spec. unfold toggleVisible. simpl.
    destruct (nth_error_decompose _ _ _ Hn) as (l1 & l2 & -> & <-).
    rewrite updateAt_split, removeAt_split, !filter_app. simpl.
    rewrite Hv. reflexivity.
Qed.

Lemma X20_hide_witness :
  flattenCanvas true (toggleVisible 0 overlapping) =
  flattenCanvas true
    (set_canvasImages (removeAt 0 (canvasImages overlapping)) overlapping).
Proof.
  destruct (X20_toggles_undo_and_hidden_is_absent 0 overlapping)
    as (_ & _ & H).
  exact (H layerA eq_refl eq_refl).
Defined.

(** X21: with well-formed pointer input the editor is never dragging and
    resizing at once.  Starting with no gesture in progress, after any
    stream of pointer events in which every pointer-down is preceded by
    a pointer-up (or is the first), the drag flag and the resize flag
    are not both set. *)
Theorem X21_drag_and_resize_exclude_each_other :
  forall (evs : list PointerEvent) (s : State),
    isDragging s = false -> isResizing s = false ->
    alternating false evs = true ->
    isDragging (run evs s) && isResizing (run evs s) = false.
Proof.
  intros evs s Hd Hr Halt.
  apply (alternating_flags evs false s Halt).
  - rewrite Hd. reflexivity.
  - auto.
Qed.

Lemma X21_flags_witness :
  isDragging
    (run [pointerDown (mkPos 100 100); pointerMove (mkPos 50 60); pointerUp;
          pointerDown (mkPos 200 200); pointerMove (mkPos 210 210)]
         (idle [layerA] (Some 1%Z))) &&
  isResizing
    (run [pointerDown (mkPos 100 100); pointerMove (mkPos 50 60); pointerUp;
          pointerDown (mkPos 200 200); pointerMove (mkPos 210 210)]
         (idle [layerA] (Some 1%Z))) = false.
Proof.
  apply X21_drag_and_resize_exclude_each_other; reflexivity.
Defined.

(** X22: committing a name is idempotent, and Escape keeps a committed
    name.  Committing the same input twice is the same as committing it
    once; after a commit with an input that is not blank, cancelling an
    edit (which commits the current name) changes nothing.  In general
    cancelling an edit leaves the layer unchanged exactly when its name
    is blank or already trimmed. *)
Theorem X22_rename_commit_is_idempotent :
  forall (inputValue : jsstring) (image : CanvasImage),
    stopEditing inputValue (stopEditing inputValue image) =
    stopEditing inputValue image /\
    (blank inputValue = false ->
     cancelEditing (stopEditing inputValue image) =
     stopEditing inputValue image) /\
    (cancelEditing image = image <->
     blank (name image) = true \/ trim (name image) = name image).
Proof.
  intros v image. unfold cancelEditing, stopEditing.
  split; [|split].
  - destruct (trim v) as [|c r]; reflexivity.
  - intros Hb. apply blank_trim in Hb.
    destruct (trim v) as [|c r] eqn:E; [congruence|].
    assert (Ht : trim (c :: r) = c :: r)
      by (rewrite <- E; apply trim_idempotent).
    change (name (set_name (c :: r) image)) with (c :: r).
    rewrite Ht. reflexivity.
  - destruct (trim (name image)) as [|c r] eqn:E.
    + split; [intros _; left; apply trim_nil; exact E|reflexivity].
    + split.
      * intros H. right. apply (f_equal name) in H. exact H.
      * intros [H|H].
        -- unfold blank in H. apply trim_nil in H. congruence.
        -- rewrite H. destruct image. reflexivity.
Qed.

Lemma X22_rename_witness :
  cancelEditing (stopEditing (lit "  sky line ") layerA) =
  stopEditing (lit "  sky line ") layerA.
Proof.
  apply (X22_rename_commit_is_idempotent (lit "  sky line ") layerA).
  reflexivity.
Defined.

(** X23: download names tell the seconds apart.  For dates with fields
    in their calendar ranges, the time stamp in the file name that
    [generateFilename] builds is the year followed by exactly eleven
    characters (month and day, a dash, hour, minute and second, each
    padded to two digits), and two names built with the same prefix and
    extension are equal only if year, month, day, hour, minute and
    second all agree. *)
Theorem X23_download_names_differ_between_seconds :
  forall (t1 t2 : LocalTime) (prefix extension : jsstring),
    validTime t1 -> validTime t2 ->
    List.length (timestamp t1) =
    (List.length (numberToString (fullYear t1)) + 11)%nat /\
    (generateFilename t1 prefix extension =
     generateFilename t2 prefix extension -> t1 = t2).
Proof.
  intros [y1 mo1 d1 h1 mi1 s1] [y2 mo2 d2 h2 mi2 s2] prefix ext.
  unfold validTime. simpl.
  intros (Hmo1 & Hd1 & Hh1 & Hmi1 & Hs1) (Hmo2 & Hd2 & Hh2 & Hmi2 & Hs2).
  assert (P : forall n m, (n < 100)%nat -> (m < 100)%nat ->
              List.length (padStart2 (numberToString n)) = 2%nat /\
              (padStart2 (numberToString n) = padStart2 (numberToString m) ->
               n = m)) by (apply padded_two_digits).
  destruct (P (mo1 + 1)%nat (mo2 + 1)%nat) as [Lmo Imo]; try lia.
  destruct (P d1 d2) as [Ld Id]; try lia.
  destruct (P h1 h2) as [Lh Ih]; try lia.
  destruct (P mi1 mi2) as [Lmi Imi]; try lia.
  destruct (P s1 s2) as [Ls Is]; try lia.
  destruct (P (mo2 + 1)%nat (mo2 + 1)%nat) as [Lmo2 _]; try lia.
  destruct (P d2 d2) as [Ld2 _]; try lia.
  destruct (P h2 h2) as [Lh2 _]; try lia.
  destruct (P mi2 mi2) as [Lmi2 _]; try lia.
  destruct (P s2 s2) as [Ls2 _]; try lia.
  unfold generateFilename, timestamp. simpl fullYear. simpl month.
  simpl date. simpl hours. simpl minutes. simpl seconds.
  split.
  - rewrite !length_app, Lmo, Ld, Lh, Lmi, Ls. simpl. lia.
  - intros H. apply app_inv_head in H. apply app_inv_head in H.
    rewrite !app_assoc in H. apply app_inv_tail in H. apply app_inv_tail in H.
    rewrite <- !app_assoc in H.
    apply app_inj_length_tail in H;
      [|rewrite !length_app, Lmo, Ld, Lh, Lmi, Ls, Lmo2, Ld2, Lh2, Lmi2, Ls2;
        reflexivity].
    destruct H as [Hy H]. apply numberToString_inj in Hy.
    apply app_inj_length in H; [|congruence]. destruct H as [Hmo H].
    apply app_inj_length in H; [|congruence]. destruct H as [Hd H].
    apply app_inv_head in H.
    apply app_inj_length in H; [|congruence]. destruct H as [Hh H].
    apply app_inj_length in H; [|congruence]. destruct H as [Hmi Hs].
    apply Imo in Hmo. apply Id in Hd. apply Ih in Hh. apply Imi in Hmi.
    apply Is in Hs. subst. f_equal. lia.
Qed.

Lemma X23_download_names_witness :
  List.length (timestamp (mkTime 2025 0 9 7 5 3)) =
  (List.length (numberToString 2025) + 11)%nat /\
  generateFilename (mkTime 2025 0 9 7 5 3) (lit "generated-image") (lit "png")
  = lit "generated-image-20250109-070503.png".
Proof.
  assert (Hv : validTime (mkTime 2025 0 9 7 5 3))
    by (unfold validTime; simpl; lia).
  destruct (X23_download_names_differ_between_seconds
              (mkTime 2025 0 9 7 5 3) (mkTime 2025 0 9 7 5 3)
              (lit "generated-image") (lit "png") Hv Hv) as [Hlen _].
  split; [exact Hlen|reflexivity].
Defined.
